(** * The AWK interpreter: run protocol, fields, patterns and string built-ins

    A shallow embedding of the evaluator of the interpreter
    (src/interpreter.cpp, src/interpreter_eval.cpp, src/interpreter_exec.cpp,
    src/interpreter_builtins_string.cpp, src/value.cpp, src/environment.cpp,
    src/main.cpp) for the loop-free, array-free part of the language:
    literals, variables, fields, concatenation, assignment, increment
    and decrement, the operators [+], [-], [*], comparison and logic,
    matching, the calls sub, gsub, substr and length, and the
    statements print, if, block, next, nextfile, exit, break, continue
    and return.

    State is passed explicitly: every function that mutates the
    interpreter takes an [Interp] and returns the new one.  The C++
    exceptions used for control flow are the [Outcome] of a statement.

    What the C++ takes from its host is a parameter here: libc number
    parsing and printing and the integer conversions the language leaves
    open ([Host]), and the regular expression engine ([RegexLib]).

    Memory has no bound here, so no allocation fails: the embedded
    statements raise no exception derived from [std::exception]
    themselves.  The outcome [Raise] stands for one that reaches [run]
    and [main], which has a handler for it. *)

From Stdlib Require Import ZArith QArith Qround Qabs Qpower Ascii String List Lia Bool.
From Stdlib Require DecimalString.
From stdpp Require Import base option gmap strings list.

#[local] Set Warnings "-register-all".

Local Open Scope string_scope.
Local Open Scope Z_scope.

(** ** Strings *)

(** [std::string] is a [string]; positions and lengths are [nat]. *)

Fixpoint str_take (n : nat) (s : string) : string :=
  match n, s with
  | S n', String c r => String c (str_take n' r)
  | _, _ => EmptyString
  end.

Fixpoint str_drop (n : nat) (s : string) : string :=
  match n, s with
  | S n', String _ r => str_drop n' r
  | _, _ => s
  end.

Definition str_empty (s : string) : bool :=
  match s with EmptyString => true | String _ _ => false end.

(** [std::isspace] in the "C" locale. *)
Definition isspace (c : ascii) : bool :=
  let n := nat_of_ascii c in
  (n =? 32)%nat || ((9 <=? n)%nat && (n <=? 13)%nat).

Fixpoint skip_space (s : string) : string :=
  match s with
  | String c r => if isspace c then skip_space r else s
  | EmptyString => EmptyString
  end.

(** [s.find(t)]: position of the first occurrence of [t] in [s]. *)
Definition str_find (t s : string) : option nat := String.index 0 t s.

(** The first [n] characters, for a count held in a [size_t]. *)
Fixpoint str_take_count (n : Z) (s : string) : string :=
  match s with
  | String c r => if 0 <? n then String c (str_take_count (n - 1) r) else EmptyString
  | EmptyString => EmptyString
  end.

(** [std::string::npos] *)
Definition npos : Z := 2 ^ 64 - 1.

(** [s.substr(pos, n)] for [pos <= s.length()]. *)
Definition str_substr (s : string) (pos : nat) (n : Z) : string :=
  str_take_count n (str_drop pos s).

(** ** The host: libc and the conversions C++ leaves open *)

Inductive IntType := T_int | T_long_long | T_size_t.

Definition int_lo (T : IntType) : Z :=
  match T with
  | T_int => - 2 ^ 31
  | T_long_long => - 2 ^ 63
  | T_size_t => 0
  end.

Definition int_hi (T : IntType) : Z :=
  match T with
  | T_int => 2 ^ 31 - 1
  | T_long_long => 2 ^ 63 - 1
  | T_size_t => 2 ^ 64 - 1
  end.

(** A [double] is the rational it holds; see [round_double] for the
    results that no double holds.  [strtod] is the number libc
    reads at the start of a text (0 when it reads none), [strtoll] the
    same for integers in a base, [snprintf_double] the text libc prints
    for a format and a number, [open_error] the text of
    [strerror(errno)] after a file of that name could not be opened.  A
    conversion of a [double] to an integer type truncates; when the
    truncated value does not fit the type the language does not say what
    is produced: [convert_out_of_range]. *)
Class Host := {
  strtod : string -> Q;
  strtoll : string -> Z -> Z;
  snprintf_double : string -> Q -> string;
  open_error : string -> string;
  convert_out_of_range : IntType -> Q -> Z
}.

Definition trunc (d : Q) : Z := Z.quot (Qnum d) (Z.pos (Qden d)).

Definition static_cast {host : Host} (T : IntType) (d : Q) : Z :=
  let t := trunc d in
  if (int_lo T <=? t) && (t <=? int_hi T) then t else convert_out_of_range T d.

(** The arithmetic of [double]: a sum, a difference, a product or a
    converted integer that no double holds is rounded to 53 significant
    bits, to the nearest double, a tie to the one with the even last
    bit.  [ilog2 q] is the exponent of [q], the [e] with
    [2^e <= |q| < 2^(e+1)], so [2^(e-52)] is the distance between the
    doubles around [q].  The exponent has no bound here: the infinities
    that a result beyond the largest double gives in C++, the subnormal
    numbers and NaN are outside the model. *)
Definition round_half_even (q : Q) : Z :=
  let f := Qfloor q in
  match Qcompare (q - inject_Z f)%Q (1 # 2)%Q with
  | Lt => f
  | Gt => f + 1
  | Eq => if Z.even f then f else f + 1
  end.

Definition ilog2 (q : Q) : Z :=
  let e := Z.log2 (Z.abs (Qnum q)) - Z.log2 (Z.pos (Qden q)) in
  if Qle_bool (Qpower 2%Q e) (Qabs q) then e else e - 1.

Definition round_double (q : Q) : Q :=
  if Qeq_bool q 0%Q then q
  else
    let ulp := Qpower 2%Q (ilog2 q - 52) in
    let r := (inject_Z (round_half_even (q / ulp)) * ulp)%Q in
    if Qeq_bool r q then q else Qred r.

(** [static_cast<double>(n)] *)
Definition to_double (n : Z) : Q := round_double (inject_Z n).

(** [std::to_string(long long)] *)
Definition std_to_string (n : Z) : string :=
  DecimalString.NilZero.string_of_int (Z.to_int n).

(** ** Values (value.hpp, value.cpp) *)

Module AWKValue.

(** The tag and its payload.  Arrays are outside the embedded part. *)
Inductive t :=
| UNINITIALIZED
| NUMBER (number_value_ : Q)
| STRING (string_value_ : string)
| STRNUM (string_value_ : string)
| REGEX (regex_pattern_ : string).

Section WithHost.
Context {host : Host}.

Definition string_to_number (str : string) : Q :=
  if str_empty str then 0%Q
  else
    let s := skip_space str in
    match s with
    | EmptyString => 0%Q
    | String "0" (String x _) =>
        if (Ascii.eqb x "x" || Ascii.eqb x "X")%bool
        then to_double (strtoll s 16)
        else strtod s
    | _ => strtod s
    end.

Definition number_to_string (num : Q) (format : string) : string :=
  if Qeq_bool (inject_Z (Qfloor num)) num
     && Qle_bool (inject_Z (- 2 ^ 63)) num
     && Qle_bool num (inject_Z (2 ^ 63))
  then std_to_string (static_cast T_long_long num)
  else snprintf_double format num.

Definition to_number (v : t) : Q :=
  match v with
  | NUMBER n => n
  | UNINITIALIZED => 0%Q
  | STRING s | STRNUM s => string_to_number s
  | REGEX _ => 0%Q
  end.

Definition to_string_fmt (v : t) (convfmt : string) : string :=
  match v with
  | STRING s | STRNUM s => s
  | NUMBER n => number_to_string n convfmt
  | UNINITIALIZED => ""
  | REGEX p => p
  end.

Definition to_string (v : t) : string := to_string_fmt v "%.6g".

Definition to_bool (v : t) : bool :=
  match v with
  | NUMBER n => negb (Qeq_bool n 0)
  | UNINITIALIZED => false
  | STRING s | STRNUM s => negb (str_empty s)
  | REGEX _ => true
  end.

Definition is_numeric (v : t) : bool :=
  match v with
  | NUMBER _ | STRNUM _ | UNINITIALIZED => true
  | _ => false
  end.

(** -1, 0 or 1 *)
Definition compare (a b : t) : Z :=
  if is_numeric a && is_numeric b then
    match Qcompare (to_number a) (to_number b) with
    | Lt => -1 | Gt => 1 | Eq => 0
    end
  else
    match String.compare (to_string a) (to_string b) with
    | Lt => -1 | Gt => 1 | Eq => 0
    end.

Definition add (a b : t) : t := NUMBER (round_double (to_number a + to_number b)%Q).
Definition sub (a b : t) : t := NUMBER (round_double (to_number a - to_number b)%Q).
Definition mul (a b : t) : t := NUMBER (round_double (to_number a * to_number b)%Q).
Definition neg (a : t) : t := NUMBER (- to_number a).
Definition pos (a : t) : t := NUMBER (to_number a).

(** [pre_increment] and [pre_decrement]: the value becomes a number. *)
Definition pre_increment (v : t) : t := NUMBER (round_double (to_number v + 1)%Q).
Definition pre_decrement (v : t) : t := NUMBER (round_double (to_number v - 1)%Q).

(** Modelled from the spec: [AWKValue::append_string], called by the
    assignment evaluator and declared in no file of the source tree.
    The spec has the call "append into the existing string": the
    value becomes a string holding its former text followed by the
    argument. *)
Definition append_string (v : t) (s : string) : t :=
  STRING (to_string v ++ s).

End WithHost.

Definition strnum (str : string) : t := STRNUM str.

Definition is_regex (v : t) : bool :=
  match v with REGEX _ => true | _ => false end.

End AWKValue.

(** ** The regular expression engine (std::regex) *)

Record match_flag_type := {
  match_not_null : bool;
  match_continuous : bool;
  match_prev_avail : bool
}.

Definition match_default : match_flag_type :=
  {| match_not_null := false; match_continuous := false;
     match_prev_avail := false |}.

(** The engine is a parameter.  [regex_compile pattern icase] is the
    constructor [std::regex(pattern, extended [| icase])]; when it throws
    [regex_error] the result is the text of [what()].  [regex_search_raw re flags before s] is
    [std::regex_search(first, last, m, re, flags)] on the range [s] that
    follows the text [before] in the same string: the position and the
    length of the match in [s], and the texts of the marked
    sub-expressions. *)
Class RegexLib := {
  regex : Type;
  regex_compile : string -> bool -> regex + string;
  regex_search_raw :
    regex -> match_flag_type -> string -> string ->
    option (nat * nat * list string)
}.

(** [std::smatch] after a successful search: [prefix()], [str()],
    [suffix()] and the sub-matches from 1 on. *)
Record match_results := {
  prefix : string;
  matched : string;
  suffix : string;
  groups : list string
}.

Definition is_digit (c : ascii) : bool :=
  let n := nat_of_ascii c in (48 <=? n)%nat && (n <=? 57)%nat.

Definition digit_value (c : ascii) : nat := (nat_of_ascii c - 48)%nat.

Section Regex.
Context {engine : RegexLib}.

(** A reply with an empty match under [match_not_null] is read as no
    match, which is what a conforming engine answers. *)
Definition regex_search (re : regex) (fl : match_flag_type)
    (before s : string) : option match_results :=
  match regex_search_raw re fl before s with
  | None => None
  | Some (pos, len, gs) =>
      let m := str_take len (str_drop pos s) in
      if match_not_null fl && str_empty m then None
      else Some {| prefix := str_take pos s; matched := m;
                   suffix := str_drop len (str_drop pos s); groups := gs |}
  end.

(** The matches a [std::sregex_iterator] enumerates after [m], by the
    increment of [re.regiter.incr]: after an empty match the engine is
    asked for a non-empty match at the same place, then the start moves
    one character on; [match_prev_avail] is set from then on.  [before]
    is the text in front of [prefix m]. *)
Fixpoint regex_iterator_next (fuel : nat) (re : regex)
    (fl : match_flag_type) (before : string) (m : match_results)
    : list match_results :=
  match fuel with
  | O => []
  | S fuel' =>
      let start_before := before ++ prefix m ++ matched m in
      let rest := suffix m in
      let fl' := {| match_not_null := match_not_null fl;
                    match_continuous := match_continuous fl;
                    match_prev_avail := true |} in
      if str_empty (matched m) then
        match rest with
        | EmptyString => []
        | String c rest' =>
            match regex_search re
                    {| match_not_null := true; match_continuous := true;
                       match_prev_avail := match_prev_avail fl |}
                    start_before rest with
            | Some m' =>
                m' :: regex_iterator_next fuel' re fl start_before m'
            | None =>
                match regex_search re fl' (start_before ++ String c "") rest' with
                | Some m' =>
                    let m'' := {| prefix := String c (prefix m');
                                  matched := matched m';
                                  suffix := suffix m';
                                  groups := groups m' |} in
                    m'' :: regex_iterator_next fuel' re fl' start_before m''
                | None => []
                end
            end
        end
      else
        match regex_search re fl' start_before rest with
        | Some m' => m' :: regex_iterator_next fuel' re fl' start_before m'
        | None => []
        end
  end.

(** [std::sregex_iterator it(s.begin(), s.end(), re)] run to its end. *)
Definition regex_iterator (re : regex) (s : string) : list match_results :=
  match regex_search re match_default "" s with
  | None => []
  | Some m =>
      m :: regex_iterator_next (2 * String.length s + 2) re match_default "" m
  end.

(** [m.format(fmt)] with the default (ECMAScript) rules. *)
Definition format_sub (m : match_results) (n : nat) : string :=
  match n with
  | O => matched m
  | S k => default "" (groups m !! k)
  end.

Fixpoint format (m : match_results) (fmt : string) : string :=
  match fmt with
  | EmptyString => ""
  | String c r =>
      if Ascii.eqb c "$" then
        match r with
        | EmptyString => "$"
        | String d r' =>
            if Ascii.eqb d "$" then String "$" (format m r')
            else if Ascii.eqb d "&" then matched m ++ format m r'
            else if Ascii.eqb d "`" then prefix m ++ format m r'
            else if Ascii.eqb d "'" then suffix m ++ format m r'
            else if is_digit d then
              match r' with
              | String d2 r'' =>
                  if is_digit d2
                  then format_sub m (10 * digit_value d + digit_value d2)
                         ++ format m r''
                  else format_sub m (digit_value d) ++ format m r'
              | EmptyString => format_sub m (digit_value d)
              end
            else String "$" (format m r)
        end
      else String c (format m r)
  end.

(** [std::regex_replace(s, re, fmt [, format_first_only])]: each
    enumerated match contributes its prefix and the formatted
    replacement, the suffix of the last one closes the result; without
    a match the text is copied. *)
Fixpoint replace_all (fmt : string) (ms : list match_results)
    (last : string) : string :=
  match ms with
  | [] => last
  | m :: ms' => prefix m ++ format m fmt ++ replace_all fmt ms' (suffix m)
  end.

Definition regex_replace (s : string) (re : regex) (fmt : string)
    (format_first_only : bool) : string :=
  match regex_iterator re s with
  | [] => s
  | m :: ms =>
      if format_first_only then prefix m ++ format m fmt ++ suffix m
      else replace_all fmt (m :: ms) s
  end.

End Regex.

(** [convert_awk_replacement] (interpreter.hpp) *)
Fixpoint convert_awk_replacement (replacement : string)
    (support_backrefs : bool) : string :=
  match replacement with
  | EmptyString => ""
  | String c t =>
      if Ascii.eqb c "\" then
        match t with
        | String next r =>
            if support_backrefs && is_digit next then
              String "$" (String next (convert_awk_replacement r support_backrefs))
            else if Ascii.eqb next "&" then
              String "&" (convert_awk_replacement r support_backrefs)
            else if Ascii.eqb next "\" then
              String "\" (convert_awk_replacement r support_backrefs)
            else String c (convert_awk_replacement t support_backrefs)
        | EmptyString => String c ""
        end
      else if Ascii.eqb c "&" then
        "$&" ++ convert_awk_replacement t support_backrefs
      else String c (convert_awk_replacement t support_backrefs)
  end.

(** ** Variables (environment.hpp, environment.cpp) *)

Module Environment.

(** [globals_] and the stack of function scopes, innermost last. *)
Record t := {
  globals_ : gmap string AWKValue.t;
  scope_stack_ : list (gmap string AWKValue.t)
}.

(** An [AWKValue&] into one of the maps. *)
Inductive ref :=
| in_scope (depth : nat) (name : string)
| in_globals (name : string).

Definition is_special_variable (name : string) : bool :=
  bool_decide (name ∈
    ["FS"; "RS"; "OFS"; "ORS"; "NR"; "NF"; "FNR";
     "FILENAME"; "SUBSEP"; "CONVFMT"; "OFMT";
     "RSTART"; "RLENGTH"; "ARGC"; "ARGV"; "ENVIRON";
     "IGNORECASE"; "RT"; "FPAT"; "TEXTDOMAIN";
     "PROCINFO"; "SYMTAB"; "FUNCTAB"]).

(** The innermost scope that holds [name]: the loop from [rbegin]. *)
Fixpoint find_scope (name : string) (stack : list (gmap string AWKValue.t))
    : option nat :=
  match stack with
  | [] => None
  | sc :: rest =>
      match find_scope name rest with
      | Some i => Some (S i)
      | None => if bool_decide (is_Some (sc !! name)) then Some O else None
      end
  end.

(** [globals_[name]]: the entry is created when it is missing. *)
Definition global_entry (name : string) (env : t) : ref * t :=
  (in_globals name,
   {| globals_ :=
        match globals_ env !! name with
        | Some _ => globals_ env
        | None => <[name := AWKValue.UNINITIALIZED]> (globals_ env)
        end;
      scope_stack_ := scope_stack_ env |}).

Definition get_variable (name : string) (env : t) : ref * t :=
  match find_scope name (scope_stack_ env) with
  | Some i => (in_scope i name, env)
  | None =>
      match str_find "::" name with
      | Some sep_pos =>
          let unqualified := str_drop (sep_pos + 2) name in
          match find_scope unqualified (scope_stack_ env) with
          | Some i => (in_scope i unqualified, env)
          | None =>
              if bool_decide (is_Some (globals_ env !! unqualified))
                 && is_special_variable unqualified
              then (in_globals unqualified, env)
              else global_entry name env
          end
      | None => global_entry name env
      end
  end.

Definition read (r : ref) (env : t) : AWKValue.t :=
  match r with
  | in_scope i name =>
      default AWKValue.UNINITIALIZED (scope_stack_ env !! i ≫= (.!! name))
  | in_globals name => default AWKValue.UNINITIALIZED (globals_ env !! name)
  end.

Definition write (r : ref) (v : AWKValue.t) (env : t) : t :=
  match r with
  | in_scope i name =>
      {| globals_ := globals_ env;
         scope_stack_ := alter (<[name := v]>) i (scope_stack_ env) |}
  | in_globals name =>
      {| globals_ := <[name := v]> (globals_ env);
         scope_stack_ := scope_stack_ env |}
  end.

(** [set_variable]: the innermost scope that holds the name is
    written, the globals otherwise; the name is taken as it is. *)
Definition set_variable (name : string) (value : AWKValue.t) (env : t) : t :=
  match find_scope name (scope_stack_ env) with
  | Some i => write (in_scope i name) value env
  | None => write (in_globals name) value env
  end.

Definition has_variable (name : string) (env : t) : bool :=
  bool_decide (is_Some (find_scope name (scope_stack_ env)))
  || bool_decide (is_Some (globals_ env !! name)).

Definition push_scope (env : t) : t :=
  {| globals_ := globals_ env;
     scope_stack_ := scope_stack_ env ++ [∅] |}.

(** [pop_back] on a stack that is not empty. *)
Definition pop_scope (env : t) : t :=
  {| globals_ := globals_ env;
     scope_stack_ := take (length (scope_stack_ env) - 1)%nat (scope_stack_ env) |}.

(** [scope_stack_.back()[name] = value], the globals when no scope is
    open. *)
Definition set_local (name : string) (value : AWKValue.t) (env : t) : t :=
  match scope_stack_ env with
  | [] => write (in_globals name) value env
  | _ :: _ =>
      {| globals_ := globals_ env;
         scope_stack_ :=
           alter (<[name := value]>) (length (scope_stack_ env) - 1)%nat
             (scope_stack_ env) |}
  end.

(** [init_builtins], without the process environment and ARGV. *)
Definition init_builtins : t :=
  {| globals_ :=
       list_to_map
         [("FS", AWKValue.STRING " "); ("RS", AWKValue.STRING (String "010" ""));
          ("OFS", AWKValue.STRING " "); ("ORS", AWKValue.STRING (String "010" ""));
          ("NR", AWKValue.NUMBER 0); ("NF", AWKValue.NUMBER 0);
          ("FNR", AWKValue.NUMBER 0); ("FILENAME", AWKValue.STRING "");
          ("SUBSEP", AWKValue.STRING (String "028" ""));
          ("CONVFMT", AWKValue.STRING "%.6g"); ("OFMT", AWKValue.STRING "%.6g");
          ("RSTART", AWKValue.NUMBER 0); ("RLENGTH", AWKValue.NUMBER 0);
          ("IGNORECASE", AWKValue.NUMBER 0); ("RT", AWKValue.STRING "");
          ("FPAT", AWKValue.STRING ""); ("TEXTDOMAIN", AWKValue.STRING "messages");
          ("ARGC", AWKValue.NUMBER 0)];
     scope_stack_ := [] |}.

End Environment.

(** ** The syntax tree (ast.hpp), the embedded part *)

Inductive TokenType :=
| ASSIGN | PLUS_ASSIGN | MINUS_ASSIGN | STAR_ASSIGN
| PLUS | MINUS | STAR
| EQ | NE | LT | GT | LE | GE
| AND | OR | NOT
| INCREMENT | DECREMENT.

Inductive Expr :=
| LiteralExpr (value : Q + string)
| RegexExpr (pattern : string)
| VariableExpr (name : string)
| FieldExpr (index : Expr)
| BinaryExpr (left : Expr) (op : TokenType) (right : Expr)
| UnaryExpr (op : TokenType) (operand : Expr) (prefix : bool)
| TernaryExpr (condition then_expr else_expr : Expr)
| AssignExpr (target : Expr) (op : TokenType) (value : Expr)
| CallExpr (function_name : string) (arguments : list Expr)
| MatchExpr (string_ regex_ : Expr) (negated : bool)
| ConcatExpr (parts : list Expr).

Inductive Stmt :=
| ExprStmt (expression : Expr)
| PrintStmt (arguments : list Expr)
| BlockStmt (statements : list Stmt)
| IfStmt (condition : Expr) (then_branch : Stmt) (else_branch : option Stmt)
| BreakStmt
| ContinueStmt
| NextStmt
| NextfileStmt
| ExitStmt (status : option Expr)
| ReturnStmt (value : option Expr).

Inductive PatternType :=
| BEGIN | END | BEGINFILE | ENDFILE | EXPRESSION | REGEX | RANGE | EMPTY.

Record Pattern := {
  type : PatternType;
  expr : option Expr;
  range_end : option Expr;
  range_active : bool
}.

Record Rule := {
  pattern : Pattern;
  action : option Stmt
}.

(** The functions of a program are outside the embedded part. *)
Record Program := {
  rules : list Rule
}.

(** The control flow exceptions (interpreter.hpp). *)
Inductive Exception :=
| BreakException
| ContinueException
| NextException
| NextfileException
| ReturnException (value : AWKValue.t)
| ExitException (status : Z).

(** How a statement ends: it returns, it throws one of the control
    flow exceptions, or an exception derived from [std::exception]
    leaves it, with the text of [what()]. *)
Inductive Outcome :=
| Normal
| Throw (e : Exception)
| Raise (what : string).

(** ** The interpreter state (interpreter.hpp) *)

(** A history of what the run protocol did, kept beside the members of
    the C++ class so that the order of rule executions can be stated:
    the action of rule number [index] was entered for a pattern of type
    [ty], an input target was opened, the streams were closed. *)
Inductive Event :=
| EvRule (ty : PatternType) (index : nat)
| EvOpen (filename : string)
| EvCleanup.

(** The cached string forms of the special variables. *)
Record SpecialVars := {
  cached_rs_ : string;
  cached_fs_ : string;
  cached_ofs_ : string;
  cached_ors_ : string;
  cached_ofmt_ : string;
  cached_fpat_ : string;
  cached_subsep_ : string
}.

(** The members of the class that the embedded part uses.  [output_] and
    [error_] hold the text written to the two streams, [dummy_] is the
    static value [get_lvalue] hands out for a target that is no lvalue. *)
Record Interp := {
  env_ : Environment.t;
  current_record_ : string;
  fields_ : list string;
  fields_dirty_ : bool;
  record_dirty_ : bool;
  field0_ : AWKValue.t;
  empty_field_ : AWKValue.t;
  field_values_ : list AWKValue.t;
  field_values_valid_ : list bool;
  dummy_ : AWKValue.t;
  output_ : string;
  error_ : string;
  special_vars_dirty_ : bool;
  cached_ : SpecialVars;
  history_ : list Event
}.

Definition set_env_ (x : Environment.t) (st : Interp) : Interp :=
  Build_Interp x (current_record_ st) (fields_ st) (fields_dirty_ st)
    (record_dirty_ st) (field0_ st) (empty_field_ st) (field_values_ st)
    (field_values_valid_ st) (dummy_ st) (output_ st) (error_ st)
    (special_vars_dirty_ st) (cached_ st) (history_ st).

Definition set_current_record_ (x : string) (st : Interp) : Interp :=
  Build_Interp (env_ st) x (fields_ st) (fields_dirty_ st)
    (record_dirty_ st) (field0_ st) (empty_field_ st) (field_values_ st)
    (field_values_valid_ st) (dummy_ st) (output_ st) (error_ st)
    (special_vars_dirty_ st) (cached_ st) (history_ st).

Definition set_fields_ (x : list string) (st : Interp) : Interp :=
  Build_Interp (env_ st) (current_record_ st) x (fields_dirty_ st)
    (record_dirty_ st) (field0_ st) (empty_field_ st) (field_values_ st)
    (field_values_valid_ st) (dummy_ st) (output_ st) (error_ st)
    (special_vars_dirty_ st) (cached_ st) (history_ st).

Definition set_fields_dirty_ (x : bool) (st : Interp) : Interp :=
  Build_Interp (env_ st) (current_record_ st) (fields_ st) x
    (record_dirty_ st) (field0_ st) (empty_field_ st) (field_values_ st)
    (field_values_valid_ st) (dummy_ st) (output_ st) (error_ st)
    (special_vars_dirty_ st) (cached_ st) (history_ st).

Definition set_record_dirty_ (x : bool) (st : Interp) : Interp :=
  Build_Interp (env_ st) (current_record_ st) (fields_ st)
    (fields_dirty_ st) x (field0_ st) (empty_field_ st) (field_values_ st)
    (field_values_valid_ st) (dummy_ st) (output_ st) (error_ st)
    (special_vars_dirty_ st) (cached_ st) (history_ st).

Definition set_field0_ (x : AWKValue.t) (st : Interp) : Interp :=
  Build_Interp (env_ st) (current_record_ st) (fields_ st)
    (fields_dirty_ st) (record_dirty_ st) x (empty_field_ st)
    (field_values_ st) (field_values_valid_ st) (dummy_ st) (output_ st)
    (error_ st) (special_vars_dirty_ st) (cached_ st) (history_ st).

Definition set_empty_field_ (x : AWKValue.t) (st : Interp) : Interp :=
  Build_Interp (env_ st) (current_record_ st) (fields_ st)
    (fields_dirty_ st) (record_dirty_ st) (field0_ st) x (field_values_ st)
    (field_values_valid_ st) (dummy_ st) (output_ st) (error_ st)
    (special_vars_dirty_ st) (cached_ st) (history_ st).

Definition set_field_values_ (x : list AWKValue.t) (st : Interp) : Interp :=
  Build_Interp (env_ st) (current_record_ st) (fields_ st)
    (fields_dirty_ st) (record_dirty_ st) (field0_ st) (empty_field_ st) x
    (field_values_valid_ st) (dummy_ st) (output_ st) (error_ st)
    (special_vars_dirty_ st) (cached_ st) (history_ st).

Definition set_field_values_valid_ (x : list bool) (st : Interp) : Interp :=
  Build_Interp (env_ st) (current_record_ st) (fields_ st)
    (fields_dirty_ st) (record_dirty_ st) (field0_ st) (empty_field_ st)
    (field_values_ st) x (dummy_ st) (output_ st) (error_ st)
    (special_vars_dirty_ st) (cached_ st) (history_ st).

Definition set_dummy_ (x : AWKValue.t) (st : Interp) : Interp :=
  Build_Interp (env_ st) (current_record_ st) (fields_ st)
    (fields_dirty_ st) (record_dirty_ st) (field0_ st) (empty_field_ st)
    (field_values_ st) (field_values_valid_ st) x (output_ st) (error_ st)
    (special_vars_dirty_ st) (cached_ st) (history_ st).

Definition set_output_ (x : string) (st : Interp) : Interp :=
  Build_Interp (env_ st) (current_record_ st) (fields_ st)
    (fields_dirty_ st) (record_dirty_ st) (field0_ st) (empty_field_ st)
    (field_values_ st) (field_values_valid_ st) (dummy_ st) x (error_ st)
    (special_vars_dirty_ st) (cached_ st) (history_ st).

Definition set_error_ (x : string) (st : Interp) : Interp :=
  Build_Interp (env_ st) (current_record_ st) (fields_ st)
    (fields_dirty_ st) (record_dirty_ st) (field0_ st) (empty_field_ st)
    (field_values_ st) (field_values_valid_ st) (dummy_ st) (output_ st) x
    (special_vars_dirty_ st) (cached_ st) (history_ st).

Definition set_special_vars_dirty_ (x : bool) (st : Interp) : Interp :=
  Build_Interp (env_ st) (current_record_ st) (fields_ st)
    (fields_dirty_ st) (record_dirty_ st) (field0_ st) (empty_field_ st)
    (field_values_ st) (field_values_valid_ st) (dummy_ st) (output_ st)
    (error_ st) x (cached_ st) (history_ st).

Definition set_cached_ (x : SpecialVars) (st : Interp) : Interp :=
  Build_Interp (env_ st) (current_record_ st) (fields_ st)
    (fields_dirty_ st) (record_dirty_ st) (field0_ st) (empty_field_ st)
    (field_values_ st) (field_values_valid_ st) (dummy_ st) (output_ st)
    (error_ st) (special_vars_dirty_ st) x (history_ st).

Definition set_history_ (x : list Event) (st : Interp) : Interp :=
  Build_Interp (env_ st) (current_record_ st) (fields_ st)
    (fields_dirty_ st) (record_dirty_ st) (field0_ st) (empty_field_ st)
    (field_values_ st) (field_values_valid_ st) (dummy_ st) (output_ st)
    (error_ st) (special_vars_dirty_ st) (cached_ st) x.

(** ** Splitting text *)

(** [while (iss >> field)]: the maximal runs of non-space characters. *)
Fixpoint split_whitespace (s : string) (word : string) : list string :=
  match s with
  | EmptyString => if str_empty word then [] else [word]
  | String c r =>
      if isspace c then
        if str_empty word then split_whitespace r ""
        else word :: split_whitespace r ""
      else split_whitespace r (word ++ String c "")
  end.

(** The [find(sep, start)] loop: the pieces between the separators. *)
Fixpoint split_char (sep : ascii) (s : string) (piece : string) : list string :=
  match s with
  | EmptyString => [piece]
  | String c r =>
      if Ascii.eqb c sep then piece :: split_char sep r ""
      else split_char sep r (piece ++ String c "")
  end.

Fixpoint join (sep : string) (l : list string) : string :=
  match l with
  | [] => ""
  | [x] => x
  | x :: r => x ++ sep ++ join sep r
  end.

(** [v.resize(n, d)] *)
Definition resize {A} (n : nat) (d : A) (l : list A) : list A :=
  take n l ++ replicate (n - length l) d.

Definition newline : string := String "010" "".

(** ** Input streams *)

(** A [std::istream]: what is left to read, and whether the stream is
    still good.  Reaching the end of the input clears [good]. *)
Record istream := {
  buffer : string;
  good : bool
}.

Definition open_stream (content : string) : istream :=
  {| buffer := content; good := true |}.

Definition at_eof : istream := {| buffer := ""; good := false |}.

(** The characters up to the first newline, and what follows it when
    there is one. *)
Fixpoint take_line (delim : ascii) (s : string) : string * option string :=
  match s with
  | EmptyString => ("", None)
  | String c r =>
      if Ascii.eqb c delim then ("", Some r)
      else let '(l, k) := take_line delim r in (String c l, k)
  end.

(** [std::getline(input, str)]: on a stream that is not good nothing is
    done; otherwise [str] is erased and filled up to the newline or the
    end; the call fails when no character could be taken. *)
Definition getline (input : istream) (str : string) : bool * istream * string :=
  if negb (good input) then (false, input, str)
  else
    match buffer input with
    | EmptyString => (false, at_eof, "")
    | b =>
        match take_line "010" b with
        | (l, Some r) => (true, {| buffer := r; good := true |}, l)
        | (l, None) => (true, at_eof, l)
        end
    end.

(** The files the program can open, and the standard input. *)
Record World := {
  files : gmap string string;
  stdin : string
}.

(** An [AWKValue&] that the interpreter hands out: into the variables,
    into the members that hold field values, or the dummy. *)
Inductive value_ref :=
| ref_var (r : Environment.ref)
| ref_field0
| ref_empty_field
| ref_field_value (idx : nat)
| ref_dummy.

Definition read_ref (r : value_ref) (st : Interp) : AWKValue.t :=
  match r with
  | ref_var r => Environment.read r (env_ st)
  | ref_field0 => field0_ st
  | ref_empty_field => empty_field_ st
  | ref_field_value idx => default AWKValue.UNINITIALIZED (field_values_ st !! idx)
  | ref_dummy => dummy_ st
  end.

Definition write_ref (r : value_ref) (v : AWKValue.t) (st : Interp) : Interp :=
  match r with
  | ref_var r => set_env_ (Environment.write r v (env_ st)) st
  | ref_field0 => set_field0_ v st
  | ref_empty_field => set_empty_field_ v st
  | ref_field_value idx => set_field_values_ (<[idx := v]> (field_values_ st)) st
  | ref_dummy => set_dummy_ v st
  end.

(** The built-in functions outside the embedded part: what a call by
    name returns, [None] for a name that is no built-in.  A built-in
    returns a value; it throws none of the control flow exceptions.
    The programs of the embedded part define no functions, so for such
    a name [env_.get_function] finds nothing. *)
Class Library := {
  library_call :
    string -> list AWKValue.t -> Interp -> option (AWKValue.t * Interp)
}.

(** ** Fields and records (interpreter.cpp) *)

Section Interpreter.
Context {host : Host} {engine : RegexLib} {library : Library}.

(** A read and a write of a variable through the reference that
    [env_.get_variable] returns. *)
Definition env_get (name : string) (st : Interp) : AWKValue.t * Interp :=
  let '(r, env) := Environment.get_variable name (env_ st) in
  (Environment.read r env, set_env_ env st).

Definition env_set (name : string) (v : AWKValue.t) (st : Interp) : Interp :=
  let '(r, env) := Environment.get_variable name (env_ st) in
  set_env_ (Environment.write r v env) st.

Definition refresh_special_var_cache (st : Interp) : Interp :=
  if negb (special_vars_dirty_ st) then st
  else
    let '(rs, st) := env_get "RS" st in
    let '(fs, st) := env_get "FS" st in
    let '(ofs, st) := env_get "OFS" st in
    let '(ors, st) := env_get "ORS" st in
    let '(ofmt, st) := env_get "OFMT" st in
    let '(fpat, st) := env_get "FPAT" st in
    let '(subsep, st) := env_get "SUBSEP" st in
    set_special_vars_dirty_ false
      (set_cached_
         {| cached_rs_ := AWKValue.to_string rs;
            cached_fs_ := AWKValue.to_string fs;
            cached_ofs_ := AWKValue.to_string ofs;
            cached_ors_ := AWKValue.to_string ors;
            cached_ofmt_ := AWKValue.to_string ofmt;
            cached_fpat_ := AWKValue.to_string fpat;
            cached_subsep_ := AWKValue.to_string subsep |} st).

Definition get_cached (f : SpecialVars -> string) (st : Interp)
    : string * Interp :=
  let st := refresh_special_var_cache st in (f (cached_ st), st).

Definition get_cached_rs := get_cached cached_rs_.
Definition get_cached_fs := get_cached cached_fs_.
Definition get_cached_ofs := get_cached cached_ofs_.
Definition get_cached_ors := get_cached cached_ors_.
Definition get_cached_ofmt := get_cached cached_ofmt_.
Definition get_cached_fpat := get_cached cached_fpat_.

(** [get_cached_regex]: the cache (regex_cache.cpp) only saves
    compilations, the result is the regex compiled with the flags of
    [get_regex_flags]. *)
Definition get_cached_regex (pattern : string) (st : Interp)
    : (regex + string) * Interp :=
  let '(ic, st) := env_get "IGNORECASE" st in
  (regex_compile pattern (AWKValue.to_bool ic), st).

Definition write_error (msg : string) (st : Interp) : Interp :=
  set_error_ (error_ st ++ msg) st.

Definition write_output (text : string) (st : Interp) : Interp :=
  set_output_ (output_ st ++ text) st.

(** The tokens of [sregex_token_iterator(first, last, re, -1)]: the
    prefix of every match, then what follows the last match when that
    is not empty; the whole text when there is no match. *)
Definition regex_tokens (re : regex) (s : string) : list string :=
  match regex_iterator re s with
  | [] => [s]
  | ms =>
      map prefix ms ++
      match last ms with
      | Some m => if str_empty (suffix m) then [] else [suffix m]
      | None => []
      end
  end.

(** [env_.NF() = AWKValue(static_cast<double>(fields_.size()))] *)
Definition set_NF (st : Interp) : Interp :=
  env_set "NF" (AWKValue.NUMBER (to_double (Z.of_nat (length (fields_ st))))) st.

(** The end of [parse_fields]: NF is set and both flags are cleared. *)
Definition finish_parse (st : Interp) : Interp :=
  set_fields_dirty_ false (set_record_dirty_ false (set_NF st)).

Definition parse_fields (st : Interp) : Interp :=
  if negb (record_dirty_ st) then st
  else
    let st := set_fields_ [] st in
    let st := set_field_values_valid_
                (map (fun _ => false) (field_values_valid_ st)) st in
    let '(fpat, st) := get_cached_fpat st in
    if negb (str_empty fpat) then
      let '(re, st) := get_cached_regex fpat st in
      let st :=
        match re with
        | inl re =>
            set_fields_ (map matched (regex_iterator re (current_record_ st))) st
        | inr what =>
            let st := write_error ("awk: FPAT: invalid regex '" ++ fpat ++ "': "
                                   ++ what ++ newline) st in
            set_fields_ [current_record_ st] st
        end in
      finish_parse st
    else
      let '(fs, st) := get_cached_fs st in
      let st :=
        match fs with
        | String " " EmptyString =>
            set_fields_ (split_whitespace (current_record_ st) "") st
        | String sep EmptyString =>
            set_fields_ (split_char sep (current_record_ st) "") st
        | _ =>
            let '(re, st) := get_cached_regex fs st in
            match re with
            | inl re => set_fields_ (regex_tokens re (current_record_ st)) st
            | inr what =>
                let st := write_error ("awk: FS: invalid regex '" ++ fs ++ "': "
                                       ++ what ++ newline) st in
                set_fields_ [current_record_ st] st
            end
        end in
      finish_parse st.

Definition rebuild_record (st : Interp) : Interp :=
  if negb (fields_dirty_ st) then st
  else
    let '(ofs, st) := get_cached_ofs st in
    let st := set_current_record_ (join ofs (fields_ st)) st in
    set_fields_dirty_ false st.

(** The loop [while (index > fields_.size()) fields_.push_back("")]. *)
Definition extend_fields (index : nat) (st : Interp) : Interp :=
  set_fields_ (fields_ st ++ replicate (index - length (fields_ st)) "") st.

(** "Ensure field_values_ and validity vectors are large enough" *)
Definition ensure_field_values (st : Interp) : Interp :=
  if (length (field_values_ st) <? length (fields_ st))%nat then
    let n := length (fields_ st) in
    set_field_values_valid_ (resize n false (field_values_valid_ st))
      (set_field_values_ (resize n AWKValue.UNINITIALIZED (field_values_ st)) st)
  else st.

(** "Only create AWKValue if not already cached" *)
Definition cache_field_value (idx : nat) (st : Interp) : Interp :=
  if negb (default false (field_values_valid_ st !! idx)) then
    set_field_values_valid_ (<[idx := true]> (field_values_valid_ st))
      (set_field_values_
         (<[idx := AWKValue.strnum (default "" (fields_ st !! idx))]>
            (field_values_ st)) st)
  else st.

(** [get_field] returns a reference to [field0_], to [empty_field_] or
    to an element of [field_values_]. *)
Definition get_field (index : Z) (st : Interp) : value_ref * Interp :=
  let st := parse_fields st in
  if index =? 0 then
    let st := rebuild_record st in
    let st := set_field0_ (AWKValue.strnum (current_record_ st)) st in
    (ref_field0, st)
  else if index <? 0 then
    let st := set_empty_field_ (AWKValue.STRING "") st in
    (ref_empty_field, st)
  else
    let st := extend_fields (Z.to_nat index) st in
    let st := ensure_field_values st in
    let idx := (Z.to_nat index - 1)%nat in
    let st := cache_field_value idx st in
    (ref_field_value idx, st).

(** The value a field read yields: [AWKValue v = get_field(index)]. *)
Definition read_field (index : Z) (st : Interp) : AWKValue.t * Interp :=
  let '(r, st) := get_field index st in (read_ref r st, st).

(** "Invalidate cached AWKValue for this field" *)
Definition invalidate_field_value (index : nat) (st : Interp) : Interp :=
  if (index <=? length (field_values_valid_ st))%nat then
    set_field_values_valid_ (<[(index - 1)%nat := false]> (field_values_valid_ st)) st
  else st.

Definition set_field (index : Z) (value : AWKValue.t) (st : Interp) : Interp :=
  let st := parse_fields st in
  if index =? 0 then
    let st := set_current_record_ (AWKValue.to_string value) st in
    let st := set_record_dirty_ true st in
    parse_fields st
  else if index <? 0 then st
  else
    let st := extend_fields (Z.to_nat index) st in
    let idx := (Z.to_nat index - 1)%nat in
    let st := set_fields_ (<[idx := AWKValue.to_string value]> (fields_ st)) st in
    let st := set_fields_dirty_ true st in
    let st := invalidate_field_value (Z.to_nat index) st in
    set_NF st.

Definition set_record (record : string) (st : Interp) : Interp :=
  let st := set_current_record_ record st in
  let st := set_record_dirty_ true st in
  parse_fields st.

Definition regex_match (text pattern : AWKValue.t) (st : Interp)
    : bool * Interp :=
  let text_str := AWKValue.to_string text in
  let pattern_str :=
    match pattern with
    | AWKValue.REGEX p => p
    | _ => AWKValue.to_string pattern
    end in
  let '(re, st) := get_cached_regex pattern_str st in
  match re with
  | inl re => (bool_decide (is_Some (regex_search re match_default "" text_str)), st)
  | inr what =>
      (false, write_error ("awk: invalid regex '" ++ pattern_str ++ "': "
                           ++ what ++ newline) st)
  end.

(** ** String built-ins (interpreter_builtins_string.cpp) *)

Definition builtin_length (args : list AWKValue.t) (st : Interp)
    : AWKValue.t * Interp :=
  match args with
  | [] => (AWKValue.NUMBER (to_double (Z.of_nat (String.length (current_record_ st)))), st)
  | a0 :: _ =>
      (AWKValue.NUMBER (to_double (Z.of_nat (String.length (AWKValue.to_string a0)))), st)
  end.

Definition builtin_substr (args : list AWKValue.t) (st : Interp)
    : AWKValue.t * Interp :=
  match args with
  | [] => (AWKValue.STRING "", st)
  | a0 :: rest =>
      let str := AWKValue.to_string a0 in
      let start :=
        match rest with
        | a1 :: _ => static_cast T_int (AWKValue.to_number a1)
        | [] => 1
        end in
      let len :=
        match rest with
        | _ :: a2 :: _ => static_cast T_size_t (AWKValue.to_number a2)
        | _ => npos
        end in
      let start := if start <? 1 then 1 else start in
      let idx := start - 1 in
      if Z.of_nat (String.length str) <=? idx then (AWKValue.STRING "", st)
      else (AWKValue.STRING (str_substr str (Z.to_nat idx) len), st)
  end.

(** The counting loop of gsub: search, count, go on after the match,
    one character further after an empty match. *)
Fixpoint count_loop (fuel : nat) (re : regex) (before rest : string) : Z :=
  match fuel with
  | O => 0
  | S fuel' =>
      match regex_search re match_default before rest with
      | None => 0
      | Some m =>
          let before' := before ++ prefix m ++ matched m in
          if str_empty (matched m) then
            match suffix m with
            | EmptyString => 1
            | String c r => 1 + count_loop fuel' re (before' ++ String c "") r
            end
          else 1 + count_loop fuel' re before' (suffix m)
      end
  end.

Definition count_matches (re : regex) (target : string) : Z :=
  count_loop (S (String.length target)) re "" target.

Definition prepare_sub_target (args : list AWKValue.t) (st : Interp)
    : string * bool :=
  match args with
  | _ :: _ :: a2 :: _ =>
      match a2 with
      | AWKValue.UNINITIALIZED => (current_record_ st, true)
      | _ => (AWKValue.to_string a2, false)
      end
  | _ => (current_record_ st, true)
  end.

(** The count and the new text of [target]. *)
Definition do_substitution (pattern replacement target : string)
    (global : bool) (st : Interp) : Z * string * Interp :=
  let '(re, st) := get_cached_regex pattern st in
  match re with
  | inr _ => (0, target, st)
  | inl re =>
      let awk_replacement := convert_awk_replacement replacement false in
      if global then
        (count_matches re target, regex_replace target re awk_replacement false, st)
      else
        let result := regex_replace target re awk_replacement true in
        if negb (String.eqb result target) then (1, result, st)
        else (0, target, st)
  end.

Definition builtin_sub_gsub (global : bool) (args : list AWKValue.t)
    (st : Interp) : AWKValue.t * Interp :=
  match args with
  | a0 :: a1 :: _ =>
      let '(target, modify_record) := prepare_sub_target args st in
      let '(count, target, st) :=
        do_substitution (AWKValue.to_string a0) (AWKValue.to_string a1)
          target global st in
      let st := if (0 <? count) && modify_record then set_record target st else st in
      (AWKValue.NUMBER (to_double count), st)
  | _ => (AWKValue.NUMBER 0, st)
  end.

Definition get_builtin (name : string)
    : option (list AWKValue.t -> Interp -> AWKValue.t * Interp) :=
  if String.eqb name "length" then Some builtin_length
  else if String.eqb name "substr" then Some builtin_substr
  else if String.eqb name "sub" then Some (builtin_sub_gsub false)
  else if String.eqb name "gsub" then Some (builtin_sub_gsub true)
  else None.

Definition call_function (name : string) (args : list AWKValue.t)
    (st : Interp) : AWKValue.t * Interp :=
  let unqualified_name :=
    match str_find "::" name with
    | Some sep_pos => str_drop (sep_pos + 2) name
    | None => ""
    end in
  match get_builtin name with
  | Some builtin => builtin args st
  | None =>
      match (if str_empty unqualified_name then None
             else get_builtin unqualified_name) with
      | Some builtin => builtin args st
      | None =>
          match library_call name args st with
          | Some r => r
          | None =>
              (AWKValue.UNINITIALIZED,
               write_error ("awk: function " ++ name ++ " not defined" ++ newline) st)
          end
      end
  end.

(** ** Expressions (interpreter_eval.cpp, interpreter.cpp) *)

Definition is_truthy (value : AWKValue.t) : bool := AWKValue.to_bool value.

Definition bool_value (b : bool) : AWKValue.t :=
  AWKValue.NUMBER (if b then 1 else 0).

(** The operator switch of [evaluate(BinaryExpr&)]. *)
Definition binary_op (op : TokenType) (l r : AWKValue.t) : AWKValue.t :=
  match op with
  | PLUS => AWKValue.add l r
  | MINUS => AWKValue.sub l r
  | STAR => AWKValue.mul l r
  | EQ => bool_value (AWKValue.compare l r =? 0)
  | NE => bool_value (negb (AWKValue.compare l r =? 0))
  | LT => bool_value (AWKValue.compare l r <? 0)
  | GT => bool_value (AWKValue.compare l r >? 0)
  | LE => bool_value (AWKValue.compare l r <=? 0)
  | GE => bool_value (AWKValue.compare l r >=? 0)
  | _ => AWKValue.UNINITIALIZED
  end.

(** The operator switch of an assignment: the value the target gets. *)
Definition assign_op (op : TokenType) (old value : AWKValue.t) : AWKValue.t :=
  match op with
  | ASSIGN => value
  | PLUS_ASSIGN => AWKValue.add old value
  | MINUS_ASSIGN => AWKValue.sub old value
  | STAR_ASSIGN => AWKValue.mul old value
  | _ => old
  end.

(** The part of sub and gsub after the target text is known: count,
    replace, write the result back when it differs. *)
Definition substitute (function_name pattern replacement target_str : string)
    (write_back : string -> Interp -> Interp) (st : Interp)
    : AWKValue.t * Interp :=
  let '(re, st) := get_cached_regex pattern st in
  match re with
  | inr what =>
      (AWKValue.NUMBER 0,
       write_error ("awk: " ++ function_name ++ ": invalid regex '" ++ pattern
                    ++ "': " ++ what ++ newline) st)
  | inl re =>
      let awk_replacement := convert_awk_replacement replacement false in
      let '(result, count) :=
        if String.eqb function_name "sub" then
          let result := regex_replace target_str re awk_replacement true in
          (result, if negb (String.eqb result target_str) then 1 else 0)
        else
          (regex_replace target_str re awk_replacement false,
           count_matches re target_str) in
      let st :=
        if negb (String.eqb result target_str) then write_back result st
        else st in
      (AWKValue.NUMBER (to_double count), st)
  end.

Fixpoint evaluate (e : Expr) (st : Interp) {struct e} : AWKValue.t * Interp :=
  let evaluate_all :=
    fix evaluate_all (es : list Expr) (st : Interp) {struct es}
        : list AWKValue.t * Interp :=
      match es with
      | [] => ([], st)
      | e' :: es' =>
          let '(v, st) := evaluate e' st in
          let '(vs, st) := evaluate_all es' st in
          (v :: vs, st)
      end in
  let append_parts :=
    fix append_parts (target : value_ref) (es : list Expr) (st : Interp)
        {struct es} : Interp :=
      match es with
      | [] => st
      | e' :: es' =>
          let '(v, st) := evaluate e' st in
          let st := write_ref target
                      (AWKValue.append_string (read_ref target st)
                         (AWKValue.to_string v)) st in
          append_parts target es' st
      end in
  let field_index := fun (index : Expr) (st : Interp) =>
    let '(v, st) := evaluate index st in
    (static_cast T_int (AWKValue.to_number v), st) in
  let get_lvalue := fun (e' : Expr) (st : Interp) =>
    match e' with
    | VariableExpr name =>
        let '(r, env) := Environment.get_variable name (env_ st) in
        (ref_var r, set_env_ env st)
    | FieldExpr index =>
        let '(index, st) := field_index index st in
        get_field index st
    | _ => (ref_dummy, st)
    end in
  let assign_general := fun (target : Expr) (op : TokenType) (value : Expr) =>
    let '(value, st) := evaluate value st in
    match target with
    | FieldExpr index =>
        let '(index, st) := field_index index st in
        let st :=
          match op with
          | ASSIGN => set_field index value st
          | PLUS_ASSIGN | MINUS_ASSIGN | STAR_ASSIGN =>
              let '(old, st) := read_field index st in
              set_field index (assign_op op old value) st
          | _ => st
          end in
        read_field index st
    | _ =>
        let '(r, st) :=
          match target with
          | VariableExpr name =>
              let '(r, env) := Environment.get_variable name (env_ st) in
              (ref_var r, set_env_ env st)
          | _ => (ref_dummy, st)
          end in
        let st := write_ref r (assign_op op (read_ref r st) value) st in
        (read_ref r st, st)
    end in
  match e with
  | LiteralExpr (inl n) => (AWKValue.NUMBER n, st)
  | LiteralExpr (inr s) => (AWKValue.STRING s, st)
  | RegexExpr pattern => (AWKValue.REGEX pattern, st)
  | VariableExpr name => env_get name st
  | FieldExpr index =>
      let '(index, st) := field_index index st in
      read_field index st
  | BinaryExpr lhs AND rhs =>
      let '(l, st) := evaluate lhs st in
      if negb (is_truthy l) then (AWKValue.NUMBER 0, st)
      else let '(r, st) := evaluate rhs st in (bool_value (is_truthy r), st)
  | BinaryExpr lhs OR rhs =>
      let '(l, st) := evaluate lhs st in
      if is_truthy l then (AWKValue.NUMBER 1, st)
      else let '(r, st) := evaluate rhs st in (bool_value (is_truthy r), st)
  | BinaryExpr lhs op rhs =>
      let '(l, st) := evaluate lhs st in
      let '(r, st) := evaluate rhs st in
      (binary_op op l r, st)
  | UnaryExpr NOT (RegexExpr pattern) _ =>
      let '(matches, st) :=
        regex_match (AWKValue.STRING (current_record_ st)) (AWKValue.REGEX pattern) st in
      (bool_value (negb matches), st)
  | UnaryExpr NOT operand _ =>
      let '(v, st) := evaluate operand st in (bool_value (negb (is_truthy v)), st)
  | UnaryExpr MINUS operand _ =>
      let '(v, st) := evaluate operand st in (AWKValue.neg v, st)
  | UnaryExpr PLUS operand _ =>
      let '(v, st) := evaluate operand st in (AWKValue.pos v, st)
  | UnaryExpr INCREMENT operand prefix =>
      let '(lval, st) := get_lvalue operand st in
      let old := read_ref lval st in
      let st := write_ref lval (AWKValue.pre_increment old) st in
      (if prefix then read_ref lval st else old, st)
  | UnaryExpr DECREMENT operand prefix =>
      let '(lval, st) := get_lvalue operand st in
      let old := read_ref lval st in
      let st := write_ref lval (AWKValue.pre_decrement old) st in
      (if prefix then read_ref lval st else old, st)
  | UnaryExpr _ _ _ => (AWKValue.UNINITIALIZED, st)
  | TernaryExpr condition then_expr else_expr =>
      let '(c, st) := evaluate condition st in
      if is_truthy c then evaluate then_expr st else evaluate else_expr st
  | AssignExpr ((VariableExpr target_name) as target) ASSIGN
      ((ConcatExpr (VariableExpr first_name :: rest)) as value) =>
      if String.eqb first_name target_name then
        let '(r, env) := Environment.get_variable target_name (env_ st) in
        let st := set_env_ env st in
        (AWKValue.UNINITIALIZED, append_parts (ref_var r) rest st)
      else assign_general target ASSIGN value
  | AssignExpr target op value => assign_general target op value
  | CallExpr function_name arguments =>
      if String.eqb function_name "sub" || String.eqb function_name "gsub" then
        match arguments with
        | a0 :: a1 :: more =>
            let '(p, st) := evaluate a0 st in
            let pattern := AWKValue.to_string p in
            let '(r, st) := evaluate a1 st in
            let replacement := AWKValue.to_string r in
            match more with
            | [] =>
                substitute function_name pattern replacement (current_record_ st)
                  set_record st
            | VariableExpr name :: _ =>
                let '(target_var, env) := Environment.get_variable name (env_ st) in
                let st := set_env_ env st in
                substitute function_name pattern replacement
                  (AWKValue.to_string (Environment.read target_var (env_ st)))
                  (fun result => write_ref (ref_var target_var) (AWKValue.STRING result))
                  st
            | FieldExpr index :: _ =>
                let '(idx, st) := field_index index st in
                let '(f, st) := read_field idx st in
                substitute function_name pattern replacement (AWKValue.to_string f)
                  (fun result st =>
                     let '(idx, st) := field_index index st in
                     set_field idx (AWKValue.STRING result) st)
                  st
            | a2 :: _ =>
                let '(t, st) := evaluate a2 st in
                substitute function_name pattern replacement (AWKValue.to_string t)
                  (fun _ st => st) st
            end
        | _ => (AWKValue.NUMBER 0, st)
        end
      else
        let '(args, st) := evaluate_all arguments st in
        call_function function_name args st
  | MatchExpr string_ regex_ negated =>
      let '(text, st) := evaluate string_ st in
      let '(pattern, st) := evaluate regex_ st in
      let '(matches, st) := regex_match text pattern st in
      (bool_value (if negated then negb matches else matches), st)
  | ConcatExpr parts =>
      let '(vs, st) := evaluate_all parts st in
      (AWKValue.STRING (String.concat "" (map AWKValue.to_string vs)), st)
  end.

(** The two loops inside [evaluate], by name: the arguments of a call
    or the parts of a concatenation evaluated in order, and the loop of
    the append path of an assignment. *)
Fixpoint evaluate_all (es : list Expr) (st : Interp) : list AWKValue.t * Interp :=
  match es with
  | [] => ([], st)
  | e' :: es' =>
      let '(v, st) := evaluate e' st in
      let '(vs, st) := evaluate_all es' st in
      (v :: vs, st)
  end.

Fixpoint append_parts (target : value_ref) (es : list Expr) (st : Interp) : Interp :=
  match es with
  | [] => st
  | e' :: es' =>
      let '(v, st) := evaluate e' st in
      let st := write_ref target
                  (AWKValue.append_string (read_ref target st)
                     (AWKValue.to_string v)) st in
      append_parts target es' st
  end.

(** The shape [x = x e1 e2 ...] that the assignment evaluator looks
    for. *)
Definition is_append_shape (target : Expr) (op : TokenType) (value : Expr) : bool :=
  match target, op, value with
  | VariableExpr target_name, ASSIGN, ConcatExpr (VariableExpr first_name :: _) =>
      String.eqb first_name target_name
  | _, _, _ => false
  end.

(** ** Statements (interpreter_exec.cpp) *)

(** The arguments of print, joined by OFS. *)
Fixpoint print_arguments (ofs ofmt : string) (first : bool)
    (arguments : list Expr) (st : Interp) : Interp :=
  match arguments with
  | [] => st
  | arg :: more =>
      let st := if first then st else write_output ofs st in
      let '(val, st) := evaluate arg st in
      let st := write_output (AWKValue.to_string_fmt val ofmt) st in
      print_arguments ofs ofmt false more st
  end.

Fixpoint execute (stmt : Stmt) (st : Interp) {struct stmt} : Outcome * Interp :=
  let execute_block :=
    fix execute_block (statements : list Stmt) (st : Interp) {struct statements}
        : Outcome * Interp :=
      match statements with
      | [] => (Normal, st)
      | s :: more =>
          match execute s st with
          | (Normal, st) => execute_block more st
          | thrown => thrown
          end
      end in
  match stmt with
  | BlockStmt statements => execute_block statements st
  | IfStmt condition then_branch else_branch =>
      let '(c, st) := evaluate condition st in
      if is_truthy c then execute then_branch st
      else match else_branch with
           | Some else_branch => execute else_branch st
           | None => (Normal, st)
           end
  | PrintStmt arguments =>
      let st :=
        match arguments with
        | [] =>
            let st := rebuild_record st in
            write_output (current_record_ st) st
        | _ =>
            let '(ofs, st) := get_cached_ofs st in
            let '(ofmt, st) := get_cached_ofmt st in
            print_arguments ofs ofmt true arguments st
        end in
      let '(ors, st) := get_cached_ors st in
      (Normal, write_output ors st)
  | ExprStmt expression =>
      let '(_, st) := evaluate expression st in (Normal, st)
  | BreakStmt => (Throw BreakException, st)
  | ContinueStmt => (Throw ContinueException, st)
  | NextStmt => (Throw NextException, st)
  | NextfileStmt => (Throw NextfileException, st)
  | ExitStmt status =>
      match status with
      | Some status =>
          let '(v, st) := evaluate status st in
          (Throw (ExitException (static_cast T_int (AWKValue.to_number v))), st)
      | None => (Throw (ExitException 0), st)
      end
  | ReturnStmt value =>
      match value with
      | Some value =>
          let '(val, st) := evaluate value st in
          (Throw (ReturnException val), st)
      | None => (Throw (ReturnException AWKValue.UNINITIALIZED), st)
      end
  end.

(** ** Patterns (interpreter.cpp) *)

Definition set_range_active (b : bool) (p : Pattern) : Pattern :=
  {| type := type p; expr := expr p; range_end := range_end p;
     range_active := b |}.

(** The lambda of the RANGE case: a regex literal is matched against
    the current record, any other expression is tested for truth.  The
    parser gives a range pattern both expressions. *)
Definition eval_range_expr (e : option Expr) (st : Interp) : bool * Interp :=
  match e with
  | Some (RegexExpr pattern) =>
      regex_match (AWKValue.STRING (current_record_ st)) (AWKValue.REGEX pattern) st
  | Some e => let '(v, st) := evaluate e st in (is_truthy v, st)
  | None => (false, st)
  end.

Definition pattern_matches (p : Pattern) (st : Interp)
    : bool * Pattern * Interp :=
  match type p with
  | EMPTY => (true, p, st)
  | EXPRESSION =>
      match expr p with
      | Some e => let '(v, st) := evaluate e st in (is_truthy v, p, st)
      | None => (false, p, st)
      end
  | REGEX =>
      match expr p with
      | Some e =>
          let '(regex_val, st) := evaluate e st in
          let '(m, st) :=
            regex_match (AWKValue.STRING (current_record_ st)) regex_val st in
          (m, p, st)
      | None => (false, p, st)
      end
  | RANGE =>
      if range_active p then
        let '(end_matches, st) := eval_range_expr (range_end p) st in
        (true, if end_matches then set_range_active false p else p, st)
      else
        let '(start_matches, st) := eval_range_expr (expr p) st in
        if start_matches then
          let '(end_matches, st) := eval_range_expr (range_end p) st in
          (true, if negb end_matches then set_range_active true p else p, st)
        else (false, p, st)
  | _ => (false, p, st)
  end.

(** ** Reading records (interpreter.cpp) *)

(** The result of a reader: success, the stream, [record] and [rt]. *)
Definition read_record_line_mode (input : istream) (record : string)
    : bool * istream * string * string :=
  let '(ok, input, record) := getline input record in
  if ok then (true, input, record, newline) else (false, input, record, "").

Definition read_record_multi_char_mode := read_record_line_mode.

Definition read_record_single_char_mode (input : istream) (delimiter : ascii)
    : bool * istream * string * string :=
  if negb (good input) then (false, input, "", "")
  else
    match take_line delimiter (buffer input) with
    | (record, Some r) =>
        (true, {| buffer := r; good := true |}, record, String delimiter "")
    | (record, None) =>
        if str_empty record then (false, at_eof, "", "")
        else (true, at_eof, record, "")
    end.

(** The first loop of paragraph mode: the first line that is not
    empty. *)
Fixpoint skip_blank_lines (fuel : nat) (input : istream)
    : option string * istream :=
  match fuel with
  | O => (None, input)
  | S fuel' =>
      let '(ok, input, line) := getline input "" in
      if ok then
        if str_empty line then skip_blank_lines fuel' input
        else (Some line, input)
      else (None, input)
  end.

(** The second loop: lines are added until an empty one or the end. *)
Fixpoint read_paragraph (fuel : nat) (input : istream) (record : string)
    : istream * string * string :=
  match fuel with
  | O => (input, record, "")
  | S fuel' =>
      let '(ok, input, line) := getline input "" in
      if ok then
        if str_empty line then (input, record, newline)
        else read_paragraph fuel' input (record ++ newline ++ line)
      else (input, record, "")
  end.

Definition read_record_paragraph_mode (input : istream)
    : bool * istream * string * string :=
  let fuel := S (S (String.length (buffer input))) in
  match skip_blank_lines fuel input with
  | (None, input) => (false, input, "", "")
  | (Some line, input) =>
      let '(input, record, rt) := read_paragraph fuel input line in
      (true, input, record, rt)
  end.

Definition read_record (input : istream) (st : Interp)
    : bool * istream * Interp :=
  let '(rs, st) := get_cached_rs st in
  let '(success, input, record, rt) :=
    match rs with
    | EmptyString => read_record_paragraph_mode input
    | String c EmptyString =>
        if Ascii.eqb c "010" then read_record_line_mode input (current_record_ st)
        else read_record_single_char_mode input c
    | _ => read_record_multi_char_mode input (current_record_ st)
    end in
  let st := set_current_record_ record st in
  if negb success then
    (false, input, env_set "RT" (AWKValue.STRING "") st)
  else
    let st := env_set "RT" (AWKValue.STRING rt) st in
    let '(nr, st) := env_get "NR" st in
    let nr := round_double (AWKValue.to_number nr + 1)%Q in
    let '(fnr, st) := env_get "FNR" st in
    let fnr := round_double (AWKValue.to_number fnr + 1)%Q in
    let st := env_set "NR" (AWKValue.NUMBER nr) st in
    let st := env_set "FNR" (AWKValue.NUMBER fnr) st in
    let st := set_special_vars_dirty_ true st in
    let st := set_record_dirty_ true st in
    (true, input, parse_fields st).

(** ** Rules (interpreter.cpp) *)

Definition log (ev : Event) (st : Interp) : Interp :=
  set_history_ (history_ st ++ [ev]) st.

Definition PatternType_eqb (a b : PatternType) : bool :=
  match a, b with
  | BEGIN, BEGIN | END, END | BEGINFILE, BEGINFILE | ENDFILE, ENDFILE
  | EXPRESSION, EXPRESSION | REGEX, REGEX | RANGE, RANGE | EMPTY, EMPTY => true
  | _, _ => false
  end.

(** The loop that the four functions [execute_begin_rules],
    [execute_end_rules], [execute_beginfile_rules] and
    [execute_endfile_rules] share: the actions of the rules of one
    type, in source order, until one throws.  [index] numbers the
    rules of the program. *)
Fixpoint execute_rules_of (ty : PatternType) (index : nat)
    (rules : list Rule) (st : Interp) : Outcome * Interp :=
  match rules with
  | [] => (Normal, st)
  | rule :: more =>
      if PatternType_eqb (type (pattern rule)) ty then
        match action rule with
        | Some a =>
            match execute a (log (EvRule ty index) st) with
            | (Normal, st) => execute_rules_of ty (S index) more st
            | thrown => thrown
            end
        | None => execute_rules_of ty (S index) more st
        end
      else execute_rules_of ty (S index) more st
  end.

Definition execute_begin_rules (program : Program) :=
  execute_rules_of BEGIN 0 (rules program).
Definition execute_end_rules (program : Program) :=
  execute_rules_of END 0 (rules program).
Definition execute_beginfile_rules (program : Program) :=
  execute_rules_of BEGINFILE 0 (rules program).
Definition execute_endfile_rules (program : Program) :=
  execute_rules_of ENDFILE 0 (rules program).

Definition is_special (ty : PatternType) : bool :=
  match ty with
  | BEGIN | END | BEGINFILE | ENDFILE => true
  | _ => false
  end.

(** The loop of [execute_main_rules]; the rules come back with the
    range state their patterns have after the record. *)
Fixpoint main_rules_from (index : nat) (rules : list Rule) (st : Interp)
    : Outcome * list Rule * Interp :=
  match rules with
  | [] => (Normal, [], st)
  | rule :: more =>
      if is_special (type (pattern rule)) then
        let '(o, more, st) := main_rules_from (S index) more st in
        (o, rule :: more, st)
      else
        let '(m, p, st) := pattern_matches (pattern rule) st in
        let rule := {| pattern := p; action := action rule |} in
        if m then
          let st := log (EvRule (type p) index) st in
          let '(o, st) :=
            match action rule with
            | Some a => execute a st
            | None =>
                let '(ors, st) := env_get "ORS" st in
                (Normal, write_output (current_record_ st ++ AWKValue.to_string ors) st)
            end in
          match o with
          | Normal =>
              let '(o, more, st) := main_rules_from (S index) more st in
              (o, rule :: more, st)
          | thrown => (thrown, rule :: more, st)
          end
        else
          let '(o, more, st) := main_rules_from (S index) more st in
          (o, rule :: more, st)
  end.

Definition execute_main_rules (program : Program) (st : Interp)
    : Outcome * Program * Interp :=
  let '(o, rs, st) := main_rules_from 0 (rules program) st in
  (o, {| rules := rs |}, st).

(** ** The run protocol (interpreter.cpp, main.cpp) *)

(** The record loop.  A read consumes input or ends the stream, so
    [process_stream] gives the loop more steps than it can take. *)
Fixpoint process_stream_loop (fuel : nat) (input : istream)
    (program : Program) (st : Interp) : Outcome * Program * Interp :=
  match fuel with
  | O => (Normal, program, st)
  | S fuel' =>
      let '(ok, input, st) := read_record input st in
      if ok then
        match execute_main_rules program st with
        | (Normal, program, st)
        | (Throw NextException, program, st) =>
            process_stream_loop fuel' input program st
        | thrown => thrown
        end
      else (Normal, program, st)
  end.

Definition process_stream (input : istream) (program : Program) (st : Interp)
    : Outcome * Program * Interp :=
  process_stream_loop (S (S (String.length (buffer input)))) input program st.

Definition process_file (w : World) (filename : string) (program : Program)
    (st : Interp) : Outcome * Program * Interp :=
  match files w !! filename with
  | None =>
      (Normal, program,
       write_error ("awk: can't open file " ++ filename ++ ": "
                    ++ open_error filename ++ newline) st)
  | Some content =>
      let st := log (EvOpen filename) st in
      let st := env_set "FILENAME" (AWKValue.STRING filename) st in
      let st := env_set "FNR" (AWKValue.NUMBER 0) st in
      match execute_beginfile_rules program st with
      | (Normal, st) =>
          match process_stream (open_stream content) program st with
          | (Normal, program, st) =>
              let '(o, st) := execute_endfile_rules program st in
              (o, program, st)
          | thrown => thrown
          end
      | (thrown, st) => (thrown, program, st)
      end
  end.

(** The loop over the input files, with its catch of
    [NextfileException]. *)
Fixpoint process_files (w : World) (input_files : list string)
    (program : Program) (st : Interp) : Outcome * Program * Interp :=
  match input_files with
  | [] => (Normal, program, st)
  | filename :: more =>
      match process_file w filename program st with
      | (Normal, program, st)
      | (Throw NextfileException, program, st) =>
          process_files w more program st
      | thrown => thrown
      end
  end.

(** [cleanup_io] empties the registries of open files and pipes; the
    embedded statements open none. *)
Definition cleanup_io (st : Interp) : Interp := log EvCleanup st.

(** The body of the try block of [run]. *)
Definition run_rules (w : World) (program : Program)
    (input_files : list string) (st : Interp) : Outcome * Program * Interp :=
  match execute_begin_rules program st with
  | (Normal, st) =>
      let '(o, program, st) :=
        match input_files with
        | [] =>
            let st := env_set "FILENAME" (AWKValue.STRING "") st in
            process_stream (open_stream (stdin w)) program st
        | _ => process_files w input_files program st
        end in
      match o with
      | Normal =>
          let '(o, st) := execute_end_rules program st in
          (o, program, st)
      | thrown => (thrown, program, st)
      end
  | (thrown, st) => (thrown, program, st)
  end.

(** [run]: ARGC is set, the rules are run, an [ExitException] is
    caught and its status dropped, the streams are closed.  Any other
    exception leaves [run]. *)
Definition run (w : World) (program : Program) (input_files : list string)
    (st : Interp) : Outcome * Program * Interp :=
  let st := set_env_ (Environment.write (Environment.in_globals "ARGC")
                        (AWKValue.NUMBER (to_double (Z.of_nat (S (length input_files)))))
                        (env_ st)) st in
  match run_rules w program input_files st with
  | (Normal, program, st)
  | (Throw (ExitException _), program, st) => (Normal, program, cleanup_io st)
  | thrown => thrown
  end.

(** How the process ends. *)
Inductive ProcessEnd :=
| returned (status : Z)
| terminated.

(** The end of [main] for a program that parsed: the interpreter is
    run and [main] returns 0; an exception derived from
    [std::exception] that leaves [run] is caught, its text is printed
    on the standard error stream and [main] returns 1; a control flow
    exception that leaves [run] is no [std::exception] and ends the
    process in [std::terminate]. *)
Definition main (w : World) (program : Program) (input_files : list string)
    (st : Interp) : ProcessEnd * Interp :=
  match run w program input_files st with
  | (Normal, _, st) => (returned 0, st)
  | (Raise what, _, st) => (returned 1, write_error ("awk: " ++ what ++ newline) st)
  | (Throw _, _, st) => (terminated, st)
  end.

End Interpreter.

(** The interpreter after its constructor. *)
Definition new_Interp : Interp :=
  {| env_ := Environment.init_builtins;
     current_record_ := "";
     fields_ := [];
     fields_dirty_ := false;
     record_dirty_ := false;
     field0_ := AWKValue.UNINITIALIZED;
     empty_field_ := AWKValue.UNINITIALIZED;
     field_values_ := [];
     field_values_valid_ := [];
     dummy_ := AWKValue.UNINITIALIZED;
     output_ := "";
     error_ := "";
     special_vars_dirty_ := true;
     cached_ := {| cached_rs_ := ""; cached_fs_ := ""; cached_ofs_ := "";
                   cached_ors_ := ""; cached_ofmt_ := ""; cached_fpat_ := "";
                   cached_subsep_ := "" |};
     history_ := [] |}.

(** ** A host and an engine to run the model on *)

(** The conversions as compilers for x86-64 produce them at run time,
    with [cvttsd2si]: an [int] or [long long] out of range is the least
    value of the type; a number below 2^63 converted to [size_t] is
    converted as a [long long] and read modulo 2^64, so a negative
    number above -2^63 wraps and one below gives 2^63; a number from
    2^64 on gives 0.  The libc entries stand for a libc that reads no
    number and prints nothing; none of the runs below reaches them. *)
Definition x86_64 : Host :=
  {| strtod := fun _ => 0%Q;
     strtoll := fun _ _ => 0;
     snprintf_double := fun _ _ => "";
     open_error := fun _ => "No such file or directory";
     convert_out_of_range := fun T d =>
       match T with
       | T_size_t =>
           if trunc d <? 0 then
             if - 2 ^ 63 <=? trunc d then trunc d mod 2 ^ 64 else 2 ^ 63
           else 0
       | _ => int_lo T
       end |}.

(** An engine for the patterns that are plain text: a pattern of letters
    and digits matches its first occurrence.  Other patterns, and
    matching without regard to case, are refused. *)
Definition is_alnum (c : ascii) : bool :=
  let n := nat_of_ascii c in
  ((48 <=? n) && (n <=? 57) || (65 <=? n) && (n <=? 90)
   || (97 <=? n) && (n <=? 122))%nat.

Fixpoint all_alnum (s : string) : bool :=
  match s with
  | EmptyString => true
  | String c r => is_alnum c && all_alnum r
  end.

Definition literal_engine : RegexLib :=
  {| regex := string;
     regex_compile := fun pattern icase =>
       if icase || negb (all_alnum pattern) || str_empty pattern
       then inr "unsupported pattern"
       else inl pattern;
     regex_search_raw := fun re fl before s =>
       if match_continuous fl then
         if String.prefix re s then Some (O, String.length re, []) else None
       else
         match String.index 0 re s with
         | Some pos => Some (pos, String.length re, [])
         | None => None
         end |}.

(** An engine for plain text that can be anchored: the pattern [^text]
    matches [text] at the first position of the range that is
    searched, and only when the search is not told that a character
    precedes the range ([match_prev_avail]), as [std::regex] has it
    for a pattern that is not multiline. *)
Definition anchored_engine : RegexLib :=
  {| regex := bool * string;
     regex_compile := fun pattern icase =>
       let '(anchored, text) :=
         match pattern with
         | String "^" text => (true, text)
         | _ => (false, pattern)
         end in
       if icase || negb (all_alnum text) || str_empty text
       then inr "unsupported pattern"
       else inl (anchored, text);
     regex_search_raw := fun re fl before s =>
       let '(anchored, text) := re in
       if anchored then
         if match_prev_avail fl then None
         else if String.prefix text s then Some (O, String.length text, [])
         else None
       else if match_continuous fl then
         if String.prefix text s then Some (O, String.length text, []) else None
       else
         match String.index 0 text s with
         | Some pos => Some (pos, String.length text, [])
         | None => None
         end |}.

(** No function beyond the embedded built-ins. *)
Definition no_library : Library :=
  {| library_call := fun _ _ _ => None |}.


(** ** Programs, inputs and states to run the model on *)

Definition lit (s : string) : Expr := LiteralExpr (inr s).
Definition num (n : Z) : Expr := LiteralExpr (inl (inject_Z n)).

Definition special (ty : PatternType) : Pattern :=
  {| type := ty; expr := None; range_end := None; range_active := false |}.

Definition rule (p : Pattern) (a : Stmt) : Rule :=
  {| pattern := p; action := Some a |}.

(** [BEGIN { exit } END { print "end" }] *)
Definition exit_in_BEGIN : Program :=
  {| rules := [rule (special BEGIN) (ExitStmt None);
               rule (special END) (PrintStmt [lit "end"])] |}.


(** [{ nextfile } ENDFILE { print "endfile" }] *)
Definition nextfile_then_ENDFILE : Program :=
  {| rules := [rule (special EMPTY) NextfileStmt;
               rule (special ENDFILE) (PrintStmt [lit "endfile"])] |}.

(** [{ print } ENDFILE { print "endfile" } END { print "end" }] *)
Definition print_all : Program :=
  {| rules := [rule (special EMPTY) (PrintStmt []);
               rule (special ENDFILE) (PrintStmt [lit "endfile"]);
               rule (special END) (PrintStmt [lit "end"])] |}.

(** [/BEGIN/,/END/ { print }] *)
Definition range_BEGIN_END : Pattern :=
  {| type := RANGE; expr := Some (RegexExpr "BEGIN");
     range_end := Some (RegexExpr "END"); range_active := false |}.

Definition print_range : Program :=
  {| rules := [rule range_BEGIN_END (PrintStmt [])] |}.

(** No file, nothing on the standard input. *)
Definition no_input : World := {| files := ∅; stdin := "" |}.

(** One file [f] that holds the line [a b]. *)
Definition one_file : World :=
  {| files := {[ "f" := "a b" ++ newline ]}; stdin := "" |}.

(** The input of the range scenario on the standard input. *)
Definition range_input : World :=
  {| files := ∅;
     stdin := "before" ++ newline ++ "BEGIN" ++ newline ++ "x" ++ newline
              ++ "y" ++ newline ++ "END" ++ newline ++ "after" ++ newline |}.

(** The state in which [run] starts the rules: ARGC is set. *)
Definition with_ARGC (input_files : list string) (st : Interp) : Interp :=
  set_env_ (Environment.write (Environment.in_globals "ARGC")
              (AWKValue.NUMBER (to_double (Z.of_nat (S (length input_files)))))
              (env_ st)) st.

(** The state in which [process_file] starts the BEGINFILE rules of a
    file it could open. *)
Definition file_opened (filename : string) (st : Interp) : Interp :=
  env_set "FNR" (AWKValue.NUMBER 0)
    (env_set "FILENAME" (AWKValue.STRING filename) (log (EvOpen filename) st)).

(** The state in which the record loop starts on the standard input. *)
Definition stdin_opened (st : Interp) : Interp :=
  env_set "FILENAME" (AWKValue.STRING "") st.

(** What the claim on exit asks of the history of a run: every END rule
    with an action was entered, and the streams were closed after it. *)
Definition END_rules_ran_before_cleanup (program : Program) (final : Interp)
    : Prop :=
  forall i r a,
    rules program !! i = Some r -> type (pattern r) = END -> action r = Some a ->
    exists h1 h2, history_ final = (h1 ++ EvRule END i :: h2)%list /\ In EvCleanup h2.

(** What the claim on ENDFILE asks of the history of a run over the
    files [input_files], all of which can be opened: after a file is
    opened every ENDFILE rule with an action is entered before the next
    file is opened or the run ends. *)
Definition ENDFILE_rules_ran_for (program : Program) (filename : string)
    (final : Interp) : Prop :=
  forall i r a,
    rules program !! i = Some r -> type (pattern r) = ENDFILE ->
    action r = Some a ->
    exists h1 h2 h3,
      history_ final = (h1 ++ EvOpen filename :: h2 ++ EvRule ENDFILE i :: h3)%list
      /\ (forall f, ~ In (EvOpen f) h2).

(** The validity flags of the cached field values reach no further than
    the fields: [parse_fields] clears them all, and [get_field] sets one
    only after it has made the field exist. *)
Definition valid_within_fields (st : Interp) : Prop :=
  Forall (eq false) (drop (length (fields_ st)) (field_values_valid_ st)).

(** The record [a b], split by the default FS. *)
Definition record_a_b {host : Host} {engine : RegexLib} : Interp :=
  set_record "a b" new_Interp.

(** ** Definitions the statements on assignment use *)

Section AssignmentDefinitions.
Context {host : Host} {engine : RegexLib} {library : Library}.

(** The general path of an assignment to a variable, as [evaluate]
    takes it. *)
Definition assign_variable_general (x : string) (op : TokenType) (e : Expr)
    (st : Interp) : AWKValue.t * Interp :=
  let '(value, st) := evaluate e st in
  let '(r, st) :=
    let '(r, env) := Environment.get_variable x (env_ st) in
    (ref_var r, set_env_ env st) in
  let st := write_ref r (assign_op op (read_ref r st) value) st in
  (read_ref r st, st).

(** A reference that reads back what is written through it. *)
Definition holds_writes (r : Environment.ref) (env : Environment.t) : Prop :=
  forall v, Environment.read r (Environment.write r v env) = v.

(** A value after texts were appended to it one after the other. *)
Fixpoint append_texts (v : AWKValue.t) (ss : list string) : AWKValue.t :=
  match ss with
  | [] => v
  | s :: ss' => append_texts (AWKValue.append_string v s) ss'
  end.

End AssignmentDefinitions.
(** ** Definitions the further statements use *)

(** The value a variable has: what a read through the reference of
    [get_variable] gives. *)
Definition value_of (name : string) (env : Environment.t) : AWKValue.t :=
  let '(r, env) := Environment.get_variable name env in Environment.read r env.

(** A part of the interpreter state that the variables, the cache of
    the special variables and the error stream are no part of. *)
Definition env_frame {A} (f : Interp -> A) : Prop :=
  (forall e st, f (set_env_ e st) = f st)
  /\ (forall c st, f (set_cached_ c st) = f st)
  /\ (forall b st, f (set_special_vars_dirty_ b st) = f st)
  /\ (forall m st, f (set_error_ m st) = f st).

(** The cache of field values serves the fields: the two vectors of the
    cache have one length, and a value marked valid is the strnum of
    the text the fields vector holds at its place. *)
Definition field_cache_coherent (st : Interp) : Prop :=
  length (field_values_ st) = length (field_values_valid_ st)
  /\ forall j, field_values_valid_ st !! j = Some true ->
       exists s, fields_ st !! j = Some s
                 /\ field_values_ st !! j = Some (AWKValue.strnum s).

(** A part of the state that splitting a record into fields changes
    at most through the validity flags of the cached values. *)
Definition parse_frame {A} (f : Interp -> A) : Prop :=
  env_frame f
  /\ (forall x st, f (set_fields_ x st) = f st)
  /\ (forall b st, f (set_fields_dirty_ b st) = f st)
  /\ (forall b st, f (set_record_dirty_ b st) = f st).

(** Whether a character occurs in a text. *)
Fixpoint has_char (c : ascii) (s : string) : bool :=
  match s with
  | EmptyString => false
  | String d r => Ascii.eqb d c || has_char c r
  end.

(** A field as the default splitting yields it: not empty, and free of
    white space. *)
Fixpoint no_space (s : string) : bool :=
  match s with
  | EmptyString => true
  | String c r => negb (isspace c) && no_space r
  end.

Definition is_word (f : string) : Prop := str_empty f = false /\ no_space f = true.


(** States to run the field functions on: the interpreter after the
    special variables were cached, with the separators it is
    constructed with, and with FS and OFS set to a comma. *)
Definition separators_cached {host : Host} : Interp :=
  refresh_special_var_cache new_Interp.

Definition comma_separated {host : Host} : Interp :=
  refresh_special_var_cache
    (env_set "OFS" (AWKValue.STRING ",") (env_set "FS" (AWKValue.STRING ",") new_Interp)).


(** What is left of a stream: the characters, and the end. *)
Definition remaining (input : istream) : nat :=
  (String.length (buffer input) + if good input then 1 else 0)%nat.

(** A replacement text without the characters that sub, gsub or the
    formatting of the regex library read as more than themselves. *)
Definition plain_char (c : ascii) : bool :=
  negb (Ascii.eqb c "\" || Ascii.eqb c "&" || Ascii.eqb c "$").

Fixpoint plain_text (s : string) : bool :=
  match s with
  | EmptyString => true
  | String c r => plain_char c && plain_text r
  end.


(** A regex of the engine for plain text. *)
Definition literal (s : string) : @regex literal_engine := s.

(** A statement without break, continue, next, nextfile and return. *)
Fixpoint jump_free (s : Stmt) : bool :=
  match s with
  | BlockStmt statements => forallb jump_free statements
  | IfStmt _ then_branch else_branch =>
      jump_free then_branch
      && match else_branch with
         | Some else_branch => jump_free else_branch
         | None => true
         end
  | BreakStmt | ContinueStmt | NextStmt | NextfileStmt | ReturnStmt _ => false
  | ExprStmt _ | PrintStmt _ | ExitStmt _ => true
  end.

Definition rule_jump_free (r : Rule) : bool :=
  match action r with
  | Some a => jump_free a
  | None => true
  end.

Definition program_jump_free (program : Program) : bool :=
  forallb rule_jump_free (rules program).

(** An outcome that [run] takes for the end of the program. *)
Definition normal_or_exit (o : Outcome) : Prop :=
  o = Normal \/ exists status, o = Throw (ExitException status).

(** The rules come back from a record with their actions, and with
    their patterns changed in the range flag at most. *)
Definition same_rule (r r' : Rule) : Prop :=
  action r' = action r
  /\ type (pattern r') = type (pattern r)
  /\ expr (pattern r') = expr (pattern r)
  /\ range_end (pattern r') = range_end (pattern r)
  /\ (type (pattern r) <> RANGE -> range_active (pattern r') = range_active (pattern r)).

(** The message of [process_file] for a file it cannot open. *)
Definition cannot_open {host : Host} (filename : string) : string :=
  "awk: can't open file " ++ filename ++ ": " ++ open_error filename ++ newline.

(** [BEGIN { next }] *)
Definition next_in_BEGIN : Program :=
  {| rules := [rule (special BEGIN) NextStmt] |}.

(** A part of the state that reading variables, setting NF and
    splitting a record leave alone. *)
Definition reads_frame {host : Host} {engine : RegexLib} {library : Library}
    {A} (f : Interp -> A) : Prop :=
  (forall name st, f (env_get name st).2 = f st)
  /\ (forall v st, f (env_set "NF" v st) = f st)
  /\ (forall c st, f (set_cached_ c st) = f st)
  /\ (forall b st, f (set_special_vars_dirty_ b st) = f st)
  /\ (forall m st, f (set_error_ m st) = f st)
  /\ (forall x st, f (set_fields_ x st) = f st)
  /\ (forall b st, f (set_fields_dirty_ b st) = f st)
  /\ (forall b st, f (set_record_dirty_ b st) = f st)
  /\ (forall x st, f (set_field_values_valid_ x st) = f st).

(** The records that line mode reads from a text: the lines that a
    newline ends, and a last line that the end of the text ends. *)
Fixpoint line_count_from (pending : bool) (s : string) : nat :=
  match s with
  | EmptyString => if pending then 1 else 0
  | String c r =>
      if Ascii.eqb c "010" then S (line_count_from false r)
      else line_count_from true r
  end.

Definition line_count (s : string) : nat := line_count_from false s.

(** The interpreter reads its input in line mode: RS is a newline, and
    so is the cached text of RS when the cache is up to date. *)
Definition line_mode {host : Host} (st : Interp) : Prop :=
  AWKValue.to_string (value_of "RS" (env_ st)) = newline
  /\ (special_vars_dirty_ st = false -> cached_rs_ (cached_ st) = newline).

(** The records that line mode has still to read from a stream. *)
Definition records_left (input : istream) : nat :=
  if good input then line_count (buffer input) else 0%nat.

(** A program without main rules. *)
Definition only_special_rules (program : Program) : Prop :=
  Forall (fun r => is_special (type (pattern r)) = true) (rules program).

(** The steps that [parse_fields] is made of. *)
Inductive parse_steps {host : Host} {engine : RegexLib} {library : Library}
    : Interp -> Interp -> Prop :=
| parse_steps_refl st : parse_steps st st
| parse_steps_trans st1 st2 st3 :
    parse_steps st1 st2 -> parse_steps st2 st3 -> parse_steps st1 st3
| parse_steps_env_get name st : parse_steps st (env_get name st).2
| parse_steps_refresh st : parse_steps st (refresh_special_var_cache st)
| parse_steps_set_NF v st : parse_steps st (env_set "NF" v st)
| parse_steps_error m st : parse_steps st (set_error_ m st)
| parse_steps_fields x st : parse_steps st (set_fields_ x st)
| parse_steps_fields_dirty b st : parse_steps st (set_fields_dirty_ b st)
| parse_steps_record_dirty st : parse_steps st (set_record_dirty_ false st)
| parse_steps_flags x st : parse_steps st (set_field_values_valid_ x st).

(** [END { print NR }] *)
Definition print_NR_at_END : Program :=
  {| rules := [rule (special END) (PrintStmt [VariableExpr "NR"])] |}.

(** An expression built from literals, variables, the arithmetic,
    comparison and logical operators, the conditional operator,
    concatenation and matches: no field, no assignment, no increment
    or decrement, no call. *)
Fixpoint pure (e : Expr) : bool :=
  match e with
  | LiteralExpr _ | RegexExpr _ | VariableExpr _ => true
  | BinaryExpr lhs _ rhs => pure lhs && pure rhs
  | UnaryExpr op operand _ =>
      match op with
      | INCREMENT | DECREMENT => false
      | _ => pure operand
      end
  | TernaryExpr condition then_expr else_expr =>
      pure condition && pure then_expr && pure else_expr
  | MatchExpr string_ regex_ _ => pure string_ && pure regex_
  | ConcatExpr parts => forallb pure parts
  | FieldExpr _ | AssignExpr _ _ _ | CallExpr _ _ => false
  end.

(** Two states that differ at most in variables that were created
    uninitialized and in what was written to the error stream. *)
Definition only_looked_up (st st' : Interp) : Prop :=
  (forall r, Environment.read r (env_ st') = Environment.read r (env_ st))
  /\ set_error_ (error_ st) (set_env_ (env_ st) st') = st.

(** The assignment operators of the embedded part. *)
Definition is_assignment (op : TokenType) : bool :=
  match op with
  | ASSIGN | PLUS_ASSIGN | MINUS_ASSIGN | STAR_ASSIGN => true
  | _ => false
  end.

(** The assignment [x = x e1 e2 ...]. *)
Definition append_to (x : string) (es : list Expr) : Expr :=
  AssignExpr (VariableExpr x) ASSIGN (ConcatExpr (VariableExpr x :: es)).

(** The regex of the anchored engine for the pattern [^a]. *)
Definition anchored_a : @regex anchored_engine := (true, "a").

(** The step of the operators [++] and [--]. *)
Definition increment_step (op : TokenType) : Z :=
  match op with
  | INCREMENT => 1
  | DECREMENT => -1
  | _ => 0
  end.

(** The value a variable or a field has after [++] or [--]. *)
Definition incremented {host : Host} (op : TokenType) (old : AWKValue.t) : AWKValue.t :=
  AWKValue.NUMBER (round_double (AWKValue.to_number old + inject_Z (increment_step op))).

(** * Properties *)

(** ** Strings *)

Lemma append_cons (c : ascii) (a b : string) :
  String c a ++ b = String c (a ++ b).
Proof. reflexivity. Qed.

Lemma append_nil_l (s : string) : "" ++ s = s.
Proof. reflexivity. Qed.

Lemma append_nil_r (s : string) : s ++ "" = s.
Proof.
  induction s as [|c s IH]; [reflexivity|].
  now rewrite append_cons, IH.
Qed.

Lemma append_assoc (a b c : string) : (a ++ b) ++ c = a ++ (b ++ c).
Proof.
  induction a as [|x a IH]; [reflexivity|].
  now rewrite !append_cons, IH.
Qed.

Lemma str_take_drop (n : nat) (s : string) : str_take n s ++ str_drop n s = s.
Proof.
  revert s; induction n as [|n IH]; intros [|c s]; try reflexivity.
  cbn [str_take str_drop]. now rewrite append_cons, IH.
Qed.

Lemma length_append (a b : string) :
  String.length (a ++ b) = (String.length a + String.length b)%nat.
Proof.
  induction a as [|x a IH]; [reflexivity|].
  rewrite append_cons. cbn [String.length]. now rewrite IH.
Qed.

Lemma length_str_drop (n : nat) (s : string) :
  String.length (str_drop n s) = (String.length s - n)%nat.
Proof.
  revert s; induction n as [|n IH]; intros [|c s]; cbn [str_drop String.length];
    auto.
Qed.

Lemma str_empty_true (s : string) : str_empty s = true -> s = "".
Proof. now destruct s. Qed.

(** ** Matches tile the text they were found in *)

Section RegexFacts.
Context {engine : RegexLib}.

Lemma regex_search_split re fl before s m :
  regex_search re fl before s = Some m ->
  prefix m ++ matched m ++ suffix m = s.
Proof.
  unfold regex_search.
  destruct (regex_search_raw re fl before s) as [[[pos len] gs]|]; [|discriminate].
  destruct (match_not_null fl && _); [discriminate|].
  intros [= <-]; simpl.
  now rewrite str_take_drop, str_take_drop.
Qed.

Lemma format_matched m : format m "$&" = matched m.
Proof. cbn. apply append_nil_r. Qed.

(** Replacing every match by itself gives back what the matches were
    cut from. *)
Lemma replace_all_self_next fuel re fl before m :
  replace_all "$&" (regex_iterator_next fuel re fl before m) (suffix m)
  = suffix m.
Proof.
  revert fl before m; induction fuel as [|fuel IH]; intros fl before m;
    [reflexivity|].
  cbn [regex_iterator_next].
  destruct (str_empty (matched m)).
  - destruct (suffix m) as [|c rest'] eqn:Hsuf; [reflexivity|].
    destruct (regex_search re _ _ (String c rest')) as [m'|] eqn:Hc.
    + cbn [replace_all]. rewrite IH, format_matched.
      now apply regex_search_split in Hc.
    + destruct (regex_search re _ _ rest') as [m'|] eqn:Hn; [|reflexivity].
      cbn [replace_all prefix matched suffix].
      pose proof (IH {| match_not_null := match_not_null fl;
                        match_continuous := match_continuous fl;
                        match_prev_avail := true |}
                    (before ++ prefix m ++ matched m)
                    {| prefix := String c (prefix m'); matched := matched m';
                       suffix := suffix m'; groups := groups m' |}) as IH'.
      cbn [suffix] in IH'. rewrite IH'.
      apply regex_search_split in Hn.
      rewrite format_matched. cbn [matched]. now rewrite append_cons, Hn.
  - destruct (regex_search re _ _ (suffix m)) as [m'|] eqn:Hn; [|reflexivity].
    cbn [replace_all]. rewrite IH, format_matched.
    now apply regex_search_split in Hn.
Qed.

Lemma regex_replace_self re s : regex_replace s re "$&" false = s.
Proof.
  unfold regex_replace, regex_iterator.
  destruct (regex_search re match_default "" s) as [m|] eqn:Hm; [|reflexivity].
  cbn [replace_all]. rewrite replace_all_self_next, format_matched.
  now apply regex_search_split in Hm.
Qed.

End RegexFacts.

(** ** Variables keep their values when another is looked up *)

Lemma read_global_entry r name env :
  Environment.read r (Environment.global_entry name env).2 = Environment.read r env.
Proof.
  unfold Environment.global_entry; cbn [snd].
  destruct r as [i n|n]; cbn [Environment.read Environment.globals_ Environment.scope_stack_];
    [reflexivity|].
  destruct (Environment.globals_ env !! name) eqn:Hn; [reflexivity|].
  destruct (decide (name = n)) as [->|Hne].
  - now rewrite lookup_insert_eq, Hn.
  - now rewrite lookup_insert_ne.
Qed.

Lemma read_get_variable r name env :
  Environment.read r (Environment.get_variable name env).2 = Environment.read r env.
Proof.
  unfold Environment.get_variable.
  destruct (Environment.find_scope name _); [reflexivity|].
  destruct (str_find "::" name); [|apply read_global_entry].
  destruct (Environment.find_scope _ _); [reflexivity|].
  destruct (_ && _); [reflexivity | apply read_global_entry].
Qed.

Section SubstitutionFacts.
Context {host : Host} {engine : RegexLib} {library : Library}.

Lemma env_get_read r name st :
  Environment.read r (env_ (env_get name st).2) = Environment.read r (env_ st).
Proof.
  unfold env_get.
  pose proof (read_get_variable r name (env_ st)) as Hr.
  destruct (Environment.get_variable name (env_ st)) as [r' env]; cbn in *.
  exact Hr.
Qed.

Lemma get_cached_regex_read r pattern st :
  Environment.read r (env_ (get_cached_regex pattern st).2)
  = Environment.read r (env_ st).
Proof.
  unfold get_cached_regex.
  pose proof (env_get_read r "IGNORECASE" st) as Hr.
  destruct (env_get "IGNORECASE" st) as [ic st']; cbn in *. exact Hr.
Qed.

(** gsub with the replacement "&" never writes back: the state after
    the call is the state after the regex was looked up, and the count
    is what the counting loop found. *)
Lemma substitute_gsub_self pattern target_str write_back st :
  substitute "gsub" pattern "&" target_str write_back st =
  match get_cached_regex pattern st with
  | (inl re, st') =>
      (AWKValue.NUMBER (to_double (count_matches re target_str)), st')
  | (inr what, st') =>
      (AWKValue.NUMBER 0,
       write_error ("awk: gsub: invalid regex '" ++ pattern ++ "': "
                    ++ what ++ newline) st')
  end.
Proof.
  unfold substitute.
  destruct (get_cached_regex pattern st) as [[re|what] st']; [|reflexivity].
  change (convert_awk_replacement "&" false) with "$&".
  change (String.eqb "gsub" "sub") with false. cbv iota.
  rewrite regex_replace_self, String.eqb_refl. reflexivity.
Qed.

Lemma evaluate_sub_gsub_var function_name a0 a1 name st :
  (String.eqb function_name "sub" || String.eqb function_name "gsub") = true ->
  evaluate (CallExpr function_name [a0; a1; VariableExpr name]) st =
  let '(p, st) := evaluate a0 st in
  let '(r, st) := evaluate a1 st in
  let '(target_var, env) := Environment.get_variable name (env_ st) in
  let st := set_env_ env st in
  substitute function_name (AWKValue.to_string p) (AWKValue.to_string r)
    (AWKValue.to_string (Environment.read target_var (env_ st)))
    (fun result => write_ref (ref_var target_var) (AWKValue.STRING result)) st.
Proof. intros Hn. cbn [evaluate]. rewrite Hn. reflexivity. Qed.

End SubstitutionFacts.


(** ** Taking and dropping characters *)

Lemma str_take_count_nat (n : Z) (s : string) :
  0 <= n -> str_take_count n s = str_take (Z.to_nat n) s.
Proof.
  revert n; induction s as [|c s IH]; intros n Hn.
  - now destruct (Z.to_nat n).
  - cbn [str_take_count]. destruct (0 <? n) eqn:Hpos.
    + apply Z.ltb_lt in Hpos.
      replace (Z.to_nat n) with (S (Z.to_nat (n - 1))) by lia.
      cbn [str_take]. now rewrite IH by lia.
    + apply Z.ltb_ge in Hpos. now replace n with 0 by lia.
Qed.

Lemma substring_take_drop (n m : nat) (s : string) :
  String.substring n m s = str_take m (str_drop n s).
Proof.
  revert m s; induction n as [|n IH]; intros m s.
  - cbn [str_drop]. revert s; induction m as [|m IHm]; intros [|c s];
      cbn [String.substring str_take]; try reflexivity.
    now rewrite IHm.
  - destruct s as [|c s]; cbn [String.substring str_drop].
    + now destruct m.
    + apply IH.
Qed.

Lemma length_str_take (n : nat) (s : string) :
  String.length (str_take n s) = Nat.min n (String.length s).
Proof.
  revert s; induction n as [|n IH]; intros [|c s];
    cbn [str_take String.length]; try reflexivity.
  now rewrite IH.
Qed.

Lemma str_drop_all (n : nat) (s : string) :
  (String.length s <= n)%nat -> str_drop n s = "".
Proof.
  revert s; induction n as [|n IH]; intros [|c s] Hl;
    cbn [str_drop String.length] in *; try reflexivity; try lia.
  apply IH. lia.
Qed.

Lemma str_take_all (n : nat) (s : string) :
  (String.length s <= n)%nat -> str_take n s = s.
Proof.
  revert s; induction n as [|n IH]; intros [|c s] Hl;
    cbn [str_take String.length] in *; try reflexivity; try lia.
  f_equal. apply IH. lia.
Qed.

(** ** A variable holds what was last written to it *)

Lemma find_scope_alter name v stack i :
  Environment.find_scope name stack = Some i ->
  Environment.find_scope name (alter (<[name := v]>) i stack) = Some i
  /\ (alter (<[name := v]>) i stack !! i ≫= (.!! name)) = Some v.
Proof.
  revert i; induction stack as [|sc rest IH]; intros i; [discriminate|].
  cbn [Environment.find_scope].
  destruct (Environment.find_scope name rest) as [k|] eqn:Hrest.
  - intros [= <-]. destruct (IH k eq_refl) as [Hf Hl].
    cbn [alter list_alter Environment.find_scope]. now rewrite Hf.
  - destruct (bool_decide (is_Some (sc !! name))); [|discriminate].
    intros [= <-]. cbn [alter list_alter Environment.find_scope].
    rewrite Hrest. cbn. rewrite lookup_insert_eq.
    rewrite bool_decide_eq_true_2 by eauto. now split.
Qed.

Lemma get_variable_write_read name v env :
  str_find "::" name = None ->
  let '(r, env1) := Environment.get_variable name env in
  let '(r', env2) := Environment.get_variable name (Environment.write r v env1) in
  Environment.read r' env2 = v.
Proof.
  intros Hsep. unfold Environment.get_variable. rewrite Hsep.
  destruct (Environment.find_scope name (Environment.scope_stack_ env))
    as [i|] eqn:Hfind.
  - cbn [Environment.write Environment.scope_stack_].
    destruct (find_scope_alter name v _ i Hfind) as [Hf Hl].
    rewrite Hf. cbn [Environment.read Environment.scope_stack_]. now rewrite Hl.
  - unfold Environment.global_entry.
    cbn [Environment.write Environment.scope_stack_ Environment.globals_].
    rewrite Hfind. cbn [Environment.globals_ Environment.read].
    now rewrite !lookup_insert_eq.
Qed.

Section FieldFacts.
Context {host : Host} {engine : RegexLib} {library : Library}.

Lemma env_get_env_set name v st :
  str_find "::" name = None -> (env_get name (env_set name v st)).1 = v.
Proof.
  intros Hsep. unfold env_get, env_set.
  pose proof (get_variable_write_read name v (env_ st) Hsep) as Hr.
  destruct (Environment.get_variable name (env_ st)) as [r env1].
  cbn [env_ set_env_].
  destruct (Environment.get_variable name (Environment.write r v env1))
    as [r' env2].
  exact Hr.
Qed.

Lemma parse_fields_clean st : record_dirty_ st = false -> parse_fields st = st.
Proof. intros Hd. unfold parse_fields. now rewrite Hd. Qed.

Lemma fields_env_set name v st : fields_ (env_set name v st) = fields_ st.
Proof.
  unfold env_set. now destruct (Environment.get_variable name (env_ st)).
Qed.

Lemma length_resize {A} (n : nat) (d : A) (l : list A) :
  length (resize n d l) = n.
Proof. unfold resize. rewrite length_app, length_take, length_replicate. lia. Qed.

End FieldFacts.


(** ** The fields vector and the cache of field values *)

Section FieldSteps.
Context {host : Host} {engine : RegexLib} {library : Library}.

Lemma flags_clear_lookup (len : nat) (l : list bool) (j : nat) :
  Forall (eq false) (drop len l) -> (len <= j)%nat -> default false (l !! j) = false.
Proof.
  intros Hall Hj. destruct (l !! j) as [b|] eqn:Hl; [|reflexivity].
  rewrite Forall_lookup in Hall. symmetry. apply (Hall (j - len)%nat).
  rewrite lookup_drop. replace (len + (j - len))%nat with j by lia. exact Hl.
Qed.

Lemma flags_clear_resize (len n : nat) (l : list bool) :
  Forall (eq false) (drop len l) ->
  Forall (eq false) (drop len (resize n false l)).
Proof.
  intros Hall. rewrite Forall_lookup. intros k x. rewrite lookup_drop.
  unfold resize. intros Hk. apply lookup_app_Some in Hk as [Hk|[_ Hk]].
  - apply lookup_take_Some in Hk as [Hk _].
    rewrite Forall_lookup in Hall. apply (Hall k). now rewrite lookup_drop.
  - apply lookup_replicate in Hk as [-> _]. reflexivity.
Qed.

Lemma ensure_field_values_frame st :
  fields_ (ensure_field_values st) = fields_ st
  /\ env_ (ensure_field_values st) = env_ st
  /\ current_record_ (ensure_field_values st) = current_record_ st
  /\ (length (fields_ st) <= length (field_values_ (ensure_field_values st)))%nat
  /\ forall len, Forall (eq false) (drop len (field_values_valid_ st)) ->
       Forall (eq false) (drop len (field_values_valid_ (ensure_field_values st))).
Proof.
  unfold ensure_field_values.
  destruct (length (field_values_ st) <? length (fields_ st))%nat eqn:E.
  - cbn. rewrite length_resize. repeat split; try lia.
    intros len. apply flags_clear_resize.
  - apply Nat.ltb_ge in E. repeat split; auto.
Qed.

Lemma extend_fields_lookup_new n st j :
  (length (fields_ st) <= j < n)%nat ->
  fields_ (extend_fields n st) !! j = Some "".
Proof.
  intros Hj. unfold extend_fields. cbn [fields_ set_fields_].
  rewrite lookup_app_r by lia. apply lookup_replicate_2. lia.
Qed.

Lemma env_get_fst_env name st st' :
  env_ st = env_ st' -> (env_get name st).1 = (env_get name st').1.
Proof.
  intros He. unfold env_get. rewrite He.
  now destruct (Environment.get_variable name (env_ st')).
Qed.

Lemma set_NF_get st :
  (env_get "NF" (set_NF st)).1
  = AWKValue.NUMBER (to_double (Z.of_nat (length (fields_ st)))).
Proof. unfold set_NF. now apply env_get_env_set. Qed.

Lemma fields_set_NF st : fields_ (set_NF st) = fields_ st.
Proof. apply fields_env_set. Qed.

Lemma fields_invalidate n st :
  fields_ (invalidate_field_value n st) = fields_ st.
Proof. unfold invalidate_field_value. now destruct (_ <=? _)%nat. Qed.

Lemma parse_fields_dirty st :
  record_dirty_ st = true -> exists st', parse_fields st = finish_parse st'.
Proof.
  intros Hd. unfold parse_fields. rewrite Hd. cbv zeta. cbn [negb].
  destruct (get_cached_fpat _) as [fpat s1].
  destruct (negb (str_empty fpat)).
  - destruct (get_cached_regex fpat s1) as [re s2]. eexists. reflexivity.
  - destruct (get_cached_fs s1) as [fs s2]. eexists. reflexivity.
Qed.

Lemma finish_parse_NF st :
  (env_get "NF" (finish_parse st)).1
  = AWKValue.NUMBER (to_double (Z.of_nat (length (fields_ (finish_parse st))))).
Proof.
  unfold finish_parse.
  rewrite (env_get_fst_env "NF" _ (set_NF st)) by reflexivity.
  rewrite set_NF_get. cbn [fields_ set_fields_dirty_ set_record_dirty_].
  now rewrite fields_set_NF.
Qed.

Lemma set_field_NF_is_length (i : Z) (v : AWKValue.t) (st : Interp) :
  0 <= i ->
  (env_get "NF" (set_field i v st)).1
  = AWKValue.NUMBER (to_double (Z.of_nat (length (fields_ (set_field i v st))))).
Proof.
  intros Hi. unfold set_field.
  destruct (i =? 0) eqn:Hz.
  - destruct (parse_fields_dirty
                (set_record_dirty_ true
                   (set_current_record_ (AWKValue.to_string v) (parse_fields st)))
                eq_refl) as [st' ->].
    apply finish_parse_NF.
  - destruct (i <? 0) eqn:Hneg; [apply Z.ltb_lt in Hneg; lia|].
    cbv zeta. now rewrite set_NF_get, fields_set_NF.
Qed.

End FieldSteps.


(** ** Assignment *)

Section AssignFacts.
Context {host : Host} {engine : RegexLib} {library : Library}.

Lemma evaluate_append_shape x es st :
  evaluate (AssignExpr (VariableExpr x) ASSIGN (ConcatExpr (VariableExpr x :: es))) st
  = let '(r, env) := Environment.get_variable x (env_ st) in
    (AWKValue.UNINITIALIZED, append_parts (ref_var r) es (set_env_ env st)).
Proof.
  cbn [evaluate]. rewrite String.eqb_refl.
  destruct (Environment.get_variable x (env_ st)) as [r env]. reflexivity.
Qed.

Lemma evaluate_assign_variable_general x op e st :
  is_append_shape (VariableExpr x) op e = false ->
  evaluate (AssignExpr (VariableExpr x) op e) st = assign_variable_general x op e st.
Proof.
  intros Hs.
  destruct op; try reflexivity.
  destruct e as [| | | | | | | | | |parts]; try reflexivity.
  destruct parts as [|[] rest]; try reflexivity.
  cbn [is_append_shape] in Hs.
  unfold assign_variable_general. cbn [evaluate]. rewrite Hs. reflexivity.
Qed.

Lemma evaluate_assign_variable x op e st :
  is_append_shape (VariableExpr x) op e = false ->
  evaluate (AssignExpr (VariableExpr x) op e) st
  = let '(value, st) := evaluate e st in
    let '(r, env) := Environment.get_variable x (env_ st) in
    let st := set_env_ env st in
    let st := write_ref (ref_var r) (assign_op op (read_ref (ref_var r) st) value) st in
    (read_ref (ref_var r) st, st).
Proof.
  intros Hs. rewrite evaluate_assign_variable_general by exact Hs.
  unfold assign_variable_general.
  destruct (evaluate e st) as [value st0].
  now destruct (Environment.get_variable x (env_ st0)).
Qed.

Lemma read_write_scope name v stack i :
  Environment.find_scope name stack = Some i ->
  forall env, Environment.scope_stack_ env = stack ->
  Environment.read (Environment.in_scope i name)
    (Environment.write (Environment.in_scope i name) v env) = v.
Proof.
  intros Hf env <-. cbn [Environment.read Environment.write Environment.scope_stack_].
  destruct (find_scope_alter name v _ i Hf) as [_ Hl]. now rewrite Hl.
Qed.

Lemma read_write_get_variable x v env :
  let '(r, env1) := Environment.get_variable x env in
  Environment.read r (Environment.write r v env1) = v.
Proof.
  unfold Environment.get_variable.
  destruct (Environment.find_scope x (Environment.scope_stack_ env)) as [i|] eqn:Hx.
  { now apply (read_write_scope x v _ i Hx). }
  assert (Hg : forall n env0, let '(r, env1) := Environment.global_entry n env0 in
                 Environment.read r (Environment.write r v env1) = v).
  { intros n env0. cbn. now rewrite lookup_insert_eq. }
  destruct (str_find "::" x) as [sep|]; [|apply Hg].
  destruct (Environment.find_scope (str_drop (sep + 2) x) _) as [i|] eqn:Hu.
  { now apply (read_write_scope _ v _ i Hu). }
  destruct (_ && _); [|apply Hg].
  cbn. now rewrite lookup_insert_eq.
Qed.

Lemma holds_writes_write r w env :
  holds_writes r env -> holds_writes r (Environment.write r w env).
Proof.
  intros Hh v. destruct r as [i n|n];
    cbn [Environment.read Environment.write Environment.scope_stack_ Environment.globals_].
  - specialize (Hh (AWKValue.NUMBER 0)).
    cbn [Environment.read Environment.write Environment.scope_stack_] in Hh.
    rewrite list_lookup_alter_eq in Hh. rewrite !list_lookup_alter_eq.
    destruct (Environment.scope_stack_ env !! i) as [sc|]; [|cbn in Hh; discriminate Hh].
    cbn. now rewrite lookup_insert_eq.
  - now rewrite lookup_insert_eq.
Qed.

Lemma to_string_append_texts v ss :
  AWKValue.to_string (append_texts v ss)
  = AWKValue.to_string v ++ String.concat "" ss.
Proof.
  revert v; induction ss as [|s ss IH]; intros v; cbn [append_texts].
  - cbn. now rewrite append_nil_r.
  - rewrite IH. unfold AWKValue.append_string at 1.
    cbn [AWKValue.to_string AWKValue.to_string_fmt].
    rewrite append_assoc. f_equal.
    destruct ss; cbn [String.concat]; [now rewrite append_nil_r | reflexivity].
Qed.

Lemma append_parts_literals r ss st :
  holds_writes r (env_ st) ->
  Environment.read r (env_ (append_parts (ref_var r) (map lit ss) st))
  = append_texts (Environment.read r (env_ st)) ss.
Proof.
  revert st; induction ss as [|s ss IH]; intros st Hh; [reflexivity|].
  cbn [map append_parts evaluate lit append_texts].
  cbn [AWKValue.to_string AWKValue.to_string_fmt write_ref read_ref].
  rewrite IH.
  - cbn [env_ set_env_]. now rewrite Hh.
  - cbn [env_ set_env_]. now apply holds_writes_write.
Qed.

Lemma get_variable_holds_writes x env :
  holds_writes (Environment.get_variable x env).1 (Environment.get_variable x env).2.
Proof.
  intros v. pose proof (read_write_get_variable x v env) as Hr.
  now destruct (Environment.get_variable x env).
Qed.

Lemma record_dirty_env_set name v st :
  record_dirty_ (env_set name v st) = record_dirty_ st.
Proof. unfold env_set. now destruct (Environment.get_variable name (env_ st)). Qed.

Lemma parse_fields_not_dirty st : record_dirty_ (parse_fields st) = false.
Proof.
  destruct (record_dirty_ st) eqn:Hd.
  - destruct (parse_fields_dirty st Hd) as [st' ->]. reflexivity.
  - now rewrite parse_fields_clean.
Qed.

Lemma flag_clear_resize (n j : nat) (l : list bool) :
  default false (l !! j) = false -> default false (resize n false l !! j) = false.
Proof.
  intros Hl. unfold resize.
  destruct ((take n l ++ replicate (n - length l) false)%list !! j) as [b|] eqn:Hk;
    [|reflexivity].
  apply lookup_app_Some in Hk as [Hk|[_ Hk]].
  - apply lookup_take_Some in Hk as [Hk _]. now rewrite Hk in Hl.
  - now apply lookup_replicate in Hk as [-> _].
Qed.

(** What a field read yields right after the field was assigned. *)
Lemma read_field_set_field (index : Z) (v : AWKValue.t) (st : Interp) :
  0 < index ->
  (read_field index (set_field index v st)).1
  = AWKValue.STRNUM (AWKValue.to_string v).
Proof.
  intros Hpos. unfold set_field.
  destruct (index =? 0) eqn:Hz; [apply Z.eqb_eq in Hz; lia|].
  destruct (index <? 0) eqn:Hneg; [apply Z.ltb_lt in Hneg; lia|].
  cbv zeta.
  pose proof (parse_fields_not_dirty st) as Hclean.
  set (sa := parse_fields st) in *. set (n := Z.to_nat index).
  set (s := AWKValue.to_string v).
  set (fs := <[(n - 1)%nat := s]> (fields_ (extend_fields n sa))).
  set (sd := set_fields_dirty_ true (set_fields_ fs (extend_fields n sa))).
  set (sf := set_NF (invalidate_field_value n sd)).
  assert (Hn : (0 < n)%nat) by (subst n; lia).
  assert (Hfs_len : (n <= length fs)%nat).
  { subst fs. rewrite length_insert. unfold extend_fields.
    cbn [fields_ set_fields_]. rewrite length_app, length_replicate. lia. }
  assert (Hfs_idx : fs !! (n - 1)%nat = Some s).
  { subst fs. apply list_lookup_insert_eq. unfold extend_fields.
    cbn [fields_ set_fields_]. rewrite length_app, length_replicate. lia. }
  assert (Hf : fields_ sf = fs).
  { subst sf. rewrite fields_set_NF, fields_invalidate. reflexivity. }
  assert (Hd : record_dirty_ sf = false).
  { subst sf. unfold set_NF. rewrite record_dirty_env_set.
    unfold invalidate_field_value. destruct (_ <=? _)%nat; exact Hclean. }
  assert (Hflag : default false (field_values_valid_ sf !! (n - 1)%nat) = false).
  { subst sf. unfold set_NF, env_set.
    destruct (Environment.get_variable _ _) as [r env].
    cbn [field_values_valid_ set_env_]. unfold invalidate_field_value.
    destruct (n <=? length (field_values_valid_ sd))%nat eqn:E.
    - apply Nat.leb_le in E. cbn [field_values_valid_ set_field_values_valid_].
      rewrite list_lookup_insert_eq by lia. reflexivity.
    - apply Nat.leb_gt in E. rewrite lookup_ge_None_2 by lia. reflexivity. }
  unfold read_field, get_field. rewrite Hz, Hneg.
  rewrite (parse_fields_clean sf Hd). cbv zeta. fold n.
  set (sg := extend_fields n sf).
  assert (Hg : fields_ sg = fs /\ field_values_valid_ sg = field_values_valid_ sf).
  { subst sg. unfold extend_fields. cbn [fields_ set_fields_ field_values_valid_].
    rewrite Hf. replace (n - length fs)%nat with 0%nat by lia.
    cbn [replicate]. now rewrite app_nil_r. }
  destruct Hg as [Hgf Hgv].
  destruct (ensure_field_values_frame sg) as (Hef & _ & _ & Hel & _).
  assert (Heflag : default false
                     (field_values_valid_ (ensure_field_values sg) !! (n - 1)%nat)
                   = false).
  { unfold ensure_field_values. destruct (_ <? _)%nat.
    - cbn [field_values_valid_ set_field_values_valid_].
      apply flag_clear_resize. now rewrite Hgv.
    - now rewrite Hgv. }
  unfold cache_field_value. rewrite Heflag. cbn [negb fst read_ref].
  cbn [field_values_ set_field_values_valid_ set_field_values_].
  rewrite list_lookup_insert_eq by (rewrite Hgf in Hel; lia).
  cbn [default]. rewrite Hef, Hgf, Hfs_idx. reflexivity.
Qed.

Lemma evaluate_assign_field ie e' st :
  evaluate (AssignExpr (FieldExpr ie) ASSIGN e') st
  = let '(value, st1) := evaluate e' st in
    let '(iv, st2) := evaluate ie st1 in
    let index := static_cast T_int (AWKValue.to_number iv) in
    read_field index (set_field index value st2).
Proof.
  transitivity
    (let '(value, st1) := evaluate e' st in
     let '(index, st2) :=
       let '(v, st) := evaluate ie st1 in
       (static_cast T_int (AWKValue.to_number v), st) in
     read_field index (set_field index value st2)).
  - reflexivity.
  - destruct (evaluate e' st) as [value st1].
    now destruct (evaluate ie st1) as [iv st2].
Qed.

End AssignFacts.

(** ** Scopes and references *)

(** The scopes that hold [other] are the same after a value is stored
    under a name that the scope already holds, or under another name. *)
Lemma find_scope_alter_other name other v stack i :
  (other <> name \/ is_Some (stack !! i ≫= (.!! name))) ->
  Environment.find_scope other (alter (<[name := v]>) i stack)
  = Environment.find_scope other stack.
Proof.
  revert i; induction stack as [|sc rest IH]; intros i Hor; [reflexivity|].
  destruct i as [|i]; cbn [alter list_alter Environment.find_scope].
  - destruct (Environment.find_scope other rest); [reflexivity|].
    f_equal.
    destruct (decide (other = name)) as [->|Hne].
    + destruct Hor as [|Hs]; [congruence|]. cbn in Hs.
      rewrite lookup_insert_eq.
      rewrite !bool_decide_eq_true_2; eauto.
    + rewrite lookup_insert_ne by congruence. reflexivity.
  - fold (alter (<[name := v]>) i rest). rewrite IH; [reflexivity|].
    destruct Hor as [|Hs]; [now left|right; exact Hs].
Qed.

Lemma value_of_unqualified name env :
  str_find "::" name = None ->
  value_of name env
  = match Environment.find_scope name (Environment.scope_stack_ env) with
    | Some i => default AWKValue.UNINITIALIZED
                  (Environment.scope_stack_ env !! i ≫= (.!! name))
    | None => default AWKValue.UNINITIALIZED (Environment.globals_ env !! name)
    end.
Proof.
  intros Hsep. unfold value_of, Environment.get_variable. rewrite Hsep.
  destruct (Environment.find_scope name _); [reflexivity|].
  unfold Environment.global_entry. cbn [Environment.read Environment.globals_].
  destruct (Environment.globals_ env !! name) eqn:Hn; [now rewrite Hn|].
  now rewrite lookup_insert_eq.
Qed.

Lemma str_drop_shorter n s :
  (0 < n)%nat -> s <> "" -> str_drop n s <> s.
Proof.
  intros Hn Hs Heq. pose proof (length_str_drop n s) as Hl.
  rewrite Heq in Hl. destruct s; [congruence|]. cbn [String.length] in Hl. lia.
Qed.

Lemma find_scope_app_last name stack sc :
  is_Some (sc !! name) ->
  Environment.find_scope name (stack ++ [sc]) = Some (length stack).
Proof.
  intros Hs. induction stack as [|s0 rest IH]; cbn [app Environment.find_scope length].
  - now rewrite bool_decide_eq_true_2.
  - now rewrite IH.
Qed.

(** ** What the variables and the special variable cache leave alone *)

Section Frames.
Context {host : Host} {engine : RegexLib} {library : Library}.
Context {A : Type} (f : Interp -> A) (Hf : env_frame f).

Lemma frame_env_get name st : f (env_get name st).2 = f st.
Proof.
  unfold env_get. destruct (Environment.get_variable name (env_ st)).
  cbn [snd]. apply Hf.
Qed.

Lemma frame_env_set name v st : f (env_set name v st) = f st.
Proof.
  unfold env_set. destruct (Environment.get_variable name (env_ st)). apply Hf.
Qed.

Lemma frame_refresh st : f (refresh_special_var_cache st) = f st.
Proof.
  unfold refresh_special_var_cache.
  destruct (negb (special_vars_dirty_ st)); [reflexivity|].
  pose proof (frame_env_get "RS" st) as H1.
  destruct (env_get "RS" st) as [rs s1]. cbn [snd] in H1.
  pose proof (frame_env_get "FS" s1) as H2.
  destruct (env_get "FS" s1) as [fs s2]. cbn [snd] in H2.
  pose proof (frame_env_get "OFS" s2) as H3.
  destruct (env_get "OFS" s2) as [ofs s3]. cbn [snd] in H3.
  pose proof (frame_env_get "ORS" s3) as H4.
  destruct (env_get "ORS" s3) as [ors s4]. cbn [snd] in H4.
  pose proof (frame_env_get "OFMT" s4) as H5.
  destruct (env_get "OFMT" s4) as [ofmt s5]. cbn [snd] in H5.
  pose proof (frame_env_get "FPAT" s5) as H6.
  destruct (env_get "FPAT" s5) as [fpat s6]. cbn [snd] in H6.
  pose proof (frame_env_get "SUBSEP" s6) as H7.
  destruct (env_get "SUBSEP" s6) as [subsep s7]. cbn [snd] in H7.
  destruct Hf as (_ & Hc & Hd & _). rewrite Hd, Hc. congruence.
Qed.

Lemma frame_get_cached g st : f (get_cached g st).2 = f st.
Proof. unfold get_cached. cbn [snd]. apply frame_refresh. Qed.

Lemma frame_get_cached_regex pattern st : f (get_cached_regex pattern st).2 = f st.
Proof.
  unfold get_cached_regex. pose proof (frame_env_get "IGNORECASE" st) as H1.
  now destruct (env_get "IGNORECASE" st).
Qed.

Lemma frame_write_error msg st : f (write_error msg st) = f st.
Proof. unfold write_error. apply Hf. Qed.

Lemma frame_set_NF st : f (set_NF st) = f st.
Proof. unfold set_NF. apply frame_env_set. Qed.

End Frames.

Ltac frame_tac := repeat split; intros; reflexivity.

Lemma env_frame_fields_ : env_frame fields_.
Proof. frame_tac. Qed.
Lemma env_frame_field_values_ : env_frame field_values_.
Proof. frame_tac. Qed.
Lemma env_frame_field_values_valid_ : env_frame field_values_valid_.
Proof. frame_tac. Qed.
Lemma env_frame_current_record_ : env_frame current_record_.
Proof. frame_tac. Qed.
Lemma env_frame_record_dirty_ : env_frame record_dirty_.
Proof. frame_tac. Qed.
Lemma env_frame_fields_dirty_ : env_frame fields_dirty_.
Proof. frame_tac. Qed.
Lemma env_frame_output_ : env_frame output_.
Proof. frame_tac. Qed.
Lemma env_frame_history_ : env_frame history_.
Proof. frame_tac. Qed.


Section ParseFrame.
Context {host : Host} {engine : RegexLib} {library : Library}.
Context {A : Type} (f : Interp -> A) (Hf : parse_frame f).

Lemma frame_finish_parse st : f (finish_parse st) = f st.
Proof.
  destruct Hf as (He & Hfs & Hfd & Hrd).
  unfold finish_parse. rewrite Hfd, Hrd. now apply frame_set_NF.
Qed.

Lemma frame_parse_fields_dirty st :
  record_dirty_ st = true ->
  f (parse_fields st)
  = f (set_field_values_valid_ (map (fun _ => false) (field_values_valid_ st)) st).
Proof.
  intros Hd. pose proof Hf as (He & Hfs & Hfd & Hrd).
  unfold parse_fields. rewrite Hd. cbn [negb]. cbv zeta.
  set (s0 := set_field_values_valid_ _ (set_fields_ [] st)).
  assert (H0 : f s0 = f (set_field_values_valid_
                           (map (fun _ => false) (field_values_valid_ st)) st)).
  { subst s0. cbn [field_values_valid_ set_fields_].
    change (set_field_values_valid_ ?x (set_fields_ [] st))
      with (set_fields_ [] (set_field_values_valid_ x st)).
    apply Hfs. }
  rewrite <- H0. clear H0.
  pose proof (frame_get_cached f He cached_fpat_ s0) as H1.
  unfold get_cached_fpat.
  destruct (get_cached cached_fpat_ s0) as [fpat s1]. cbn [snd] in H1.
  destruct (negb (str_empty fpat)).
  - pose proof (frame_get_cached_regex f He fpat s1) as H2.
    destruct (get_cached_regex fpat s1) as [[re|what] s2]; cbn [snd] in H2;
      rewrite frame_finish_parse, Hfs.
    + congruence.
    + rewrite (frame_write_error f He). congruence.
  - pose proof (frame_get_cached f He cached_fs_ s1) as H2.
    unfold get_cached_fs.
    destruct (get_cached cached_fs_ s1) as [fs s2]. cbn [snd] in H2.
    rewrite frame_finish_parse.
    assert (Hre : f (let '(re, st) := get_cached_regex fs s2 in
                     match re with
                     | inl re => set_fields_ (regex_tokens re (current_record_ st)) st
                     | inr what =>
                         let st := write_error ("awk: FS: invalid regex '" ++ fs ++ "': "
                                                ++ what ++ newline) st in
                         set_fields_ [current_record_ st] st
                     end) = f s0).
    { pose proof (frame_get_cached_regex f He fs s2) as H3.
      destruct (get_cached_regex fs s2) as [[re|what] s3]; cbn [snd] in H3;
        cbv zeta; rewrite Hfs; [congruence|].
      rewrite (frame_write_error f He). congruence. }
    destruct fs as [|c fs]; [exact Hre|].
    destruct c as [[] [] [] [] [] [] [] []]; destruct fs;
      first [exact Hre | rewrite Hfs; congruence].
Qed.

End ParseFrame.

Ltac parse_frame_tac := split; [frame_tac | repeat split; intros; reflexivity].

Lemma parse_frame_field_values_ : parse_frame field_values_.
Proof. parse_frame_tac. Qed.
Lemma parse_frame_field_values_valid_ : parse_frame field_values_valid_.
Proof. parse_frame_tac. Qed.
Lemma parse_frame_current_record_ : parse_frame current_record_.
Proof. parse_frame_tac. Qed.
Lemma parse_frame_output_ : parse_frame output_.
Proof. parse_frame_tac. Qed.
(** ** The cache of field values *)

Section FieldCache.
Context {host : Host} {engine : RegexLib} {library : Library}.

Lemma field_cache_coherent_ext st st' :
  fields_ st' = fields_ st ->
  field_values_ st' = field_values_ st ->
  field_values_valid_ st' = field_values_valid_ st ->
  field_cache_coherent st -> field_cache_coherent st'.
Proof. unfold field_cache_coherent. intros -> -> ->. auto. Qed.

Lemma lookup_all_false (l : list bool) j : map (fun _ => false) l !! j <> Some true.
Proof.
  rewrite list_lookup_fmap. destruct (l !! j); cbn; congruence.
Qed.

Lemma parse_fields_coherent st :
  field_cache_coherent st -> field_cache_coherent (parse_fields st).
Proof.
  intros [Hlen Hco]. destruct (record_dirty_ st) eqn:Hd.
  - split.
    + rewrite (frame_parse_fields_dirty field_values_ parse_frame_field_values_ st Hd).
      rewrite (frame_parse_fields_dirty field_values_valid_
                 parse_frame_field_values_valid_ st Hd).
      cbn. now rewrite length_map.
    + intros j.
      rewrite (frame_parse_fields_dirty field_values_valid_
                 parse_frame_field_values_valid_ st Hd).
      cbn. intros Hj. now apply lookup_all_false in Hj.
  - rewrite parse_fields_clean by exact Hd. now split.
Qed.

Lemma extend_fields_coherent n st :
  field_cache_coherent st -> field_cache_coherent (extend_fields n st).
Proof.
  intros [Hlen Hco]. split; [exact Hlen|].
  intros j Hj. destruct (Hco j Hj) as (s & Hs & Hv). exists s.
  split; [|exact Hv]. unfold extend_fields. cbn [fields_ set_fields_].
  now apply lookup_app_l_Some.
Qed.

Lemma resize_grow {X} n (d : X) l :
  (length l <= n)%nat -> resize n d l = (l ++ replicate (n - length l) d)%list.
Proof. intros Hn. unfold resize. now rewrite take_ge by lia. Qed.

Lemma ensure_field_values_coherent st :
  field_cache_coherent st ->
  field_cache_coherent (ensure_field_values st)
  /\ (length (fields_ st) <= length (field_values_ (ensure_field_values st)))%nat.
Proof.
  intros [Hlen Hco]. unfold ensure_field_values.
  destruct (length (field_values_ st) <? length (fields_ st))%nat eqn:E.
  - apply Nat.ltb_lt in E.
    cbn [field_values_ field_values_valid_ fields_ set_field_values_valid_
         set_field_values_].
    unfold field_cache_coherent.
    cbn [field_values_ field_values_valid_ fields_ set_field_values_valid_
         set_field_values_].
    rewrite !length_resize. split; [split; [reflexivity|]|lia].
    intros j. rewrite !resize_grow by lia. intros Hj.
    apply lookup_app_Some in Hj as [Hj|[_ Hj]].
    + destruct (Hco j Hj) as (s & Hs & Hv). exists s. split; [exact Hs|].
      now apply lookup_app_l_Some.
    + apply lookup_replicate in Hj as [Hj _]. discriminate Hj.
  - apply Nat.ltb_ge in E. split; [now split|exact E].
Qed.

Lemma cache_field_value_coherent idx st :
  (idx < length (fields_ st))%nat ->
  field_cache_coherent st -> field_cache_coherent (cache_field_value idx st).
Proof.
  intros Hidx [Hlen Hco]. unfold cache_field_value.
  destruct (negb (default false (field_values_valid_ st !! idx))); [|now split].
  unfold field_cache_coherent.
  cbn [field_values_ field_values_valid_ fields_ set_field_values_valid_
       set_field_values_].
  rewrite !length_insert. split; [exact Hlen|].
  intros j Hj. destruct (decide (j = idx)) as [->|Hne].
  - destruct (lookup_lt_is_Some_2 (fields_ st) idx Hidx) as [s Hs].
    exists s. split; [exact Hs|]. rewrite Hs. cbn [default].
    apply list_lookup_insert_eq. rewrite Hlen.
    apply lookup_lt_Some in Hj. now rewrite length_insert in Hj.
  - rewrite list_lookup_insert_ne in Hj by congruence.
    destruct (Hco j Hj) as (s & Hs & Hv). exists s. split; [exact Hs|].
    now rewrite list_lookup_insert_ne by congruence.
Qed.

Lemma length_extend_fields n st : (n <= length (fields_ (extend_fields n st)))%nat.
Proof.
  unfold extend_fields. cbn [fields_ set_fields_].
  rewrite length_app, length_replicate. lia.
Qed.

Lemma rebuild_record_cache st :
  fields_ (rebuild_record st) = fields_ st
  /\ field_values_ (rebuild_record st) = field_values_ st
  /\ field_values_valid_ (rebuild_record st) = field_values_valid_ st.
Proof.
  unfold rebuild_record. destruct (negb (fields_dirty_ st)); [auto|].
  unfold get_cached_ofs.
  pose proof (frame_get_cached fields_ env_frame_fields_ cached_ofs_ st) as H1.
  pose proof (frame_get_cached field_values_ env_frame_field_values_ cached_ofs_ st) as H2.
  pose proof (frame_get_cached field_values_valid_ env_frame_field_values_valid_
                cached_ofs_ st) as H3.
  destruct (get_cached cached_ofs_ st) as [ofs s1]. cbn [snd] in *. auto.
Qed.

Lemma get_field_coherent index st :
  field_cache_coherent st -> field_cache_coherent (get_field index st).2.
Proof.
  intros Hco. apply parse_fields_coherent in Hco. unfold get_field.
  destruct (index =? 0) eqn:Hz.
  - cbn [snd]. destruct (rebuild_record_cache (parse_fields st)) as (H1 & H2 & H3).
    revert Hco. now apply field_cache_coherent_ext.
  - destruct (index <? 0) eqn:Hneg; [exact Hco|].
    apply Z.ltb_ge in Hneg. apply Z.eqb_neq in Hz.
    cbv zeta. cbn [snd].
    apply (extend_fields_coherent (Z.to_nat index)) in Hco.
    pose proof (length_extend_fields (Z.to_nat index) (parse_fields st)) as Hlen.
    destruct (ensure_field_values_frame (extend_fields (Z.to_nat index) (parse_fields st)))
      as (Hf & _).
    apply ensure_field_values_coherent in Hco as [Hco _].
    apply cache_field_value_coherent; [|exact Hco]. rewrite Hf. lia.
Qed.

Lemma set_record_coherent record st :
  field_cache_coherent st -> field_cache_coherent (set_record record st).
Proof.
  intros Hco. unfold set_record. apply parse_fields_coherent.
  revert Hco. now apply field_cache_coherent_ext.
Qed.

Lemma set_field_coherent index v st :
  field_cache_coherent st -> field_cache_coherent (set_field index v st).
Proof.
  intros Hco. apply parse_fields_coherent in Hco. unfold set_field.
  destruct (index =? 0) eqn:Hz.
  - apply parse_fields_coherent. revert Hco. now apply field_cache_coherent_ext.
  - destruct (index <? 0) eqn:Hneg; [exact Hco|].
    apply Z.ltb_ge in Hneg. apply Z.eqb_neq in Hz. cbv zeta.
    set (n := Z.to_nat index). assert (Hn : (0 < n)%nat) by (subst n; lia).
    apply (extend_fields_coherent n) in Hco.
    pose proof (length_extend_fields n (parse_fields st)) as Hlen.
    set (se := extend_fields n (parse_fields st)) in *.
    destruct Hco as [Hl Hco].
    split.
    + rewrite (frame_set_NF field_values_ env_frame_field_values_).
      rewrite (frame_set_NF field_values_valid_ env_frame_field_values_valid_).
      unfold invalidate_field_value.
      cbn [field_values_valid_ set_fields_dirty_ set_fields_].
      destruct (n <=? length (field_values_valid_ se))%nat;
        cbn [field_values_ field_values_valid_ set_field_values_valid_
             set_fields_dirty_ set_fields_];
        [rewrite length_insert|]; exact Hl.
    + intros j.
      rewrite (frame_set_NF field_values_ env_frame_field_values_).
      rewrite (frame_set_NF field_values_valid_ env_frame_field_values_valid_).
      rewrite (frame_set_NF fields_ env_frame_fields_).
      rewrite fields_invalidate. unfold invalidate_field_value.
      cbn [field_values_valid_ set_fields_dirty_ set_fields_ fields_].
      destruct (n <=? length (field_values_valid_ se))%nat eqn:E;
        cbn [field_values_ field_values_valid_ set_field_values_valid_
             set_fields_dirty_ set_fields_]; intros Hj.
      * apply Nat.leb_le in E.
        destruct (decide (j = (n - 1)%nat)) as [->|Hne].
        { rewrite list_lookup_insert_eq in Hj by lia. discriminate Hj. }
        rewrite list_lookup_insert_ne in Hj by congruence.
        destruct (Hco j Hj) as (s & Hs & Hv). exists s. split; [|exact Hv].
        now rewrite list_lookup_insert_ne by congruence.
      * apply Nat.leb_gt in E.
        assert (Hne : j <> (n - 1)%nat).
        { apply lookup_lt_Some in Hj. lia. }
        destruct (Hco j Hj) as (s & Hs & Hv). exists s. split; [|exact Hv].
        now rewrite list_lookup_insert_ne by congruence.
Qed.

Lemma read_field_coherent index st :
  field_cache_coherent st -> 0 < index ->
  (read_field index st).1
  = AWKValue.STRNUM
      (default "" (fields_ (read_field index st).2 !! (Z.to_nat index - 1)%nat)).
Proof.
  intros Hco Hpos. apply parse_fields_coherent in Hco.
  unfold read_field, get_field.
  destruct (index =? 0) eqn:Hz; [apply Z.eqb_eq in Hz; lia|].
  destruct (index <? 0) eqn:Hneg; [apply Z.ltb_lt in Hneg; lia|].
  cbv zeta. cbn [fst snd read_ref].
  set (n := Z.to_nat index). assert (Hn : (0 < n)%nat) by (subst n; lia).
  apply (extend_fields_coherent n) in Hco.
  pose proof (length_extend_fields n (parse_fields st)) as Hlen.
  set (se := extend_fields n (parse_fields st)) in *.
  destruct (ensure_field_values_frame se) as (Hf & _).
  apply ensure_field_values_coherent in Hco as [[Hl Hco] Hge].
  set (sv := ensure_field_values se) in *.
  unfold cache_field_value.
  destruct (field_values_valid_ sv !! (n - 1)%nat) as [[]|] eqn:Hflag;
    cbn [default from_option negb id].
  - destruct (Hco _ Hflag) as (s & Hs & Hv). now rewrite Hv, Hs.
  - cbn [field_values_ fields_ set_field_values_valid_ set_field_values_].
    rewrite list_lookup_insert_eq by lia. reflexivity.
  - cbn [field_values_ fields_ set_field_values_valid_ set_field_values_].
    rewrite list_lookup_insert_eq by lia. reflexivity.
Qed.

End FieldCache.

(** ** Rebuilding the record *)

Section RecordRebuild.
Context {host : Host} {engine : RegexLib} {library : Library}.

Lemma refresh_not_dirty st :
  special_vars_dirty_ (refresh_special_var_cache st) = false.
Proof.
  unfold refresh_special_var_cache.
  destruct (special_vars_dirty_ st) eqn:Hd; cbn [negb]; [|exact Hd].
  destruct (env_get "RS" st) as [rs s1].
  destruct (env_get "FS" s1) as [fs s2].
  destruct (env_get "OFS" s2) as [ofs s3].
  destruct (env_get "ORS" s3) as [ors s4].
  destruct (env_get "OFMT" s4) as [ofmt s5].
  destruct (env_get "FPAT" s5) as [fpat s6].
  destruct (env_get "SUBSEP" s6) as [subsep s7].
  reflexivity.
Qed.

Lemma refresh_clean st :
  special_vars_dirty_ st = false -> refresh_special_var_cache st = st.
Proof. intros Hd. unfold refresh_special_var_cache. now rewrite Hd. Qed.

(** The state after an assignment to a field [$i], [i] at least 1. *)
Lemma set_field_flags index v st :
  0 < index ->
  record_dirty_ (set_field index v st) = false
  /\ fields_dirty_ (set_field index v st) = true
  /\ current_record_ (set_field index v st) = current_record_ (parse_fields st)
  /\ output_ (set_field index v st) = output_ (parse_fields st).
Proof.
  intros Hpos. unfold set_field.
  destruct (index =? 0) eqn:Hz; [apply Z.eqb_eq in Hz; lia|].
  destruct (index <? 0) eqn:Hneg; [apply Z.ltb_lt in Hneg; lia|].
  cbv zeta.
  rewrite (frame_set_NF record_dirty_ env_frame_record_dirty_).
  rewrite (frame_set_NF fields_dirty_ env_frame_fields_dirty_).
  rewrite (frame_set_NF current_record_ env_frame_current_record_).
  rewrite (frame_set_NF output_ env_frame_output_).
  unfold invalidate_field_value.
  destruct (_ <=? _)%nat;
    cbn [record_dirty_ fields_dirty_ current_record_ output_ set_field_values_valid_
         set_fields_dirty_ set_fields_ extend_fields];
    (split; [apply parse_fields_not_dirty|auto]).
Qed.

Lemma parse_fields_keeps (st : Interp) :
  current_record_ (parse_fields st) = current_record_ st
  /\ output_ (parse_fields st) = output_ st.
Proof.
  destruct (record_dirty_ st) eqn:Hd.
  - rewrite (frame_parse_fields_dirty current_record_ parse_frame_current_record_ st Hd).
    rewrite (frame_parse_fields_dirty output_ parse_frame_output_ st Hd).
    split; reflexivity.
  - rewrite parse_fields_clean by exact Hd. split; reflexivity.
Qed.

Lemma rebuild_record_dirty st :
  fields_dirty_ st = true ->
  let st' := rebuild_record st in
  current_record_ st' = join (cached_ofs_ (cached_ st')) (fields_ st)
  /\ fields_ st' = fields_ st
  /\ output_ st' = output_ st
  /\ special_vars_dirty_ st' = false.
Proof.
  intros Hd. cbv zeta. unfold rebuild_record. rewrite Hd. cbn [negb].
  unfold get_cached_ofs, get_cached.
  pose proof (frame_refresh fields_ env_frame_fields_ st) as Hf.
  pose proof (frame_refresh output_ env_frame_output_ st) as Ho.
  cbn [current_record_ cached_ fields_ output_ special_vars_dirty_
       set_fields_dirty_ set_current_record_].
  rewrite Hf, Ho, refresh_not_dirty. auto.
Qed.

End RecordRebuild.

(** ** Splitting at a character *)

Lemma split_char_cons sep s piece :
  exists h t, split_char sep s piece = h :: t.
Proof.
  revert piece; induction s as [|c r IH]; intros piece; cbn [split_char]; eauto.
  destruct (Ascii.eqb c sep); eauto.
Qed.

Lemma join_cons sep x h t : join sep (x :: h :: t) = x ++ sep ++ join sep (h :: t).
Proof. reflexivity. Qed.

Lemma join_split_char sep s piece :
  join (String sep "") (split_char sep s piece) = piece ++ s.
Proof.
  revert piece; induction s as [|c r IH]; intros piece; cbn [split_char].
  - cbn [join]. now rewrite append_nil_r.
  - destruct (Ascii.eqb c sep) eqn:E.
    + apply Ascii.eqb_eq in E. subst c.
      destruct (split_char_cons sep r "") as (h & t & Hs).
      specialize (IH ""). rewrite Hs in *. rewrite join_cons.
      rewrite IH. rewrite append_nil_l. reflexivity.
    + rewrite IH. rewrite append_assoc. reflexivity.
Qed.

Section SingleChar.
Context {host : Host} {engine : RegexLib} {library : Library}.

Lemma cached_env_set name v st :
  cached_ (env_set name v st) = cached_ st
  /\ special_vars_dirty_ (env_set name v st) = special_vars_dirty_ st.
Proof. unfold env_set. now destruct (Environment.get_variable name (env_ st)). Qed.

Lemma set_record_single_char sep s st :
  special_vars_dirty_ st = false ->
  cached_fpat_ (cached_ st) = "" ->
  cached_fs_ (cached_ st) = String sep "" ->
  sep <> " "%char ->
  let st1 := set_record s st in
  fields_ st1 = split_char sep s ""
  /\ current_record_ st1 = s
  /\ record_dirty_ st1 = false
  /\ fields_dirty_ st1 = false
  /\ cached_ st1 = cached_ st
  /\ special_vars_dirty_ st1 = false
  /\ output_ st1 = output_ st.
Proof.
  intros Hd Hfpat Hfs Hsep. cbv zeta. unfold set_record, parse_fields.
  cbn [record_dirty_ set_record_dirty_ set_current_record_ negb].
  cbv zeta. unfold get_cached_fpat, get_cached_fs, get_cached.
  rewrite !refresh_clean by exact Hd.
  cbn [cached_ set_field_values_valid_ set_fields_ set_record_dirty_ set_current_record_].
  rewrite Hfpat. cbn [str_empty negb]. rewrite Hfs.
  assert (Hfin : forall s0 : Interp,
    special_vars_dirty_ s0 = false -> cached_ s0 = cached_ st ->
    output_ s0 = output_ st -> current_record_ s0 = s ->
    let st1 := finish_parse (set_fields_ (split_char sep (current_record_ s0) "") s0) in
    fields_ st1 = split_char sep s "" /\ current_record_ st1 = s
    /\ record_dirty_ st1 = false /\ fields_dirty_ st1 = false
    /\ cached_ st1 = cached_ st /\ special_vars_dirty_ st1 = false
    /\ output_ st1 = output_ st).
  { intros s0 H1 H2 H3 H4. cbv zeta. unfold finish_parse.
    cbn [fields_ current_record_ record_dirty_ fields_dirty_ cached_ special_vars_dirty_
         output_ set_fields_dirty_ set_record_dirty_].
    rewrite (frame_set_NF fields_ env_frame_fields_).
    rewrite (frame_set_NF current_record_ env_frame_current_record_).
    rewrite (frame_set_NF output_ env_frame_output_).
    unfold set_NF.
    destruct (cached_env_set "NF"
                (AWKValue.NUMBER
                   (to_double
                      (Z.of_nat
                         (length
                            (fields_
                               (set_fields_ (split_char sep (current_record_ s0) "") s0))))))
                (set_fields_ (split_char sep (current_record_ s0) "") s0)) as [Hc Hsd].
    rewrite Hc, Hsd. cbn [fields_ cached_ special_vars_dirty_ output_ current_record_
                          set_fields_].
    rewrite H4. auto 10. }
  destruct sep as [[] [] [] [] [] [] [] []]; try (now contradiction Hsep);
    apply Hfin; first [exact Hd | reflexivity].
Qed.

Lemma get_field_clean index st :
  record_dirty_ st = false -> 0 < index ->
  let st' := (get_field index st).2 in
  fields_ st' = (fields_ st ++ replicate (Z.to_nat index - length (fields_ st)) "")%list
  /\ cached_ st' = cached_ st
  /\ special_vars_dirty_ st' = special_vars_dirty_ st
  /\ record_dirty_ st' = false
  /\ fields_dirty_ st' = fields_dirty_ st
  /\ current_record_ st' = current_record_ st
  /\ output_ st' = output_ st.
Proof.
  intros Hd Hpos. cbv zeta. unfold get_field.
  rewrite (parse_fields_clean st Hd).
  destruct (index =? 0) eqn:Hz; [apply Z.eqb_eq in Hz; lia|].
  destruct (index <? 0) eqn:Hneg; [apply Z.ltb_lt in Hneg; lia|].
  cbv zeta. cbn [snd]. unfold cache_field_value, ensure_field_values.
  destruct (negb _); destruct (_ <? _)%nat; cbn; rewrite Hd; auto 10.
Qed.

Lemma set_field_clean index v st :
  record_dirty_ st = false -> 0 < index ->
  let st' := set_field index v st in
  fields_ st'
  = <[(Z.to_nat index - 1)%nat := AWKValue.to_string v]>
      (fields_ st ++ replicate (Z.to_nat index - length (fields_ st)) "")%list
  /\ cached_ st' = cached_ st
  /\ special_vars_dirty_ st' = special_vars_dirty_ st
  /\ record_dirty_ st' = false
  /\ fields_dirty_ st' = true
  /\ current_record_ st' = current_record_ st
  /\ output_ st' = output_ st.
Proof.
  intros Hd Hpos. cbv zeta.
  destruct (set_field_flags index v st Hpos) as (H1 & H2 & H3 & H4).
  rewrite H1, H2, H3, H4. rewrite (parse_fields_clean st Hd).
  unfold set_field.
  rewrite (parse_fields_clean st Hd).
  destruct (index =? 0) eqn:Hz; [apply Z.eqb_eq in Hz; lia|].
  destruct (index <? 0) eqn:Hneg; [apply Z.ltb_lt in Hneg; lia|].
  cbv zeta. rewrite fields_set_NF, fields_invalidate. unfold set_NF.
  match goal with
  | |- context [env_set ?n ?x ?s] => destruct (cached_env_set n x s) as [Hc Hs]
  end.
  rewrite Hc, Hs. unfold invalidate_field_value.
  destruct (_ <=? _)%nat; cbn; auto 10.
Qed.

End SingleChar.

(** ** Splitting at white space *)

Lemma no_space_app a b : no_space (a ++ b) = no_space a && no_space b.
Proof.
  induction a as [|c a IH]; [reflexivity|].
  rewrite append_cons. cbn [no_space]. rewrite IH. now rewrite andb_assoc.
Qed.

Lemma split_whitespace_words s w :
  no_space w = true -> Forall is_word (split_whitespace s w).
Proof.
  revert w; induction s as [|c r IH]; intros w Hw; cbn [split_whitespace].
  - destruct (str_empty w) eqn:E; constructor; [now split|constructor].
  - destruct (isspace c) eqn:Hc.
    + destruct (str_empty w) eqn:E; [now apply IH|].
      constructor; [now split|now apply IH].
    + apply IH. rewrite no_space_app, Hw. cbn. now rewrite Hc.
Qed.

Lemma split_whitespace_app x r w :
  no_space x = true -> split_whitespace (x ++ r) w = split_whitespace r (w ++ x).
Proof.
  revert w; induction x as [|c x IH]; intros w Hx.
  - now rewrite append_nil_l, append_nil_r.
  - cbn [no_space] in Hx. apply andb_true_iff in Hx as [Hc Hx].
    rewrite append_cons. cbn [split_whitespace].
    apply negb_true_iff in Hc. rewrite Hc. rewrite IH by exact Hx.
    now rewrite append_assoc.
Qed.

Lemma split_whitespace_join l :
  Forall is_word l -> split_whitespace (join " " l) "" = l.
Proof.
  induction 1 as [|x l [Hx1 Hx2] Hl IH]; [reflexivity|].
  destruct l as [|y l].
  - cbn [join]. rewrite <- (append_nil_r x) at 1.
    rewrite split_whitespace_app by exact Hx2. cbn [split_whitespace].
    rewrite append_nil_l, Hx1. reflexivity.
  - rewrite join_cons. rewrite split_whitespace_app by exact Hx2.
    rewrite append_nil_l. rewrite append_cons. cbn [split_whitespace isspace].
    cbn. rewrite Hx1. f_equal. rewrite append_nil_l. exact IH.
Qed.

(** ** A record in the default splitting *)

Section DefaultSplitting.
Context {host : Host} {engine : RegexLib} {library : Library}.

Lemma set_record_whitespace s st :
  special_vars_dirty_ st = false ->
  cached_fpat_ (cached_ st) = "" ->
  cached_fs_ (cached_ st) = " " ->
  fields_ (set_record s st) = split_whitespace s "".
Proof.
  intros Hd Hfpat Hfs. unfold set_record, parse_fields.
  cbn [record_dirty_ set_record_dirty_ set_current_record_ negb].
  cbv zeta. unfold get_cached_fpat, get_cached_fs, get_cached.
  rewrite !refresh_clean by exact Hd.
  cbn [cached_ set_field_values_valid_ set_fields_ set_record_dirty_ set_current_record_].
  rewrite Hfpat. cbn [str_empty negb]. rewrite Hfs.
  unfold finish_parse.
  cbn [fields_ set_fields_dirty_ set_record_dirty_].
  rewrite (frame_set_NF fields_ env_frame_fields_). reflexivity.
Qed.

Lemma set_record_NF s st :
  (env_get "NF" (set_record s st)).1
  = AWKValue.NUMBER (to_double (Z.of_nat (length (fields_ (set_record s st))))).
Proof.
  unfold set_record.
  destruct (parse_fields_dirty (set_record_dirty_ true (set_current_record_ s st))
              eq_refl) as [st' ->].
  apply finish_parse_NF.
Qed.

End DefaultSplitting.

(** ** Reading records *)

Lemma take_line_split d s :
  has_char d (take_line d s).1 = false
  /\ match (take_line d s).2 with
     | Some r => s = (take_line d s).1 ++ String d r
     | None => s = (take_line d s).1
     end.
Proof.
  induction s as [|c r [IH1 IH2]]; cbn [take_line]; [now split|].
  destruct (Ascii.eqb c d) eqn:E.
  - apply Ascii.eqb_eq in E. subst c. cbn. now split.
  - destruct (take_line d r) as [l k]. cbn [fst snd] in *. cbn [has_char].
    rewrite E, IH1. split; [reflexivity|].
    destruct k; try rewrite append_cons; now f_equal.
Qed.

Lemma take_line_length d s :
  match (take_line d s).2 with
  | Some r => (String.length r < String.length s)%nat
  | None => True
  end.
Proof.
  destruct (take_line_split d s) as [_ H]. destruct (take_line d s).2; [|exact I].
  rewrite H. rewrite length_append. cbn [String.length]. lia.
Qed.

Lemma getline_remaining input str :
  let '(ok, input', _) := getline input str in
  (remaining input' <= remaining input)%nat
  /\ (ok = true -> (remaining input' < remaining input)%nat).
Proof.
  unfold getline, remaining. destruct input as [b [|]]; cbn [good buffer negb].
  - destruct b as [|c r]; [cbn; lia|].
    pose proof (take_line_length "010" (String c r)) as Hl.
    destruct (take_line "010" (String c r)) as [l [k|]]; cbn [snd] in Hl;
      cbn [buffer good at_eof String.length] in *; lia.
  - split; [lia|discriminate].
Qed.

Lemma single_char_remaining input d :
  let '(ok, input', _, _) := read_record_single_char_mode input d in
  ok = true -> (remaining input' < remaining input)%nat.
Proof.
  unfold read_record_single_char_mode, remaining.
  destruct input as [b [|]]; cbn [good buffer negb]; [|discriminate].
  pose proof (take_line_length d b) as Hl.
  destruct (take_line d b) as [l [k|]]; cbn [snd] in Hl.
  - cbn. lia.
  - destruct (str_empty l); [discriminate|]. cbn. lia.
Qed.

Lemma skip_blank_lines_remaining fuel input :
  let '(line, input') := skip_blank_lines fuel input in
  (remaining input' <= remaining input)%nat
  /\ (is_Some line -> (remaining input' < remaining input)%nat).
Proof.
  revert input; induction fuel as [|fuel IH]; intros input; cbn [skip_blank_lines].
  - split; [lia|]. intros [x Hx]. discriminate Hx.
  - pose proof (getline_remaining input "") as Hg.
    destruct (getline input "") as [[ok input1] line].
    destruct ok.
    + destruct Hg as [_ Hg]. specialize (Hg eq_refl).
      destruct (str_empty line).
      * specialize (IH input1). destruct (skip_blank_lines fuel input1) as [l i2].
        destruct IH as [IH1 IH2]. split; [lia|]. intros _. lia.
      * split; [lia|]. intros _. lia.
    + destruct Hg as [Hg _]. split; [lia|]. intros [x Hx]. discriminate Hx.
Qed.

Lemma read_paragraph_remaining fuel input record :
  let '(input', _, _) := read_paragraph fuel input record in
  (remaining input' <= remaining input)%nat.
Proof.
  revert input record; induction fuel as [|fuel IH]; intros input record;
    cbn [read_paragraph]; [lia|].
  pose proof (getline_remaining input "") as Hg.
  destruct (getline input "") as [[ok input1] line].
  destruct Hg as [Hg _]. destruct ok; [|exact Hg].
  destruct (str_empty line); [exact Hg|].
  specialize (IH input1 (record ++ newline ++ line)).
  destruct (read_paragraph fuel input1 _) as [[i2 r2] rt2]. lia.
Qed.

Lemma paragraph_remaining input :
  let '(ok, input', _, _) := read_record_paragraph_mode input in
  ok = true -> (remaining input' < remaining input)%nat.
Proof.
  unfold read_record_paragraph_mode.
  pose proof (skip_blank_lines_remaining (S (S (String.length (buffer input)))) input)
    as Hs.
  destruct (skip_blank_lines _ input) as [[line|] input1]; [|discriminate].
  destruct Hs as [_ Hs]. specialize (Hs ltac:(eauto)).
  pose proof (read_paragraph_remaining (S (S (String.length (buffer input)))) input1 line)
    as Hp.
  destruct (read_paragraph _ input1 line) as [[i2 r2] rt2]. intros _. lia.
Qed.

Section Loop.
Context {host : Host} {engine : RegexLib} {library : Library}.

Lemma read_record_remaining input st :
  let '(ok, input', _) := read_record input st in
  ok = true -> (remaining input' < remaining input)%nat.
Proof.
  unfold read_record. destruct (get_cached_rs st) as [rs s1].
  assert (H : let '(ok, input', _, _) :=
                match rs with
                | "" => read_record_paragraph_mode input
                | String c "" =>
                    if Ascii.eqb c "010"
                    then read_record_line_mode input (current_record_ s1)
                    else read_record_single_char_mode input c
                | String c (String _ _) =>
                    read_record_multi_char_mode input (current_record_ s1)
                end in ok = true -> (remaining input' < remaining input)%nat).
  { assert (Hline : forall r0, let '(ok, input', _, _) := read_record_line_mode input r0 in
                      ok = true -> (remaining input' < remaining input)%nat).
    { intros r0. unfold read_record_line_mode.
      pose proof (getline_remaining input r0) as Hg.
      destruct (getline input r0) as [[ok i1] rec]. destruct ok; [|discriminate].
      apply Hg. }
    destruct rs as [|c [|c2 rs]].
    - apply paragraph_remaining.
    - destruct (Ascii.eqb c "010"); [apply Hline|apply single_char_remaining].
    - apply Hline. }
  destruct (match rs with "" => _ | _ => _ end) as [[[ok i1] rec] rt].
  destruct ok; cbn [negb]; [|discriminate].
  destruct (env_get "NR" _) as [nr s2]. destruct (env_get "FNR" _) as [fnr s3].
  exact H.
Qed.

Lemma process_stream_loop_fuel fuel1 fuel2 input program st :
  (remaining input < fuel1)%nat -> (remaining input < fuel2)%nat ->
  process_stream_loop fuel1 input program st
  = process_stream_loop fuel2 input program st.
Proof.
  revert fuel2 input program st.
  induction fuel1 as [|fuel1 IH]; intros fuel2 input program st H1 H2; [lia|].
  destruct fuel2 as [|fuel2]; [lia|]. cbn [process_stream_loop].
  pose proof (read_record_remaining input st) as Hr.
  destruct (read_record input st) as [[ok input1] st1].
  destruct ok; [|reflexivity]. specialize (Hr eq_refl).
  destruct (execute_main_rules program st1) as [[[|[]|] p1] s2]; try reflexivity;
    apply IH; lia.
Qed.

End Loop.

(** ** Replacement texts *)

Lemma convert_plain a b f :
  plain_text a = true ->
  convert_awk_replacement (a ++ b) f = a ++ convert_awk_replacement b f.
Proof.
  induction a as [|c a IH]; intros Ha; [now rewrite !append_nil_l|].
  cbn [plain_text] in Ha. apply andb_true_iff in Ha as [Hc Ha].
  unfold plain_char in Hc. apply negb_true_iff in Hc.
  apply orb_false_iff in Hc as [Hc H3]. apply orb_false_iff in Hc as [H1 H2].
  rewrite !append_cons. cbn [convert_awk_replacement]. rewrite H1, H2.
  now rewrite IH.
Qed.

Lemma format_plain m a b :
  plain_text a = true -> format m (a ++ b) = a ++ format m b.
Proof.
  induction a as [|c a IH]; intros Ha; [now rewrite !append_nil_l|].
  cbn [plain_text] in Ha. apply andb_true_iff in Ha as [Hc Ha].
  unfold plain_char in Hc. apply negb_true_iff in Hc.
  apply orb_false_iff in Hc as [Hc H3].
  rewrite !append_cons. cbn [format]. rewrite H3. now rewrite IH.
Qed.

Lemma format_convert_plain m a f :
  plain_text a = true -> format m (convert_awk_replacement a f) = a.
Proof.
  intros Ha. rewrite <- (append_nil_r a) at 1.
  rewrite convert_plain by exact Ha. rewrite format_plain by exact Ha.
  cbn. apply append_nil_r.
Qed.


(** ** The counting loop of gsub *)

Section Count.
Context {engine : RegexLib}.

Lemma regex_search_lengths re fl before s m :
  regex_search re fl before s = Some m ->
  (String.length (matched m) + String.length (suffix m) <= String.length s)%nat.
Proof.
  intros H. apply regex_search_split in H. rewrite <- H.
  rewrite !length_append. lia.
Qed.

Lemma str_empty_length s : str_empty s = false -> (0 < String.length s)%nat.
Proof. destruct s; [discriminate|cbn; lia]. Qed.

Lemma count_loop_fuel fuel1 fuel2 re before rest :
  (String.length rest < fuel1)%nat -> (String.length rest < fuel2)%nat ->
  count_loop fuel1 re before rest = count_loop fuel2 re before rest.
Proof.
  revert fuel2 before rest.
  induction fuel1 as [|fuel1 IH]; intros fuel2 before rest H1 H2; [lia|].
  destruct fuel2 as [|fuel2]; [lia|]. cbn [count_loop].
  destruct (regex_search re match_default before rest) as [m|] eqn:Hm; [|reflexivity].
  apply regex_search_lengths in Hm.
  destruct (str_empty (matched m)) eqn:He.
  - destruct (suffix m) as [|c r] eqn:Hs; [reflexivity|].
    cbn [String.length] in Hm. f_equal. apply IH; lia.
  - apply str_empty_length in He. f_equal. apply IH; lia.
Qed.

Lemma count_loop_bounds fuel re before rest :
  0 <= count_loop fuel re before rest <= Z.of_nat fuel.
Proof.
  revert before rest; induction fuel as [|fuel IH]; intros before rest;
    cbn [count_loop]; [lia|].
  destruct (regex_search re match_default before rest) as [m|]; [|lia].
  destruct (str_empty (matched m)).
  - destruct (suffix m) as [|c r]; [lia|].
    match goal with
    | |- context [count_loop fuel re ?b ?x] => specialize (IH b x)
    end. lia.
  - match goal with
    | |- context [count_loop fuel re ?b ?x] => specialize (IH b x)
    end. lia.
Qed.

End Count.

Section NoMatch.
Context {host : Host} {engine : RegexLib} {library : Library}.

Lemma regex_replace_no_match re s fmt first_only :
  regex_search re match_default "" s = None ->
  regex_replace s re fmt first_only = s.
Proof. intros H. unfold regex_replace, regex_iterator. now rewrite H. Qed.

Lemma substitute_no_match fn pattern replacement target write_back st re :
  (get_cached_regex pattern st).1 = inl re ->
  regex_search re match_default "" target = None ->
  substitute fn pattern replacement target write_back st
  = (AWKValue.NUMBER 0, (get_cached_regex pattern st).2).
Proof.
  intros Hre Hno. unfold substitute.
  destruct (get_cached_regex pattern st) as [re' st']. cbn [fst snd] in *. subst re'.
  rewrite !regex_replace_no_match by exact Hno.
  destruct (String.eqb fn "sub"); rewrite ?String.eqb_refl; [reflexivity|].
  unfold count_matches. cbn [count_loop]. rewrite Hno. reflexivity.
Qed.

End NoMatch.

(** ** Programs without jumps *)

Section JumpFree.
Context {host : Host} {engine : RegexLib} {library : Library}.

Lemma execute_jump_free :
  forall s st, jump_free s = true -> normal_or_exit (execute s st).1.
Proof.
  fix IH 1. intros [e|args|ss|c t e| | | | |status|value] st Hj;
    try discriminate Hj.
  - cbn [execute]. destruct (evaluate e st). now left.
  - cbn [execute].
    destruct (match args with [] => _ | _ => _ end) as [].
    destruct (get_cached_ors _). now left.
  - cbn [execute jump_free] in *. revert st.
    induction ss as [|s ss IHss]; intros st; [now left|].
    cbn [forallb] in Hj. apply andb_true_iff in Hj as [Hs Hss].
    pose proof (IH s st Hs) as H1.
    destruct (execute s st) as [[|e|what] st1]; cbn [fst] in *.
    + apply IHss. exact Hss.
    + exact H1.
    + exact H1.
  - cbn [execute jump_free] in *. apply andb_true_iff in Hj as [Ht He].
    destruct (evaluate c st) as [v st1]. destruct (is_truthy v).
    + now apply IH.
    + destruct e as [e|]; [now apply IH|now left].
  - cbn [execute]. destruct status as [e|].
    + destruct (evaluate e st). right. eauto.
    + right. eauto.
Qed.

Lemma execute_rules_of_jump_free ty index rules st :
  forallb rule_jump_free rules = true ->
  normal_or_exit (execute_rules_of ty index rules st).1.
Proof.
  revert index st; induction rules as [|r rules IH]; intros index st Hj;
    cbn [execute_rules_of]; [now left|].
  cbn [forallb] in Hj. apply andb_true_iff in Hj as [Hr Hrs].
  destruct (PatternType_eqb _ ty); [|now apply IH].
  unfold rule_jump_free in Hr. destruct (action r) as [a|]; [|now apply IH].
  pose proof (execute_jump_free a (log (EvRule ty index) st) Hr) as H1.
  destruct (execute a _) as [[|e|what] st1]; cbn [fst] in *;
    [now apply IH|exact H1|exact H1].
Qed.

Lemma same_rule_refl r : same_rule r r.
Proof. repeat split. Qed.

Lemma pattern_matches_pattern p st :
  (pattern_matches p st).1.2 = p
  \/ type p = RANGE /\ exists b, (pattern_matches p st).1.2 = set_range_active b p.
Proof.
  unfold pattern_matches.
  destruct (type p) eqn:Hty; try (now left).
  - destruct (expr p) as [e|]; [destruct (evaluate e st)|]; now left.
  - destruct (expr p) as [e|]; [|now left].
    destruct (evaluate e st) as [v s1]. destruct (regex_match _ v s1). now left.
  - destruct (range_active p).
    + destruct (eval_range_expr (range_end p) st) as [[] s1]; cbn [fst snd];
        [right; eauto|now left].
    + destruct (eval_range_expr (expr p) st) as [[] s1]; [|now left].
      destruct (eval_range_expr (range_end p) s1) as [[] s2]; cbn [fst snd negb];
        [now left|right; eauto].
Qed.

Lemma pattern_matches_same p st :
  let p' := (pattern_matches p st).1.2 in
  type p' = type p /\ expr p' = expr p /\ range_end p' = range_end p
  /\ (type p <> RANGE -> range_active p' = range_active p).
Proof.
  cbv zeta. destruct (pattern_matches_pattern p st) as [->|[Hty [b ->]]].
  - repeat split; reflexivity.
  - repeat split; try reflexivity. intros Hne. now contradiction Hne.
Qed.

Lemma main_rules_from_same index rules st :
  Forall2 same_rule rules (main_rules_from index rules st).1.2.
Proof.
  revert index st; induction rules as [|r rules IH]; intros index st;
    cbn [main_rules_from]; [constructor|].
  destruct (is_special _).
  { specialize (IH (S index) st).
    destruct (main_rules_from (S index) rules st) as [[o more] s1].
    constructor; [apply same_rule_refl|exact IH]. }
  pose proof (pattern_matches_same (pattern r) st) as Hp.
  destruct (pattern_matches (pattern r) st) as [[m p] s1]. cbn [fst snd] in Hp.
  assert (Hsame : same_rule r {| pattern := p; action := action r |}).
  { destruct Hp as (H1 & H2 & H3 & H4). repeat split; assumption. }
  destruct m.
  - cbn [action].
    destruct (match action r with Some a => _ | None => _ end) as [[|e|what] s2].
    + specialize (IH (S index) s2).
      destruct (main_rules_from (S index) rules s2) as [[o more] s3].
      constructor; [exact Hsame|exact IH].
    + cbn [fst snd]. constructor; [exact Hsame|].
      clear. induction rules; constructor; [apply same_rule_refl|assumption].
    + cbn [fst snd]. constructor; [exact Hsame|].
      clear. induction rules; constructor; [apply same_rule_refl|assumption].
  - specialize (IH (S index) s1).
    destruct (main_rules_from (S index) rules s1) as [[o more] s2].
    constructor; [exact Hsame|exact IH].
Qed.

Lemma same_rules_jump_free rules rules' :
  Forall2 same_rule rules rules' ->
  forallb rule_jump_free rules = true -> forallb rule_jump_free rules' = true.
Proof.
  induction 1 as [|r r' rules rules' [Ha _] _ IH]; [auto|].
  cbn [forallb]. intros H. apply andb_true_iff in H as [H1 H2].
  apply andb_true_iff. split; [|now apply IH].
  unfold rule_jump_free in *. now rewrite Ha.
Qed.

Lemma main_rules_from_jump_free index rules st :
  forallb rule_jump_free rules = true ->
  normal_or_exit (main_rules_from index rules st).1.1.
Proof.
  revert index st; induction rules as [|r rules IH]; intros index st Hj;
    cbn [main_rules_from]; [now left|].
  cbn [forallb] in Hj. apply andb_true_iff in Hj as [Hr Hrs].
  destruct (is_special _).
  { specialize (IH (S index) st Hrs).
    now destruct (main_rules_from (S index) rules st) as [[o more] s1]. }
  destruct (pattern_matches (pattern r) st) as [[m p] s1].
  destruct m.
  - cbn [action]. unfold rule_jump_free in Hr.
    destruct (action r) as [a|].
    + pose proof (execute_jump_free a (log (EvRule (type p) index) s1) Hr) as H1.
      destruct (execute a _) as [[|e|what] s2]; cbn [fst] in *.
      * specialize (IH (S index) s2 Hrs).
        now destruct (main_rules_from (S index) rules s2) as [[o more] s3].
      * exact H1.
      * exact H1.
    + destruct (env_get "ORS" _) as [ors s2].
      match goal with
      | |- context [main_rules_from (S index) rules ?s] =>
          specialize (IH (S index) s Hrs);
          now destruct (main_rules_from (S index) rules s) as [[o more] s3]
      end.
  - specialize (IH (S index) s1 Hrs).
    now destruct (main_rules_from (S index) rules s1) as [[o more] s2].
Qed.

Lemma process_stream_loop_jump_free fuel input program st :
  program_jump_free program = true ->
  let '(o, program', _) := process_stream_loop fuel input program st in
  normal_or_exit o /\ program_jump_free program' = true.
Proof.
  revert input program st; induction fuel as [|fuel IH]; intros input program st Hj;
    cbn [process_stream_loop]; [split; [now left|exact Hj]|].
  destruct (read_record input st) as [[ok input1] st1].
  destruct ok; [|split; [now left|exact Hj]].
  unfold execute_main_rules.
  pose proof (main_rules_from_jump_free 0 (rules program) st1 Hj) as Ho.
  pose proof (main_rules_from_same 0 (rules program) st1) as Hs.
  destruct (main_rules_from 0 (rules program) st1) as [[o rs] st2].
  cbn [fst snd] in *.
  assert (Hj' : program_jump_free {| rules := rs |} = true).
  { unfold program_jump_free. cbn [rules]. now apply (same_rules_jump_free (rules program)). }
  destruct o as [|[]|what]; try (now apply IH);
    try (destruct Ho as [Ho|[n Ho]]; discriminate Ho).
  split; [exact Ho|exact Hj'].
Qed.

Lemma process_file_jump_free w filename program st :
  program_jump_free program = true ->
  let '(o, program', _) := process_file w filename program st in
  normal_or_exit o /\ program_jump_free program' = true.
Proof.
  intros Hj. unfold process_file.
  destruct (files w !! filename) as [content|]; [|split; [now left|exact Hj]].
  unfold execute_beginfile_rules, execute_endfile_rules.
  match goal with
  | |- context [execute_rules_of BEGINFILE 0 (rules program) ?s] =>
      pose proof (execute_rules_of_jump_free BEGINFILE 0 (rules program) s Hj) as Hb;
      destruct (execute_rules_of BEGINFILE 0 (rules program) s) as [[|e|what] s1]
  end; cbn [fst] in Hb; [|split; [exact Hb|exact Hj]|split; [exact Hb|exact Hj]].
  unfold process_stream.
  match goal with
  | |- context [process_stream_loop ?f ?i program s1] =>
      pose proof (process_stream_loop_jump_free f i program s1 Hj) as Hl;
      destruct (process_stream_loop f i program s1) as [[[|e|what] p2] s2]
  end; destruct Hl as [Hl Hj2];
    [|split; [exact Hl|exact Hj2]|split; [exact Hl|exact Hj2]].
  pose proof (execute_rules_of_jump_free ENDFILE 0 (rules p2) s2 Hj2) as He.
  destruct (execute_rules_of ENDFILE 0 (rules p2) s2) as [o s3].
  split; [exact He|exact Hj2].
Qed.

Lemma process_files_jump_free w input_files program st :
  program_jump_free program = true ->
  let '(o, program', _) := process_files w input_files program st in
  normal_or_exit o /\ program_jump_free program' = true.
Proof.
  revert program st; induction input_files as [|f more IH]; intros program st Hj;
    cbn [process_files]; [split; [now left|exact Hj]|].
  pose proof (process_file_jump_free w f program st Hj) as Hf.
  destruct (process_file w f program st) as [[o p1] s1]. destruct Hf as [Hf Hj1].
  destruct o as [|[]|what]; try (now apply IH);
    try (destruct Hf as [Hf|[n Hf]]; discriminate Hf).
  split; [exact Hf|exact Hj1].
Qed.

Lemma run_rules_jump_free w program input_files st :
  program_jump_free program = true ->
  normal_or_exit (run_rules w program input_files st).1.1.
Proof.
  intros Hj. unfold run_rules, execute_begin_rules, execute_end_rules.
  pose proof (execute_rules_of_jump_free BEGIN 0 (rules program) st Hj) as Hb.
  destruct (execute_rules_of BEGIN 0 (rules program) st) as [[|e|what] s1];
    cbn [fst] in Hb; [|exact Hb|exact Hb].
  assert (Hfiles :
    let '(o, program', _) :=
      match input_files with
      | [] => process_stream (open_stream (stdin w)) program
                (env_set "FILENAME" (AWKValue.STRING "") s1)
      | _ :: _ => process_files w input_files program s1
      end in
    normal_or_exit o /\ program_jump_free program' = true).
  { destruct input_files as [|f more].
    - unfold process_stream. now apply process_stream_loop_jump_free.
    - now apply process_files_jump_free. }
  destruct (match input_files with [] => _ | _ => _ end) as [[o p2] s2].
  destruct Hfiles as [Ho Hj2]. destruct o as [|e|what]; [|exact Ho|exact Ho].
  pose proof (execute_rules_of_jump_free END 0 (rules p2) s2 Hj2) as He.
  now destruct (execute_rules_of END 0 (rules p2) s2) as [o s3].
Qed.

End JumpFree.

Lemma set_error_twice x y st : set_error_ y (set_error_ x st) = set_error_ y st.
Proof. reflexivity. Qed.

(** ** Numbers *)

Section Numbers.
Context {host : Host}.

Lemma trunc_inject_Z n : trunc (inject_Z n) = n.
Proof. unfold trunc, inject_Z. cbn [Qnum Qden]. apply Z.quot_1_r. Qed.

End Numbers.

(** ** Rounding *)

Lemma round_half_even_Z k q : (q == inject_Z k)%Q -> round_half_even q = k.
Proof.
  intros H. unfold round_half_even.
  assert (Hf : Qfloor q = k) by (rewrite H; apply Qfloor_Z).
  rewrite Hf.
  assert (Hc : ((q - inject_Z k) ?= (1 # 2))%Q = Lt).
  { apply Qlt_alt. rewrite H.
    assert (E : (inject_Z k - inject_Z k == 0)%Q) by ring.
    rewrite E. reflexivity. }
  now rewrite Hc.
Qed.

(** A number that is a whole multiple of the distance between the
    doubles around it is a double: rounding gives the number itself. *)
Lemma round_double_exact q k :
  (q == inject_Z k * Qpower 2 (ilog2 q - 52))%Q -> round_double q = q.
Proof.
  intros H. unfold round_double.
  destruct (Qeq_bool q 0) eqn:Hz; [reflexivity|].
  assert (Hu : ~ (Qpower 2 (ilog2 q - 52) == 0)%Q).
  { apply Qpower_not_0. discriminate. }
  rewrite (round_half_even_Z k).
  - replace (Qeq_bool _ q) with true; [reflexivity|].
    symmetry. apply Qeq_bool_iff. symmetry. exact H.
  - rewrite H at 1. field. exact Hu.
Qed.

Lemma ilog2_inject_Z z : z <> 0 -> ilog2 (inject_Z z) = Z.log2 (Z.abs z).
Proof.
  intros Hz. unfold ilog2. cbn [Qnum Qden inject_Z].
  change (Z.log2 1) with 0. rewrite Z.sub_0_r.
  replace (Qle_bool _ _) with true; [reflexivity|].
  symmetry. apply Qle_bool_iff.
  change 2%Q with (inject_Z 2).
  rewrite <- Zpower_Qpower by apply Z.log2_nonneg.
  change (Qabs (inject_Z z)) with (inject_Z (Z.abs z)).
  rewrite <- Zle_Qle. apply Z.log2_spec. lia.
Qed.

(** The whole numbers up to 2^53 are doubles. *)
Lemma round_double_inject_Z z :
  - 2 ^ 53 <= z <= 2 ^ 53 -> round_double (inject_Z z) = inject_Z z.
Proof.
  intros Hz. destruct (Z.eq_dec z 0) as [->|Hne]; [reflexivity|].
  set (e := Z.log2 (Z.abs z)).
  assert (He : 0 <= e <= 53).
  { split; [apply Z.log2_nonneg|].
    subst e. change 53 with (Z.log2 (2 ^ 53)). apply Z.log2_le_mono. lia. }
  destruct (Z.eq_dec e 53) as [E|E].
  - assert (Habs : Z.abs z = 2 ^ 53).
    { pose proof (Z.log2_spec (Z.abs z) ltac:(lia)) as [Hl _].
      fold e in Hl. rewrite E in Hl. lia. }
    apply (round_double_exact _ (z / 2)).
    rewrite ilog2_inject_Z by exact Hne. fold e. rewrite E.
    change (Qpower 2 (53 - 52)) with 2%Q.
    change 2%Q with (inject_Z 2). rewrite <- inject_Z_mult.
    apply inject_Z_injective.
    destruct (Z.abs_eq_or_opp z) as [H|H]; rewrite Habs in H.
    + rewrite <- H. reflexivity.
    + replace z with (- 2 ^ 53) by lia. reflexivity.
  - apply (round_double_exact _ (z * 2 ^ (52 - e))).
    rewrite ilog2_inject_Z by exact Hne. fold e.
    replace (e - 52) with (- (52 - e)) by lia.
    rewrite Qpower_opp, inject_Z_mult.
    change 2%Q with (inject_Z 2).
    rewrite <- Zpower_Qpower by lia.
    assert (Hp : ~ (inject_Z (2 ^ (52 - e)) == 0)%Q).
    { change 0%Q with (inject_Z 0). rewrite inject_Z_injective.
      apply Z.pow_nonzero; lia. }
    field. exact Hp.
Qed.

Lemma to_double_exact z : - 2 ^ 53 <= z <= 2 ^ 53 -> to_double z = inject_Z z.
Proof. apply round_double_inject_Z. Qed.

(** ** The values of the variables *)

Lemma scope_stack_get_variable name env :
  Environment.scope_stack_ (Environment.get_variable name env).2
  = Environment.scope_stack_ env.
Proof.
  unfold Environment.get_variable.
  destruct (Environment.find_scope name _); [reflexivity|].
  destruct (str_find "::" name); [|reflexivity].
  destruct (Environment.find_scope _ _); [reflexivity|].
  now destruct (_ && _).
Qed.

Lemma value_of_get_variable other name env :
  str_find "::" other = None ->
  value_of other (Environment.get_variable name env).2 = value_of other env.
Proof.
  intros Hsep. rewrite !value_of_unqualified by exact Hsep.
  rewrite scope_stack_get_variable.
  destruct (Environment.find_scope other _); [reflexivity|].
  apply (read_get_variable (Environment.in_globals other)).
Qed.

Section Values.
Context {host : Host} {engine : RegexLib} {library : Library}.

Lemma env_get_value name st : (env_get name st).1 = value_of name (env_ st).
Proof.
  unfold env_get, value_of. now destruct (Environment.get_variable name (env_ st)).
Qed.

Lemma value_of_env_get other name st :
  str_find "::" other = None ->
  value_of other (env_ (env_get name st).2) = value_of other (env_ st).
Proof.
  intros Hsep. unfold env_get.
  pose proof (value_of_get_variable other name (env_ st) Hsep) as H.
  now destruct (Environment.get_variable name (env_ st)).
Qed.

Lemma value_of_env_set_same name v st :
  str_find "::" name = None -> value_of name (env_ (env_set name v st)) = v.
Proof. intros Hsep. rewrite <- env_get_value. now apply env_get_env_set. Qed.

Lemma value_of_env_set_other other name v st :
  str_find "::" other = None -> str_find "::" name = None -> other <> name ->
  value_of other (env_ (env_set name v st)) = value_of other (env_ st).
Proof.
  intros Ho Hn Hne. unfold env_set, Environment.get_variable. rewrite Hn.
  rewrite !value_of_unqualified by exact Ho.
  destruct (Environment.find_scope name (Environment.scope_stack_ (env_ st)))
    as [i|] eqn:Hf.
  - cbn [env_ set_env_ Environment.write Environment.scope_stack_ Environment.globals_].
    rewrite find_scope_alter_other by now left.
    destruct (Environment.find_scope other _) as [k|]; [|reflexivity].
    rewrite list_lookup_alter.
    destruct (decide (i = k)) as [->|Hik]; [|reflexivity].
    destruct (Environment.scope_stack_ (env_ st) !! k) as [sc|]; [|reflexivity].
    cbn. now rewrite lookup_insert_ne by congruence.
  - unfold Environment.global_entry.
    cbn [env_ set_env_ Environment.write Environment.scope_stack_ Environment.globals_].
    destruct (Environment.find_scope other _); [reflexivity|].
    rewrite lookup_insert_ne by congruence.
    destruct (Environment.globals_ (env_ st) !! name); [reflexivity|].
    now rewrite lookup_insert_ne by congruence.
Qed.

Lemma reads_frame_value_of other :
  str_find "::" other = None -> other <> "NF" ->
  reads_frame (fun st => value_of other (env_ st)).
Proof.
  intros Ho Hne. split; [|split].
  - intros name st. now apply value_of_env_get.
  - intros v st. now apply value_of_env_set_other.
  - repeat split; intros; reflexivity.
Qed.

Lemma reads_frame_output : reads_frame output_.
Proof.
  split; [|split].
  - intros name st. apply (frame_env_get output_ env_frame_output_).
  - intros v st. apply (frame_env_set output_ env_frame_output_).
  - repeat split; intros; reflexivity.
Qed.

Section ReadsFrames.
Context {A : Type} (f : Interp -> A) (Hf : reads_frame f).

Lemma reads_refresh st : f (refresh_special_var_cache st) = f st.
Proof.
  destruct Hf as (Hg & _ & Hc & Hd & _).
  unfold refresh_special_var_cache.
  destruct (negb (special_vars_dirty_ st)); [reflexivity|].
  pose proof (Hg "RS" st) as H1.
  destruct (env_get "RS" st) as [rs s1]. cbn [snd] in H1.
  pose proof (Hg "FS" s1) as H2.
  destruct (env_get "FS" s1) as [fs s2]. cbn [snd] in H2.
  pose proof (Hg "OFS" s2) as H3.
  destruct (env_get "OFS" s2) as [ofs s3]. cbn [snd] in H3.
  pose proof (Hg "ORS" s3) as H4.
  destruct (env_get "ORS" s3) as [ors s4]. cbn [snd] in H4.
  pose proof (Hg "OFMT" s4) as H5.
  destruct (env_get "OFMT" s4) as [ofmt s5]. cbn [snd] in H5.
  pose proof (Hg "FPAT" s5) as H6.
  destruct (env_get "FPAT" s5) as [fpat s6]. cbn [snd] in H6.
  pose proof (Hg "SUBSEP" s6) as H7.
  destruct (env_get "SUBSEP" s6) as [subsep s7]. cbn [snd] in H7.
  rewrite Hd, Hc. congruence.
Qed.

Lemma reads_get_cached g st : f (get_cached g st).2 = f st.
Proof. unfold get_cached. cbn [snd]. apply reads_refresh. Qed.

Lemma reads_get_cached_regex pattern st : f (get_cached_regex pattern st).2 = f st.
Proof.
  destruct Hf as (Hg & _). unfold get_cached_regex.
  pose proof (Hg "IGNORECASE" st) as H1. now destruct (env_get "IGNORECASE" st).
Qed.

Lemma reads_finish_parse st : f (finish_parse st) = f st.
Proof.
  destruct Hf as (_ & Hnf & _ & _ & _ & _ & Hfd & Hrd & _).
  unfold finish_parse, set_NF. now rewrite Hfd, Hrd, Hnf.
Qed.

Lemma reads_parse_fields st : f (parse_fields st) = f st.
Proof.
  pose proof Hf as (Hg & Hnf & Hc & Hd & He & Hfs & Hfd & Hrd & Hfv).
  unfold parse_fields. destruct (negb (record_dirty_ st)); [reflexivity|].
  cbv zeta.
  set (s0 := set_field_values_valid_ _ (set_fields_ [] st)).
  assert (H0 : f s0 = f st) by (subst s0; now rewrite Hfv, Hfs).
  rewrite <- H0. clear H0.
  pose proof (reads_get_cached cached_fpat_ s0) as H1.
  unfold get_cached_fpat.
  destruct (get_cached cached_fpat_ s0) as [fpat s1]. cbn [snd] in H1.
  destruct (negb (str_empty fpat)).
  - pose proof (reads_get_cached_regex fpat s1) as H2.
    destruct (get_cached_regex fpat s1) as [[re|what] s2]; cbn [snd] in H2;
      rewrite reads_finish_parse, Hfs.
    + congruence.
    + unfold write_error. rewrite He. congruence.
  - pose proof (reads_get_cached cached_fs_ s1) as H2.
    unfold get_cached_fs.
    destruct (get_cached cached_fs_ s1) as [fs s2]. cbn [snd] in H2.
    rewrite reads_finish_parse.
    assert (Hre : f (let '(re, st) := get_cached_regex fs s2 in
                     match re with
                     | inl re => set_fields_ (regex_tokens re (current_record_ st)) st
                     | inr what =>
                         let st := write_error ("awk: FS: invalid regex '" ++ fs ++ "': "
                                                ++ what ++ newline) st in
                         set_fields_ [current_record_ st] st
                     end) = f s0).
    { pose proof (reads_get_cached_regex fs s2) as H3.
      destruct (get_cached_regex fs s2) as [[re|what] s3]; cbn [snd] in H3;
        cbv zeta; rewrite Hfs; [congruence|].
      unfold write_error. rewrite He. congruence. }
    destruct fs as [|c fs]; [exact Hre|].
    destruct c as [[] [] [] [] [] [] [] []]; destruct fs;
      first [exact Hre | rewrite Hfs; congruence].
Qed.

End ReadsFrames.
End Values.

(** ** The steps of splitting a record *)

Section ParseSteps.
Context {host : Host} {engine : RegexLib} {library : Library}.

Lemma parse_steps_get_cached_regex pattern st :
  parse_steps st (get_cached_regex pattern st).2.
Proof.
  unfold get_cached_regex. pose proof (parse_steps_env_get "IGNORECASE" st) as H.
  now destruct (env_get "IGNORECASE" st).
Qed.

Lemma parse_steps_finish_parse st : parse_steps st (finish_parse st).
Proof.
  unfold finish_parse, set_NF.
  eapply parse_steps_trans; [apply parse_steps_set_NF|].
  eapply parse_steps_trans; [apply parse_steps_record_dirty|].
  apply parse_steps_fields_dirty.
Qed.

Lemma parse_fields_steps st : parse_steps st (parse_fields st).
Proof.
  unfold parse_fields. destruct (negb (record_dirty_ st)); [constructor|].
  cbv zeta.
  set (s0 := set_field_values_valid_ _ (set_fields_ [] st)).
  apply parse_steps_trans with s0.
  { subst s0. eapply parse_steps_trans; [apply (parse_steps_fields [])|].
    apply parse_steps_flags. }
  clearbody s0.
  unfold get_cached_fpat, get_cached_fs, get_cached.
  apply parse_steps_trans with (refresh_special_var_cache s0);
    [apply parse_steps_refresh|].
  generalize (refresh_special_var_cache s0). intros s1.
  destruct (negb (str_empty _)).
  - pose proof (parse_steps_get_cached_regex (cached_fpat_ (cached_ s1)) s1) as H2.
    destruct (get_cached_regex _ s1) as [[re|what] s2]; cbn [snd] in H2;
      (eapply parse_steps_trans; [exact H2|]);
      (eapply parse_steps_trans; [|apply parse_steps_finish_parse]).
    + apply parse_steps_fields.
    + eapply parse_steps_trans; [apply parse_steps_error|apply parse_steps_fields].
  - apply parse_steps_trans with (refresh_special_var_cache s1);
      [apply parse_steps_refresh|].
    generalize (refresh_special_var_cache s1). intros s2.
    eapply parse_steps_trans; [|apply parse_steps_finish_parse].
    assert (Hre : forall fs, parse_steps s2
              (let '(re, st) := get_cached_regex fs s2 in
               match re with
               | inl re => set_fields_ (regex_tokens re (current_record_ st)) st
               | inr what =>
                   let st := write_error ("awk: FS: invalid regex '" ++ fs ++ "': "
                                          ++ what ++ newline) st in
                   set_fields_ [current_record_ st] st
               end)).
    { intros fs. pose proof (parse_steps_get_cached_regex fs s2) as H3.
      destruct (get_cached_regex fs s2) as [[re|what] s3]; cbn [snd] in H3;
        (eapply parse_steps_trans; [exact H3|]).
      - apply parse_steps_fields.
      - eapply parse_steps_trans; [apply parse_steps_error|apply parse_steps_fields]. }
    destruct (cached_fs_ (cached_ s2)) as [|c fs]; [apply Hre|].
    destruct c as [[] [] [] [] [] [] [] []]; destruct fs;
      first [apply Hre | apply parse_steps_fields].
Qed.

End ParseSteps.

(** ** Counting records *)

Lemma line_count_take_line b p :
  match take_line "010" b with
  | (_, Some r) => line_count_from p b = S (line_count_from false r)
  | (_, None) =>
      line_count_from p b = if p || negb (str_empty b) then 1%nat else 0%nat
  end.
Proof.
  revert p; induction b as [|c r IH]; intros p; cbn [take_line line_count_from].
  - cbn. now rewrite orb_false_r.
  - destruct (Ascii.eqb c "010"); [reflexivity|].
    specialize (IH true). destruct (take_line "010" r) as [l [k|]]; [exact IH|].
    rewrite IH. cbn. now rewrite orb_true_r.
Qed.

Lemma inject_Z_succ n : (inject_Z n + 1)%Q = inject_Z (n + 1).
Proof. unfold Qplus, inject_Z. cbn [Qnum Qden]. f_equal. lia. Qed.

Section Counting.
Context {host : Host} {engine : RegexLib} {library : Library}.

Lemma refresh_cached_rs st :
  special_vars_dirty_ st = true ->
  cached_rs_ (cached_ (refresh_special_var_cache st))
  = AWKValue.to_string (value_of "RS" (env_ st)).
Proof.
  intros Hd. unfold refresh_special_var_cache. rewrite Hd. cbn [negb].
  rewrite <- env_get_value.
  destruct (env_get "RS" st) as [rs s1].
  destruct (env_get "FS" s1) as [fs s2].
  destruct (env_get "OFS" s2) as [ofs s3].
  destruct (env_get "ORS" s3) as [ors s4].
  destruct (env_get "OFMT" s4) as [ofmt s5].
  destruct (env_get "FPAT" s5) as [fpat s6].
  destruct (env_get "SUBSEP" s6) as [subsep s7].
  reflexivity.
Qed.

Lemma get_cached_rs_line_mode st :
  line_mode st ->
  (get_cached_rs st).1 = newline /\ line_mode (get_cached_rs st).2.
Proof.
  intros [Hrs Hc]. unfold get_cached_rs, get_cached. cbn [fst snd].
  assert (Hv : value_of "RS" (env_ (refresh_special_var_cache st))
               = value_of "RS" (env_ st)).
  { apply (reads_refresh (fun s => value_of "RS" (env_ s))).
    apply reads_frame_value_of; [reflexivity|discriminate]. }
  assert (Hcr : cached_rs_ (cached_ (refresh_special_var_cache st)) = newline).
  { destruct (special_vars_dirty_ st) eqn:Hd.
    - now rewrite refresh_cached_rs.
    - rewrite refresh_clean by exact Hd. now apply Hc. }
  split; [exact Hcr|]. split; [now rewrite Hv|]. intros _. exact Hcr.
Qed.

Lemma cached_env_get name st :
  cached_ (env_get name st).2 = cached_ st
  /\ special_vars_dirty_ (env_get name st).2 = special_vars_dirty_ st.
Proof. unfold env_get. now destruct (Environment.get_variable name (env_ st)). Qed.

Lemma line_mode_steps st st' : parse_steps st st' -> line_mode st -> line_mode st'.
Proof.
  induction 1 as [st|st1 st2 st3 _ IH1 _ IH2|name st|st|v st|m st|x st|b st|st|x st];
    intros Hlm; auto.
  - destruct Hlm as [Hrs Hc]. split.
    + now rewrite value_of_env_get by reflexivity.
    + destruct (cached_env_get name st) as [-> ->]. exact Hc.
  - now apply get_cached_rs_line_mode in Hlm as [_ Hlm].
  - destruct Hlm as [Hrs Hc]. split.
    + now rewrite value_of_env_set_other by (first [reflexivity|discriminate]).
    + destruct (cached_env_set "NF" v st) as [-> ->]. exact Hc.
Qed.

Lemma getline_result input str :
  (getline input str).1 = (getline input "").1
  /\ (getline input str).2
     = if good input then (getline input "").2 else str.
Proof.
  unfold getline. destruct (good input); cbn [negb]; [|now split].
  destruct (buffer input) as [|c b]; [now split|].
  now destruct (take_line "010" (String c b)) as [l [r|]].
Qed.

Lemma getline_fails input :
  (getline input "").1.1 = false -> (getline input "").2 = "".
Proof.
  unfold getline. destruct (good input); cbn [negb]; [|reflexivity].
  destruct (buffer input) as [|c b]; [reflexivity|].
  destruct (take_line "010" (String c b)) as [l [r|]]; discriminate.
Qed.

Ltac value_frame :=
  repeat first
    [ rewrite value_of_env_set_other by (first [reflexivity | discriminate])
    | rewrite value_of_env_get by reflexivity ].

Lemma read_record_line input st :
  line_mode st ->
  let '(ok, input', st') := read_record input st in
  (ok, input') = (getline input "").1
  /\ line_mode st'
  /\ output_ st' = output_ st
  /\ value_of "NR" (env_ st')
     = (if ok
        then AWKValue.NUMBER
               (round_double (AWKValue.to_number (value_of "NR" (env_ st)) + 1))
        else value_of "NR" (env_ st))
  /\ value_of "FNR" (env_ st')
     = (if ok
        then AWKValue.NUMBER
               (round_double (AWKValue.to_number (value_of "FNR" (env_ st)) + 1))
        else value_of "FNR" (env_ st))
  /\ (ok = false ->
      value_of "RT" (env_ st') = AWKValue.STRING ""
      /\ value_of "NF" (env_ st') = value_of "NF" (env_ st)
      /\ fields_ st' = fields_ st
      /\ record_dirty_ st' = record_dirty_ st
      /\ fields_dirty_ st' = fields_dirty_ st
      /\ current_record_ st' = if good input then "" else current_record_ st).
Proof.
  intros Hlm. unfold read_record.
  destruct (get_cached_rs_line_mode st Hlm) as [Hrs [Hrs1 Hc1]].
  assert (Hval : forall other, str_find "::" other = None ->
            value_of other (env_ (get_cached_rs st).2) = value_of other (env_ st)).
  { intros other Ho. unfold get_cached_rs, get_cached. cbn [snd].
    unfold refresh_special_var_cache.
    destruct (negb (special_vars_dirty_ st)); [reflexivity|].
    pose proof (value_of_env_get other "RS" st Ho) as H1.
    destruct (env_get "RS" st) as [rs s1]. cbn [snd] in H1.
    pose proof (value_of_env_get other "FS" s1 Ho) as H2.
    destruct (env_get "FS" s1) as [fs s2]. cbn [snd] in H2.
    pose proof (value_of_env_get other "OFS" s2 Ho) as H3.
    destruct (env_get "OFS" s2) as [ofs s3]. cbn [snd] in H3.
    pose proof (value_of_env_get other "ORS" s3 Ho) as H4.
    destruct (env_get "ORS" s3) as [ors s4]. cbn [snd] in H4.
    pose proof (value_of_env_get other "OFMT" s4 Ho) as H5.
    destruct (env_get "OFMT" s4) as [ofmt s5]. cbn [snd] in H5.
    pose proof (value_of_env_get other "FPAT" s5 Ho) as H6.
    destruct (env_get "FPAT" s5) as [fpat s6]. cbn [snd] in H6.
    pose proof (value_of_env_get other "SUBSEP" s6 Ho) as H7.
    destruct (env_get "SUBSEP" s6) as [subsep s7]. cbn [snd] in H7.
    cbn [env_ set_special_vars_dirty_ set_cached_]. congruence. }
  assert (Hfr : forall {A} (f : Interp -> A), env_frame f ->
            f (get_cached_rs st).2 = f st).
  { intros A f Hf. unfold get_cached_rs. now apply frame_get_cached. }
  destruct (get_cached_rs st) as [rs s1]. cbn [fst snd] in *. subst rs.
  change (match newline with
          | "" => read_record_paragraph_mode input
          | String c "" =>
              if Ascii.eqb c "010"
              then read_record_line_mode input (current_record_ s1)
              else read_record_single_char_mode input c
          | String c (String _ _) =>
              read_record_multi_char_mode input (current_record_ s1)
          end) with (read_record_line_mode input (current_record_ s1)).
  unfold read_record_line_mode.
  destruct (getline_result input (current_record_ s1)) as [Hg1 Hg2].
  pose proof (getline_fails input) as Hg3.
  destruct (getline input (current_record_ s1)) as [[ok i1] rec].
  destruct (getline input "") as [[ok0 i0] rec0]. cbn [fst snd] in *.
  injection Hg1 as <- <-.
  destruct ok; cbn [negb].
  - destruct (env_get "NR" _) as [nr s4] eqn:E4.
    destruct (env_get "FNR" s4) as [fnr s5] eqn:E5.
    assert (Hs4 : s4 = (env_get "NR"
                          (env_set "RT" (AWKValue.STRING newline)
                             (set_current_record_ rec s1))).2) by now rewrite E4.
    assert (Hs5 : s5 = (env_get "FNR" s4).2) by now rewrite E5.
    assert (Hnr : nr = value_of "NR" (env_ st)).
    { replace nr with (env_get "NR"
                         (env_set "RT" (AWKValue.STRING newline)
                            (set_current_record_ rec s1))).1 by now rewrite E4.
      rewrite env_get_value. value_frame. cbn [env_ set_current_record_].
      now apply Hval. }
    assert (Hfnr : fnr = value_of "FNR" (env_ st)).
    { replace fnr with (env_get "FNR" s4).1 by now rewrite E5.
      rewrite env_get_value, Hs4. value_frame. cbn [env_ set_current_record_].
      now apply Hval. }
    clear E4 E5.
    split; [reflexivity|].
    split; [|split; [|split; [|split; [|discriminate]]]].
    + apply (line_mode_steps _ _ (parse_fields_steps _)). split.
      * cbn [env_ set_record_dirty_ set_special_vars_dirty_].
        value_frame. rewrite Hs5, Hs4. value_frame.
        cbn [env_ set_current_record_]. exact Hrs1.
      * cbn [special_vars_dirty_ set_record_dirty_ set_special_vars_dirty_].
        discriminate.
    + rewrite (reads_parse_fields output_ reads_frame_output).
      cbn [output_ set_record_dirty_ set_special_vars_dirty_].
      rewrite !(frame_env_set output_ env_frame_output_), Hs5, Hs4.
      rewrite !(frame_env_get output_ env_frame_output_).
      rewrite (frame_env_set output_ env_frame_output_).
      cbn [output_ set_current_record_]. now apply Hfr, env_frame_output_.
    + rewrite (reads_parse_fields (fun s => value_of "NR" (env_ s)))
        by (apply reads_frame_value_of; [reflexivity|discriminate]).
      cbn [env_ set_record_dirty_ set_special_vars_dirty_].
      value_frame. rewrite value_of_env_set_same by reflexivity. now rewrite Hnr.
    + rewrite (reads_parse_fields (fun s => value_of "FNR" (env_ s)))
        by (apply reads_frame_value_of; [reflexivity|discriminate]).
      cbn [env_ set_record_dirty_ set_special_vars_dirty_].
      rewrite value_of_env_set_same by reflexivity. now rewrite Hfnr.
  - split; [reflexivity|].
    split; [|split; [|split; [|split]]].
    + split.
      * value_frame. cbn [env_ set_current_record_]. exact Hrs1.
      * destruct (cached_env_set "RT" (AWKValue.STRING "") (set_current_record_ rec s1))
          as [-> ->]. exact Hc1.
    + rewrite (frame_env_set output_ env_frame_output_).
      cbn [output_ set_current_record_]. now apply Hfr, env_frame_output_.
    + value_frame. cbn [env_ set_current_record_]. now apply Hval.
    + value_frame. cbn [env_ set_current_record_]. now apply Hval.
    + intros _. split; [now apply value_of_env_set_same|].
      split; [value_frame; cbn [env_ set_current_record_]; now apply Hval|].
      rewrite (frame_env_set fields_ env_frame_fields_).
      rewrite (frame_env_set record_dirty_ env_frame_record_dirty_).
      rewrite (frame_env_set fields_dirty_ env_frame_fields_dirty_).
      rewrite (frame_env_set current_record_ env_frame_current_record_).
      cbn [fields_ record_dirty_ fields_dirty_ current_record_ set_current_record_].
      rewrite (Hfr _ fields_ env_frame_fields_).
      rewrite (Hfr _ record_dirty_ env_frame_record_dirty_).
      rewrite (Hfr _ fields_dirty_ env_frame_fields_dirty_).
      repeat split. rewrite Hg2.
      destruct (good input); [now apply Hg3|].
      now apply (Hfr _ current_record_ env_frame_current_record_).
Qed.

Lemma getline_records input :
  let '(ok, input', _) := getline input "" in
  records_left input = if ok then S (records_left input') else 0%nat.
Proof.
  unfold getline, records_left, line_count.
  destruct (good input); cbn [negb]; [|reflexivity].
  destruct (buffer input) as [|c b]; [reflexivity|].
  pose proof (line_count_take_line (String c b) false) as H.
  destruct (take_line "010" (String c b)) as [l [r|]]; cbn [good buffer at_eof];
    exact H.
Qed.

Lemma main_rules_from_special index rules st :
  Forall (fun r => is_special (type (pattern r)) = true) rules ->
  main_rules_from index rules st = (Normal, rules, st).
Proof.
  intros Hall. revert index. induction Hall as [|r rules Hr _ IH]; intros index;
    cbn [main_rules_from]; [reflexivity|].
  now rewrite Hr, IH.
Qed.

Lemma process_stream_loop_counts fuel input program st (n m : Z) :
  only_special_rules program ->
  (remaining input < fuel)%nat ->
  line_mode st ->
  value_of "NR" (env_ st) = AWKValue.NUMBER (inject_Z n) ->
  value_of "FNR" (env_ st) = AWKValue.NUMBER (inject_Z m) ->
  - 2 ^ 53 <= n -> n + Z.of_nat (records_left input) <= 2 ^ 53 ->
  - 2 ^ 53 <= m -> m + Z.of_nat (records_left input) <= 2 ^ 53 ->
  exists st',
    process_stream_loop fuel input program st = (Normal, program, st')
    /\ value_of "NR" (env_ st')
       = AWKValue.NUMBER (inject_Z (n + Z.of_nat (records_left input)))
    /\ value_of "FNR" (env_ st')
       = AWKValue.NUMBER (inject_Z (m + Z.of_nat (records_left input)))
    /\ output_ st' = output_ st.
Proof.
  intros Hsp. revert input st n m.
  induction fuel as [|fuel IH];
    intros input st n m Hfuel Hlm Hnr Hfnr Hn1 Hn2 Hm1 Hm2; [lia|].
  cbn [process_stream_loop].
  pose proof (read_record_line input st Hlm) as Hr.
  pose proof (getline_records input) as Hrec.
  pose proof (getline_remaining input "") as Hrem.
  destruct (read_record input st) as [[ok input1] st1].
  destruct (getline input "") as [[ok0 i0] rec0]. cbn [fst] in Hr.
  destruct Hr as (Hok & Hlm1 & Hout & Hnr1 & Hfnr1 & _).
  injection Hok as -> ->.
  destruct ok0.
  - unfold execute_main_rules. rewrite (main_rules_from_special 0 _ st1 Hsp).
    rewrite Hnr, Hfnr in *. cbn [AWKValue.to_number] in *.
    rewrite Hrec in Hn2, Hm2.
    rewrite inject_Z_succ, round_double_inject_Z in Hnr1, Hfnr1 by lia.
    destruct Hrem as [_ Hrem]. specialize (Hrem eq_refl).
    destruct (IH i0 st1 (n + 1) (m + 1) ltac:(lia) Hlm1 Hnr1 Hfnr1
                ltac:(lia) ltac:(lia) ltac:(lia) ltac:(lia))
      as (st' & Hloop & Hn' & Hm' & Ho').
    exists st'. replace {| rules := rules program |} with program by now destruct program.
    rewrite Hloop. split; [reflexivity|]. rewrite Hrec.
    split; [rewrite Hn'; do 2 f_equal; lia|].
    split; [rewrite Hm'; do 2 f_equal; lia|]. congruence.
  - exists st1. split; [reflexivity|]. rewrite Hrec, !Z.add_0_r.
    split; [congruence|]. split; congruence.
Qed.

End Counting.

(** ** Expressions without effect *)

Section Pure.
Context {host : Host} {engine : RegexLib} {library : Library}.

Lemma only_looked_up_refl st : only_looked_up st st.
Proof. split; [reflexivity|now destruct st]. Qed.

Lemma only_looked_up_trans st1 st2 st3 :
  only_looked_up st1 st2 -> only_looked_up st2 st3 -> only_looked_up st1 st3.
Proof.
  intros [H1 H2] [H3 H4]. split; [intros r; now rewrite H3|].
  rewrite <- H2 at 3. rewrite <- H4. reflexivity.
Qed.

Lemma only_looked_up_env_get name st : only_looked_up st (env_get name st).2.
Proof.
  split; [intros r; apply env_get_read|].
  unfold env_get. destruct (Environment.get_variable name (env_ st)).
  now destruct st.
Qed.

Lemma only_looked_up_regex_match text pattern st :
  only_looked_up st (regex_match text pattern st).2.
Proof.
  unfold regex_match, get_cached_regex.
  pose proof (only_looked_up_env_get "IGNORECASE" st) as H.
  destruct (env_get "IGNORECASE" st) as [ic s1]. cbn [snd] in H.
  destruct (regex_compile _ _) as [re|what]; [exact H|]. cbn [snd].
  eapply only_looked_up_trans; [exact H|].
  split; [reflexivity|now destruct s1].
Qed.

Lemma pure_expression_only_looks_up :
  forall e st, pure e = true -> only_looked_up st (evaluate e st).2.
Proof.
  fix IH 1.
  intros [v|p|name|index|lhs op rhs|op operand pre|c t e|target op value|fn args
          |s r negated|parts] st Hp; try discriminate Hp.
  - destruct v; apply only_looked_up_refl.
  - apply only_looked_up_refl.
  - apply only_looked_up_env_get.
  - cbn [pure] in Hp. apply andb_true_iff in Hp as [Hl Hr].
    pose proof (IH lhs st Hl) as H1.
    assert (Hboth : forall (k : AWKValue.t -> AWKValue.t -> AWKValue.t),
              only_looked_up st
                (let '(l, st) := evaluate lhs st in
                 let '(r, st) := evaluate rhs st in (k l r, st)).2).
    { intros k. destruct (evaluate lhs st) as [l s1]. cbn [snd] in H1.
      pose proof (IH rhs s1 Hr) as H2. destruct (evaluate rhs s1) as [r s2].
      cbn [snd] in *. eapply only_looked_up_trans; eassumption. }
    destruct op; try apply (Hboth (binary_op _)); cbn [evaluate].
    + destruct (evaluate lhs st) as [l s1]. cbn [snd] in H1.
      destruct (negb (is_truthy l)); [exact H1|].
      pose proof (IH rhs s1 Hr) as H2. destruct (evaluate rhs s1) as [r s2].
      cbn [snd] in *. eapply only_looked_up_trans; eassumption.
    + destruct (evaluate lhs st) as [l s1]. cbn [snd] in H1.
      destruct (is_truthy l); [exact H1|].
      pose proof (IH rhs s1 Hr) as H2. destruct (evaluate rhs s1) as [r s2].
      cbn [snd] in *. eapply only_looked_up_trans; eassumption.
  - cbn [pure] in Hp.
    assert (Hone : pure operand = true ->
              forall (k : AWKValue.t -> AWKValue.t),
              only_looked_up st (let '(v, st) := evaluate operand st in (k v, st)).2).
    { intros Hq k. pose proof (IH operand st Hq) as H1.
      now destruct (evaluate operand st). }
    destruct op; try discriminate Hp; try apply only_looked_up_refl;
      try (apply (Hone Hp AWKValue.neg)); try (apply (Hone Hp AWKValue.pos)).
    destruct operand as [v|pat|name|index|l o r|o2 operand2 pre2|c t e|tg o v|fn args
                         |s r n|parts];
      try apply (Hone Hp (fun v => bool_value (negb (is_truthy v)))).
    cbn [evaluate].
    pose proof (only_looked_up_regex_match (AWKValue.STRING (current_record_ st))
                  (AWKValue.REGEX pat) st) as H2.
    now destruct (regex_match _ _ st).
  - cbn [pure] in Hp. apply andb_true_iff in Hp as [Hp He].
    apply andb_true_iff in Hp as [Hc Ht]. cbn [evaluate].
    pose proof (IH c st Hc) as H1. destruct (evaluate c st) as [v s1].
    cbn [snd] in H1. eapply only_looked_up_trans; [exact H1|].
    destruct (is_truthy v); now apply IH.
  - cbn [pure] in Hp. apply andb_true_iff in Hp as [Hs Hr]. cbn [evaluate].
    pose proof (IH s st Hs) as H1. destruct (evaluate s st) as [text s1].
    pose proof (IH r s1 Hr) as H2. destruct (evaluate r s1) as [pat s2].
    pose proof (only_looked_up_regex_match text pat s2) as H3.
    destruct (regex_match text pat s2) as [m s3]. cbn [snd] in *.
    eapply only_looked_up_trans; [exact H1|].
    eapply only_looked_up_trans; eassumption.
  - cbn [pure] in Hp.
    change (evaluate (ConcatExpr parts) st)
      with (let '(vs, st) := evaluate_all parts st in
            (AWKValue.STRING (String.concat "" (map AWKValue.to_string vs)), st)).
    assert (Hall : only_looked_up st (evaluate_all parts st).2).
    { revert st. induction parts as [|e parts IHp]; intros st;
        [apply only_looked_up_refl|].
      cbn [forallb] in Hp. apply andb_true_iff in Hp as [He Hps].
      cbn [evaluate_all]. pose proof (IH e st He) as H1.
      destruct (evaluate e st) as [v s1]. specialize (IHp Hps s1).
      destruct (evaluate_all parts s1) as [vs s2]. cbn [snd] in *.
      eapply only_looked_up_trans; eassumption. }
    now destruct (evaluate_all parts st).
Qed.

End Pure.

(** ** The record after it was set *)

Section StaleRecord.
Context {host : Host} {engine : RegexLib} {library : Library}.

Lemma set_record_record result st :
  let st' := set_record result st in
  current_record_ st' = result /\ fields_dirty_ st' = false /\ record_dirty_ st' = false.
Proof.
  cbv zeta. unfold set_record.
  rewrite (frame_parse_fields_dirty current_record_ parse_frame_current_record_)
    by reflexivity.
  split; [reflexivity|].
  destruct (parse_fields_dirty (set_record_dirty_ true (set_current_record_ result st))
              eq_refl) as [st0 ->].
  split; reflexivity.
Qed.

End StaleRecord.

Section InRange.
Context {host : Host} {engine : RegexLib} {library : Library}.

Lemma get_field_index_in_range index st :
  field_cache_coherent st -> 0 < index ->
  (Z.to_nat index - 1 < length (field_values_ (get_field index st).2))%nat
  /\ (Z.to_nat index - 1 < length (field_values_valid_ (get_field index st).2))%nat.
Proof.
  intros Hco Hpos.
  pose proof (get_field_coherent index st Hco) as [Hlen' _].
  rewrite <- Hlen'.
  assert (H : (Z.to_nat index - 1 < length (field_values_ (get_field index st).2))%nat);
    [|now split].
  clear Hlen'. apply parse_fields_coherent in Hco. unfold get_field.
  destruct (index =? 0) eqn:Hz; [apply Z.eqb_eq in Hz; lia|].
  destruct (index <? 0) eqn:Hneg; [apply Z.ltb_lt in Hneg; lia|].
  cbv zeta. cbn [snd].
  apply (extend_fields_coherent (Z.to_nat index)) in Hco.
  pose proof (length_extend_fields (Z.to_nat index) (parse_fields st)) as Hlen.
  apply ensure_field_values_coherent in Hco as [_ Hge].
  unfold cache_field_value. destruct (negb _);
    cbn [field_values_ set_field_values_valid_ set_field_values_];
    rewrite ?length_insert; lia.
Qed.

End InRange.

(** ** Assignments *)

Section AppendFacts.
Context {host : Host} {engine : RegexLib} {library : Library}.

(** The loop of the append path over one more part. *)
Lemma append_parts_app target es e st :
  append_parts target (es ++ [e]) st
  = let st1 := append_parts target es st in
    let '(v, st2) := evaluate e st1 in
    write_ref target
      (AWKValue.append_string (read_ref target st2) (AWKValue.to_string v)) st2.
Proof.
  revert st. induction es as [|e0 es IH]; intros st.
  - cbn [app append_parts]. now destruct (evaluate e st).
  - cbn [app append_parts]. destruct (evaluate e0 st) as [v0 s1]. apply IH.
Qed.

Lemma read_field_negative index st :
  index < 0 -> (read_field index st).1 = AWKValue.STRING "".
Proof.
  intros Hneg. unfold read_field, get_field.
  destruct (index =? 0) eqn:Hz; [apply Z.eqb_eq in Hz; lia|].
  destruct (index <? 0) eqn:Hn; [reflexivity|apply Z.ltb_ge in Hn; lia].
Qed.

Lemma set_field_0 v st :
  set_field 0 v st = set_record (AWKValue.to_string v) (parse_fields st).
Proof. unfold set_field, set_record. cbn [Z.eqb]. reflexivity. Qed.

Lemma read_field_set_field_0 v st :
  (read_field 0 (set_field 0 v st)).1 = AWKValue.STRNUM (AWKValue.to_string v).
Proof.
  rewrite set_field_0.
  destruct (set_record_record (AWKValue.to_string v) (parse_fields st))
    as (Hc & Hfd & Hrd).
  unfold read_field, get_field. cbn [Z.eqb].
  rewrite parse_fields_clean by exact Hrd.
  unfold rebuild_record. rewrite Hfd. cbn [negb read_ref field0_ set_field0_ fst].
  now rewrite Hc.
Qed.

(** What a field read yields right after the field was assigned, for
    every index. *)
Lemma read_field_after_set_field index v st :
  (0 <= index ->
   (read_field index (set_field index v st)).1
   = AWKValue.STRNUM (AWKValue.to_string v))
  /\ (index < 0 ->
      (read_field index (set_field index v st)).1 = AWKValue.STRING "").
Proof.
  split.
  - intros Hi. destruct (Z.eq_dec index 0) as [->|Hne].
    + apply read_field_set_field_0.
    + apply read_field_set_field. lia.
  - apply read_field_negative.
Qed.

Lemma evaluate_assign_field_op ie op e' st :
  evaluate (AssignExpr (FieldExpr ie) op e') st
  = let '(value, st1) := evaluate e' st in
    let '(iv, st2) := evaluate ie st1 in
    let index := static_cast T_int (AWKValue.to_number iv) in
    let st3 :=
      match op with
      | ASSIGN => set_field index value st2
      | PLUS_ASSIGN | MINUS_ASSIGN | STAR_ASSIGN =>
          let '(old, st) := read_field index st2 in
          set_field index (assign_op op old value) st
      | _ => st2
      end in
    read_field index st3.
Proof.
  transitivity
    (let '(value, st1) := evaluate e' st in
     let '(index, st2) :=
       let '(v, st) := evaluate ie st1 in
       (static_cast T_int (AWKValue.to_number v), st) in
     read_field index
       match op with
       | ASSIGN => set_field index value st2
       | PLUS_ASSIGN | MINUS_ASSIGN | STAR_ASSIGN =>
           let '(old, st) := read_field index st2 in
           set_field index (assign_op op old value) st
       | _ => st2
       end).
  - destruct op; reflexivity.
  - destruct (evaluate e' st) as [value st1].
    now destruct (evaluate ie st1) as [iv st2].
Qed.

End AppendFacts.

(** ** Increment and decrement *)

Section Increment.
Context {host : Host} {engine : RegexLib} {library : Library}.

Lemma evaluate_increment_variable op x pre st :
  op = INCREMENT \/ op = DECREMENT ->
  evaluate (UnaryExpr op (VariableExpr x) pre) st
  = let old := (env_get x st).1 in
    (if pre then incremented op old else old, env_set x (incremented op old) st).
Proof.
  intros Hop.
  pose proof (get_variable_holds_writes x (env_ st)) as Hh.
  destruct Hop as [-> | ->]; cbn [evaluate increment_step]; unfold env_get, env_set;
    destruct (Environment.get_variable x (env_ st)) as [r env];
    cbn [fst snd read_ref write_ref env_ set_env_] in *.
  - unfold AWKValue.pre_increment. rewrite Hh. reflexivity.
  - unfold AWKValue.pre_decrement. rewrite Hh. reflexivity.
Qed.

(** The state after a read of a field [$i], [i] at least 1. *)
Lemma get_field_after index st :
  field_cache_coherent st -> 0 < index ->
  let n := Z.to_nat index in
  let st' := (get_field index st).2 in
  (get_field index st).1 = ref_field_value (n - 1)
  /\ record_dirty_ st' = false
  /\ (n <= length (fields_ st'))%nat
  /\ (length (fields_ st') <= length (field_values_ st'))%nat
  /\ field_values_valid_ st' !! (n - 1)%nat = Some true.
Proof.
  intros Hco Hpos. cbv zeta.
  pose proof (parse_fields_not_dirty st) as Hd.
  apply parse_fields_coherent in Hco.
  unfold get_field.
  destruct (index =? 0) eqn:Hz; [apply Z.eqb_eq in Hz; lia|].
  destruct (index <? 0) eqn:Hneg; [apply Z.ltb_lt in Hneg; lia|].
  cbv zeta. cbn [fst snd].
  set (n := Z.to_nat index). assert (Hn : (0 < n)%nat) by (subst n; lia).
  apply (extend_fields_coherent n) in Hco.
  pose proof (length_extend_fields n (parse_fields st)) as Hlen.
  assert (Hd1 : record_dirty_ (extend_fields n (parse_fields st)) = false) by exact Hd.
  set (se := extend_fields n (parse_fields st)) in *.
  destruct (ensure_field_values_frame se) as (Hf & _).
  assert (Hd2 : record_dirty_ (ensure_field_values se) = false).
  { unfold ensure_field_values. now destruct (_ <? _)%nat. }
  apply ensure_field_values_coherent in Hco as [[Hl Hco] Hge].
  set (sv := ensure_field_values se) in *.
  split; [reflexivity|].
  unfold cache_field_value.
  destruct (field_values_valid_ sv !! (n - 1)%nat) as [[]|] eqn:Hflag;
    cbn [default from_option negb id];
    cbn [record_dirty_ field_values_ field_values_valid_ fields_
         set_field_values_valid_ set_field_values_];
    rewrite ?length_insert; rewrite Hf;
    (split; [exact Hd2|]); (split; [exact Hlen|]); (split; [exact Hge|]).
  - exact Hflag.
  - apply list_lookup_insert_eq. rewrite <- Hl. lia.
  - apply list_lookup_insert_eq. rewrite <- Hl. lia.
Qed.

(** A read of the field after its cached value was overwritten gives
    the value written, and changes nothing. *)
Lemma read_field_overwritten index w st :
  0 < index ->
  let n := Z.to_nat index in
  record_dirty_ st = false ->
  (n <= length (fields_ st))%nat ->
  (length (fields_ st) <= length (field_values_ st))%nat ->
  field_values_valid_ st !! (n - 1)%nat = Some true ->
  let st' := set_field_values_ (<[(n - 1)%nat := w]> (field_values_ st)) st in
  read_field index st' = (w, st').
Proof.
  intros Hpos n Hd Hn Hge Hflag st'.
  unfold read_field, get_field.
  rewrite (parse_fields_clean st') by exact Hd.
  destruct (index =? 0) eqn:Hz; [apply Z.eqb_eq in Hz; lia|].
  destruct (index <? 0) eqn:Hneg; [apply Z.ltb_lt in Hneg; lia|].
  cbv zeta. fold n.
  assert (He : extend_fields n st' = st').
  { unfold extend_fields. replace (n - length (fields_ st'))%nat with 0%nat
      by (subst st'; cbn [fields_ set_field_values_]; lia).
    cbn [replicate]. rewrite app_nil_r. subst st'. now destruct st. }
  rewrite He.
  assert (Hv : ensure_field_values st' = st').
  { unfold ensure_field_values.
    replace (length (field_values_ st') <? length (fields_ st'))%nat with false;
      [reflexivity|].
    symmetry. apply Nat.ltb_ge. subst st'.
    cbn [fields_ field_values_ set_field_values_]. rewrite length_insert. exact Hge. }
  rewrite Hv.
  assert (Hc : cache_field_value (n - 1) st' = st').
  { unfold cache_field_value. subst st'.
    cbn [field_values_valid_ set_field_values_]. now rewrite Hflag. }
  rewrite Hc. cbn [read_ref]. subst st'. cbn [field_values_ set_field_values_].
  rewrite list_lookup_insert_eq by lia. reflexivity.
Qed.

Lemma evaluate_increment_field op ie pre st :
  op = INCREMENT \/ op = DECREMENT ->
  evaluate (UnaryExpr op (FieldExpr ie) pre) st
  = let '(iv, st1) := evaluate ie st in
    let '(r, st2) := get_field (static_cast T_int (AWKValue.to_number iv)) st1 in
    let old := read_ref r st2 in
    let st3 := write_ref r (incremented op old) st2 in
    (if pre then read_ref r st3 else old, st3).
Proof.
  intros [-> | ->]; cbn [evaluate]; destruct (evaluate ie st) as [iv st1];
    destruct (get_field _ st1) as [r st2]; reflexivity.
Qed.

Lemma env_get_ignores_cache name x s :
  env_get name (set_field_values_ x s)
  = ((env_get name s).1, set_field_values_ x (env_get name s).2).
Proof.
  unfold env_get. cbn [env_ set_field_values_].
  now destruct (Environment.get_variable name (env_ s)).
Qed.

Lemma refresh_ignores_cache x s :
  refresh_special_var_cache (set_field_values_ x s)
  = set_field_values_ x (refresh_special_var_cache s).
Proof.
  unfold refresh_special_var_cache. cbn [special_vars_dirty_ set_field_values_].
  destruct (negb (special_vars_dirty_ s)); [reflexivity|].
  rewrite env_get_ignores_cache. destruct (env_get "RS" s) as [rs s1]. cbn [fst snd].
  rewrite env_get_ignores_cache. destruct (env_get "FS" s1) as [fs s2]. cbn [fst snd].
  rewrite env_get_ignores_cache. destruct (env_get "OFS" s2) as [ofs s3]. cbn [fst snd].
  rewrite env_get_ignores_cache. destruct (env_get "ORS" s3) as [ors s4]. cbn [fst snd].
  rewrite env_get_ignores_cache. destruct (env_get "OFMT" s4) as [ofmt s5]. cbn [fst snd].
  rewrite env_get_ignores_cache. destruct (env_get "FPAT" s5) as [fpat s6]. cbn [fst snd].
  rewrite env_get_ignores_cache. destruct (env_get "SUBSEP" s6) as [subsep s7].
  reflexivity.
Qed.

Lemma get_cached_ignores_cache g x s :
  get_cached g (set_field_values_ x s)
  = ((get_cached g s).1, set_field_values_ x (get_cached g s).2).
Proof. unfold get_cached. now rewrite refresh_ignores_cache. Qed.

(** print without arguments does not look at the cached values of
    the fields. *)
Lemma write_output_ignores_cache t x s :
  write_output t (set_field_values_ x s) = set_field_values_ x (write_output t s).
Proof. reflexivity. Qed.

Lemma print_record_ignores_cache x s :
  execute (PrintStmt []) (set_field_values_ x s)
  = ((execute (PrintStmt []) s).1, set_field_values_ x (execute (PrintStmt []) s).2).
Proof.
  cbn [execute]. unfold rebuild_record, get_cached_ors, get_cached_ofs.
  cbn [fields_dirty_ set_field_values_].
  destruct (negb (fields_dirty_ s)).
  - cbn [current_record_ set_field_values_].
    rewrite write_output_ignores_cache, get_cached_ignores_cache.
    now destruct (get_cached cached_ors_ _).
  - rewrite get_cached_ignores_cache.
    destruct (get_cached cached_ofs_ s) as [ofs s1]. cbn [fst snd].
    cbn [current_record_ fields_ set_field_values_ set_current_record_
         set_fields_dirty_].
    change (set_fields_dirty_ false
              (set_current_record_ ?c (set_field_values_ x s1)))
      with (set_field_values_ x (set_fields_dirty_ false (set_current_record_ c s1))).
    rewrite write_output_ignores_cache, get_cached_ignores_cache.
    now destruct (get_cached cached_ors_ _).
Qed.

End Increment.

(** * The claims *)

(** ** The return value of sub *)

Section Claim_sub_count.
Context {host : Host} {library : Library}.
#[local] Existing Instance literal_engine.

(** C4.  The code at [sub(/a/, "a", x)] with [x = "banana"]: the regex
    matches, so one replacement is made, yet the call returns 0, from
    the special handling of the call as from the registered built-in;
    gsub on the same arguments counts its three matches. *)
Theorem sub_identical_replacement_returns_0 :
  let st := env_set "x" (AWKValue.STRING "banana") new_Interp in
  regex_iterator "a" "banana" <> []
  /\ (evaluate (CallExpr "sub" [RegexExpr "a"; lit "a"; VariableExpr "x"]) st).1
     = AWKValue.NUMBER 0
  /\ (do_substitution "a" "a" "banana" false st).1.1 = 0
  /\ (evaluate (CallExpr "gsub" [RegexExpr "a"; lit "a"; VariableExpr "x"]) st).1
     = AWKValue.NUMBER 3.
Proof. vm_compute. repeat split; try reflexivity. discriminate. Qed.

End Claim_sub_count.

(** ** The return value of gsub *)

Section Claim_gsub_count.
Context {host : Host} {library : Library}.
#[local] Existing Instance anchored_engine.

(** C9.  The code at [gsub(/^a/, "&", x)] with [x = "aaa"]: the
    pattern compiles, the text has one match (the iterator of the
    engine finds the [a] at its start and no other, and a replacement
    by [X] gives [Xaa]), the call leaves [x] as it was, yet it returns
    3: the counting loop searches what is left of the text as a new
    range each time, and the anchor matches at the start of each.
    With the replacement [X] the call returns 3 as well, from the
    special handling of the call as from the registered built-in,
    after one replacement. *)
Theorem gsub_anchored_pattern_returns_3 :
  let st := env_set "x" (AWKValue.STRING "aaa") new_Interp in
  let same :=
    evaluate (CallExpr "gsub" [RegexExpr "^a"; lit "&"; VariableExpr "x"]) st in
  let other :=
    evaluate (CallExpr "gsub" [RegexExpr "^a"; lit "X"; VariableExpr "x"]) st in
  regex_compile "^a" false = inl anchored_a
  /\ map matched (regex_iterator anchored_a "aaa") = ["a"]
  /\ regex_replace "aaa" anchored_a "X" false = "Xaa"
  /\ same.1 = AWKValue.NUMBER 3
  /\ (env_get "x" same.2).1 = AWKValue.STRING "aaa"
  /\ other.1 = AWKValue.NUMBER 3
  /\ (env_get "x" other.2).1 = AWKValue.STRING "Xaa"
  /\ (do_substitution "^a" "X" "aaa" true st).1 = (3, "Xaa").
Proof. vm_compute. repeat split; reflexivity. Qed.

End Claim_gsub_count.

(** ** exit and the END rules *)

Section Claim_exit.
Context {host : Host} {engine : RegexLib} {library : Library}.

(** The rules of one type stop at the first action that throws: the
    rules behind it are not entered. *)
Lemma execute_rules_of_throw ty index r a more st e st' :
  type (pattern r) = ty -> action r = Some a ->
  execute a (log (EvRule ty index) st) = (Throw e, st') ->
  execute_rules_of ty index (r :: more) st = (Throw e, st').
Proof.
  intros Hty Ha Hex. cbn [execute_rules_of]. rewrite Hty, Ha, Hex.
  destruct ty; reflexivity.
Qed.

(** C1, as the code has it.  For every program and input, an exit
    executed during the BEGIN rules, during the processing of the input
    (BEGINFILE rules, record loop, ENDFILE rules) or inside an END rule
    ends the rules at once: [run] goes from the state in which the exit
    was thrown straight to closing the streams.  No END rule is entered
    after an exit, wherever it came from. *)
Theorem exit_skips_END_rules (w : World) (program : Program)
    (input_files : list string) (st : Interp) :
  let st0 := with_ARGC input_files st in
  let input_stage := fun st1 =>
    match input_files with
    | [] => process_stream (open_stream (stdin w)) program (stdin_opened st1)
    | _ => process_files w input_files program st1
    end in
  (forall n st',
     execute_begin_rules program st0 = (Throw (ExitException n), st') ->
     run w program input_files st = (Normal, program, cleanup_io st'))
  /\ (forall n st1 program' st',
        execute_begin_rules program st0 = (Normal, st1) ->
        input_stage st1 = (Throw (ExitException n), program', st') ->
        run w program input_files st = (Normal, program', cleanup_io st'))
  /\ (forall n st1 program' st2 st',
        execute_begin_rules program st0 = (Normal, st1) ->
        input_stage st1 = (Normal, program', st2) ->
        execute_end_rules program' st2 = (Throw (ExitException n), st') ->
        run w program input_files st = (Normal, program', cleanup_io st'))
  /\ (forall st', history_ (cleanup_io st') = (history_ st' ++ [EvCleanup])%list).
Proof.
  cbv zeta. unfold run, run_rules, with_ARGC, stdin_opened.
  repeat split.
  - intros n st' ->. reflexivity.
  - intros n st1 program' st' -> Hin.
    destruct input_files; rewrite Hin; reflexivity.
  - intros n st1 program' st2 st' -> Hin Hend.
    destruct input_files; rewrite Hin, Hend; reflexivity.
Qed.

End Claim_exit.

(** The claim as the spec words it fails: with [BEGIN { exit }
    END { print "end" }] and no input the exit leaves the BEGIN rules,
    and the END rule is never entered. *)
Lemma exit_in_BEGIN_runs_no_END_rule :
  (@execute_begin_rules x86_64 literal_engine no_library exit_in_BEGIN
     (with_ARGC [] new_Interp)).1 = Throw (ExitException 0)
  /\ ~ END_rules_ran_before_cleanup exit_in_BEGIN
         (@run x86_64 literal_engine no_library no_input exit_in_BEGIN []
            new_Interp).2.
Proof.
  split; [vm_compute; reflexivity|].
  intros Hc.
  destruct (Hc 1%nat (rule (special END) (PrintStmt [lit "end"]))
              (PrintStmt [lit "end"]) eq_refl eq_refl eq_refl)
    as (h1 & h2 & Hh & _).
  assert (Hhist : history_ (@run x86_64 literal_engine no_library no_input
                              exit_in_BEGIN [] new_Interp).2
                  = [EvRule BEGIN 0; EvCleanup]) by (vm_compute; reflexivity).
  rewrite Hh in Hhist.
  assert (Hin : In (EvRule END 1) [EvRule BEGIN 0; EvCleanup])
    by (rewrite <- Hhist; apply in_elt).
  cbn in Hin. intuition discriminate.
Qed.

(** The amended statement at that run. *)
Lemma exit_skips_END_rules_witness :
  (@execute_begin_rules x86_64 literal_engine no_library exit_in_BEGIN
     (with_ARGC [] new_Interp)).1 = Throw (ExitException 0)
  /\ output_ (@run x86_64 literal_engine no_library no_input exit_in_BEGIN []
                new_Interp).2 = "".
Proof.
  set (r := @execute_begin_rules x86_64 literal_engine no_library exit_in_BEGIN
              (with_ARGC [] new_Interp)).
  assert (Hexit : r = (Throw (ExitException 0), r.2)) by (vm_compute; reflexivity).
  split; [vm_compute; reflexivity|].
  rewrite (proj1 (@exit_skips_END_rules x86_64 literal_engine no_library
                    no_input exit_in_BEGIN [] new_Interp) 0 r.2 Hexit).
  vm_compute. reflexivity.
Defined.

(** ** The exit status *)

Section Claim_exit_status.
Context {host : Host} {engine : RegexLib} {library : Library}.


End Claim_exit_status.



(** ** ENDFILE and nextfile *)

Section Claim_ENDFILE.
Context {host : Host} {engine : RegexLib} {library : Library}.

(** C3, as the code has it.  For every input file that can be opened
    and whose BEGINFILE rules end normally: when the record loop ends
    normally the ENDFILE rules are executed next, and their outcome is
    that of the file; when the record loop is left by a nextfile signal
    the signal leaves [process_file] at once, the ENDFILE rules are not
    executed for that file, and the loop over the files goes on with
    the next target. *)
Theorem ENDFILE_rules_after_record_loop (w : World) (filename content : string)
    (program : Program) (st st1 : Interp) :
  files w !! filename = Some content ->
  execute_beginfile_rules program (file_opened filename st) = (Normal, st1) ->
  (forall program' st2,
     process_stream (open_stream content) program st1 = (Normal, program', st2) ->
     process_file w filename program st
     = (let '(o, st3) := execute_endfile_rules program' st2 in (o, program', st3)))
  /\ (forall program' st2,
        process_stream (open_stream content) program st1
          = (Throw NextfileException, program', st2) ->
        process_file w filename program st
          = (Throw NextfileException, program', st2)
        /\ forall more,
             process_files w (filename :: more) program st
             = process_files w more program' st2).
Proof.
  intros Hfile Hbegin. unfold file_opened in Hbegin. split.
  - intros program' st2 Hloop. unfold process_file.
    rewrite Hfile, Hbegin, Hloop. reflexivity.
  - intros program' st2 Hloop.
    assert (Hpf : process_file w filename program st
                  = (Throw NextfileException, program', st2)).
    { unfold process_file. rewrite Hfile, Hbegin, Hloop. reflexivity. }
    split; [exact Hpf|].
    intros more. cbn [process_files]. rewrite Hpf. reflexivity.
Qed.

End Claim_ENDFILE.

(** The claim as the spec words it fails: with [{ nextfile }
    ENDFILE { print "endfile" }] on the file [f] the record loop is left
    by the nextfile signal and the ENDFILE rule is never entered. *)
Lemma nextfile_runs_no_ENDFILE_rule :
  (@process_stream x86_64 literal_engine no_library
     (open_stream ("a b" ++ newline)) nextfile_then_ENDFILE
     (file_opened "f" (with_ARGC ["f"] new_Interp))).1.1
  = Throw NextfileException
  /\ ~ ENDFILE_rules_ran_for nextfile_then_ENDFILE "f"
         (@run x86_64 literal_engine no_library one_file nextfile_then_ENDFILE
            ["f"] new_Interp).2.
Proof.
  split; [vm_compute; reflexivity|].
  intros Hc.
  destruct (Hc 1%nat (rule (special ENDFILE) (PrintStmt [lit "endfile"]))
              (PrintStmt [lit "endfile"]) eq_refl eq_refl eq_refl)
    as (h1 & h2 & h3 & Hh & _).
  assert (Hhist : history_ (@run x86_64 literal_engine no_library one_file
                              nextfile_then_ENDFILE ["f"] new_Interp).2
                  = [EvOpen "f"; EvRule EMPTY 0; EvCleanup])
    by (vm_compute; reflexivity).
  rewrite Hh in Hhist.
  assert (Hin : In (EvRule ENDFILE 1) [EvOpen "f"; EvRule EMPTY 0; EvCleanup]).
  { rewrite <- Hhist. apply in_or_app. right. right.
    apply in_or_app. right. left. reflexivity. }
  cbn in Hin. intuition discriminate.
Qed.

(** The amended statement at two runs: the ENDFILE rule of [print_all]
    prints after the record of [f]; after a nextfile nothing is
    printed. *)
Lemma ENDFILE_rules_after_record_loop_witness :
  output_ (@process_file x86_64 literal_engine no_library one_file "f"
             print_all (with_ARGC ["f"] new_Interp)).2
  = "a b" ++ newline ++ "endfile" ++ newline
  /\ output_ (@process_files x86_64 literal_engine no_library one_file ["f"]
                nextfile_then_ENDFILE (with_ARGC ["f"] new_Interp)).2
     = "".
Proof.
  set (st := with_ARGC ["f"] new_Interp).
  assert (Hfile : files one_file !! "f" = Some ("a b" ++ newline))
    by (vm_compute; reflexivity).
  split.
  - set (st1 := (@execute_beginfile_rules x86_64 literal_engine no_library
                   print_all (file_opened "f" st)).2).
    assert (Hbegin : @execute_beginfile_rules x86_64 literal_engine no_library
                       print_all (file_opened "f" st) = (Normal, st1))
      by (vm_compute; reflexivity).
    set (r := @process_stream x86_64 literal_engine no_library
                (open_stream ("a b" ++ newline)) print_all st1).
    assert (Hloop : r = (Normal, r.1.2, r.2)) by (vm_compute; reflexivity).
    rewrite (proj1 (@ENDFILE_rules_after_record_loop x86_64 literal_engine
                      no_library one_file "f" ("a b" ++ newline) print_all
                      st st1 Hfile Hbegin) _ _ Hloop).
    vm_compute. reflexivity.
  - set (st1 := (@execute_beginfile_rules x86_64 literal_engine no_library
                   nextfile_then_ENDFILE (file_opened "f" st)).2).
    assert (Hbegin : @execute_beginfile_rules x86_64 literal_engine no_library
                       nextfile_then_ENDFILE (file_opened "f" st) = (Normal, st1))
      by (vm_compute; reflexivity).
    set (r := @process_stream x86_64 literal_engine no_library
                (open_stream ("a b" ++ newline)) nextfile_then_ENDFILE st1).
    assert (Hloop : r = (Throw NextfileException, r.1.2, r.2))
      by (vm_compute; reflexivity).
    rewrite (proj2 (proj2 (@ENDFILE_rules_after_record_loop x86_64
                             literal_engine no_library one_file "f"
                             ("a b" ++ newline) nextfile_then_ENDFILE
                             st st1 Hfile Hbegin) _ _ Hloop) []).
    vm_compute. reflexivity.
Defined.

(** ** substr *)

Section Claim_substr.
Context {host : Host} {engine : RegexLib} {library : Library}.

(** C5, as the code has it.  For every string [s] (of a length a
    [std::string] can have) and every pair of numbers [m] and [n] whose
    truncations fit [int] and [size_t]: [substr(s, m, n)] is the part of
    [s] of at most [trunc n] characters that starts at the 1-based
    position [max (trunc m) 1], so a start below 1 is clamped to 1 and a
    length that truncates to 0 gives the empty string; [substr(s, m)] is
    the suffix of [s] from that position.  A negative [n] below -1 does
    not fit [size_t] and is left to the host's conversion. *)
Theorem substr_in_range (s : string) (m n : Q) (st : Interp) :
  Z.of_nat (String.length s) <= npos ->
  int_lo T_int <= trunc m <= int_hi T_int ->
  0 <= trunc n <= int_hi T_size_t ->
  let idx := Z.to_nat (Z.max (trunc m) 1 - 1) in
  let len := Z.to_nat (trunc n) in
  (builtin_substr [AWKValue.STRING s; AWKValue.NUMBER m; AWKValue.NUMBER n] st).1
  = AWKValue.STRING (String.substring idx len s)
  /\ (String.length (String.substring idx len s) <= len)%nat
  /\ (trunc n = 0 ->
      (builtin_substr [AWKValue.STRING s; AWKValue.NUMBER m; AWKValue.NUMBER n] st).1
      = AWKValue.STRING "")
  /\ (builtin_substr [AWKValue.STRING s; AWKValue.NUMBER m] st).1
     = AWKValue.STRING (String.substring idx (String.length s - idx) s).
Proof.
  intros Hs [Hm1 Hm2] [Hn1 Hn2]. cbv zeta.
  assert (Hstart : (if (if (int_lo T_int <=? trunc m) && (trunc m <=? int_hi T_int)
                        then trunc m else convert_out_of_range T_int m) <? 1
                    then 1
                    else (if (int_lo T_int <=? trunc m) && (trunc m <=? int_hi T_int)
                          then trunc m else convert_out_of_range T_int m))
                   = Z.max (trunc m) 1).
  { replace ((int_lo T_int <=? trunc m) && (trunc m <=? int_hi T_int)) with true
      by (symmetry; apply andb_true_iff; split; apply Z.leb_le; lia).
    destruct (trunc m <? 1) eqn:E;
      [apply Z.ltb_lt in E | apply Z.ltb_ge in E]; lia. }
  assert (Hthree :
    (builtin_substr [AWKValue.STRING s; AWKValue.NUMBER m; AWKValue.NUMBER n] st).1
    = AWKValue.STRING
        (String.substring (Z.to_nat (Z.max (trunc m) 1 - 1)) (Z.to_nat (trunc n)) s)).
  { unfold builtin_substr, static_cast.
    cbn [AWKValue.to_string AWKValue.to_string_fmt AWKValue.to_number].
    rewrite Hstart.
    replace ((int_lo T_size_t <=? trunc n) && (trunc n <=? int_hi T_size_t))
      with true
      by (symmetry; apply andb_true_iff; split; apply Z.leb_le;
          [exact Hn1 | exact Hn2]).
    rewrite substring_take_drop.
    destruct (Z.of_nat (String.length s) <=? Z.max (trunc m) 1 - 1) eqn:E;
      cbn [fst].
    - apply Z.leb_le in E. rewrite str_drop_all by lia.
      now destruct (Z.to_nat (trunc n)).
    - unfold str_substr. now rewrite str_take_count_nat. }
  split; [exact Hthree|]. split.
  - rewrite substring_take_drop, length_str_take. lia.
  - split.
    + intros Hz. rewrite Hthree, Hz, substring_take_drop. reflexivity.
    + unfold builtin_substr, static_cast.
      cbn [AWKValue.to_string AWKValue.to_string_fmt AWKValue.to_number].
      rewrite Hstart, substring_take_drop.
      destruct (Z.of_nat (String.length s) <=? Z.max (trunc m) 1 - 1) eqn:E;
        cbn [fst].
      * apply Z.leb_le in E. rewrite str_drop_all by lia.
        now destruct (String.length s - _)%nat.
      * apply Z.leb_gt in E. unfold str_substr.
        rewrite str_take_count_nat by (unfold npos; lia).
        rewrite !str_take_all; [reflexivity | | ];
          rewrite length_str_drop; unfold npos in *; lia.
Qed.

End Claim_substr.

(** The claim as the spec words it fails: for the length -5 the result
    on x86-64 is the rest of the string, not the empty string. *)
Lemma substr_negative_length_not_empty :
  (-5 <= 0)%Q
  /\ (@builtin_substr x86_64
        [AWKValue.STRING "hello"; AWKValue.NUMBER 2; AWKValue.NUMBER (-5)]
        new_Interp).1 = AWKValue.STRING "ello"
  /\ AWKValue.STRING "ello" <> AWKValue.STRING "".
Proof. split; [easy | split; [vm_compute; reflexivity | discriminate]]. Qed.

(** The amended statement at [substr("hello", 2, 3)] and
    [substr("hello", 2)]. *)
Lemma substr_in_range_witness :
  (@builtin_substr x86_64
     [AWKValue.STRING "hello"; AWKValue.NUMBER 2; AWKValue.NUMBER 3] new_Interp).1
  = AWKValue.STRING "ell"
  /\ (@builtin_substr x86_64 [AWKValue.STRING "hello"; AWKValue.NUMBER 2]
        new_Interp).1 = AWKValue.STRING "ello".
Proof.
  destruct (@substr_in_range x86_64 "hello" 2 3 new_Interp) as (H3 & _ & _ & H2).
  - vm_compute. discriminate.
  - vm_compute. split; discriminate.
  - vm_compute. split; discriminate.
  - split; [exact H3 | exact H2].
Defined.


(** ** Reading a field that is out of range *)

Section Claim_field_read.
Context {host : Host} {engine : RegexLib} {library : Library}.

(** C6, as the code has it.  For every field read [$i] with [i]
    negative or greater than the number of fields, in a state whose
    fields are parsed, the read yields the empty string and leaves the
    variables (NF among them) and the current record unchanged; a
    negative index leaves the fields vector unchanged as well, while an
    index beyond the fields appends empty strings to the fields vector
    until it has [i] elements. *)
Theorem out_of_range_field_read (i : Z) (st : Interp) :
  record_dirty_ st = false ->
  valid_within_fields st ->
  i < 0 \/ Z.of_nat (length (fields_ st)) < i ->
  let '(v, st') := read_field i st in
  AWKValue.to_string v = ""
  /\ env_ st' = env_ st
  /\ current_record_ st' = current_record_ st
  /\ fields_ st' = (fields_ st ++ replicate (Z.to_nat i - length (fields_ st)) "")%list
  /\ (i < 0 -> fields_ st' = fields_ st).
Proof.
  intros Hclean Hvalid Hrange.
  unfold read_field, get_field. rewrite parse_fields_clean by exact Hclean.
  destruct (i =? 0) eqn:Hz; [apply Z.eqb_eq in Hz; lia|].
  destruct (i <? 0) eqn:Hneg.
  - apply Z.ltb_lt in Hneg. cbn.
    replace (Z.to_nat i) with O by lia. cbn. rewrite app_nil_r. auto.
  - apply Z.ltb_ge in Hneg. destruct Hrange as [|Hbig]; [lia|].
    cbv zeta.
    set (n := Z.to_nat i). set (st1 := extend_fields n st).
    assert (Hn : (length (fields_ st) < n)%nat) by (subst n; lia).
    destruct (ensure_field_values_frame st1) as (Hf & He & Hc & Hlen & Hfl).
    set (st2 := ensure_field_values st1) in *.
    assert (Hlen1 : length (fields_ st1) = n).
    { subst st1. unfold extend_fields. cbn [fields_ set_fields_].
      rewrite length_app, length_replicate. lia. }
    assert (Hflag : default false (field_values_valid_ st2 !! (n - 1)%nat) = false).
    { apply (flags_clear_lookup (length (fields_ st))); [|lia].
      apply Hfl. exact Hvalid. }
    unfold cache_field_value. rewrite Hflag. cbn.
    rewrite list_lookup_insert_eq by lia. cbn.
    rewrite Hf, He, Hc. subst st1.
    rewrite extend_fields_lookup_new by lia.
    repeat split; try reflexivity. lia.
Qed.

End Claim_field_read.

Section Runs_field_read.
#[local] Existing Instance x86_64.
#[local] Existing Instance literal_engine.
#[local] Existing Instance no_library.

(** The claim as the spec words it fails: on the record [a b], where NF
    is 2, the read of [$5] yields the empty string and leaves a fields
    vector of five elements. *)
Lemma field_read_beyond_NF_grows_fields :
  (env_get "NF" (@record_a_b x86_64 literal_engine)).1 = AWKValue.NUMBER 2
  /\ fields_ (@record_a_b x86_64 literal_engine) = ["a"; "b"]
  /\ fields_ (@read_field x86_64 literal_engine 5
                (@record_a_b x86_64 literal_engine)).2
     = ["a"; "b"; ""; ""; ""]
  /\ fields_ (@read_field x86_64 literal_engine 5
                (@record_a_b x86_64 literal_engine)).2
     <> fields_ (@record_a_b x86_64 literal_engine).
Proof.
  repeat split; try (vm_compute; reflexivity).
  vm_compute. discriminate.
Qed.

(** The amended statement at the reads of [$5] and of [$(-1)] on the
    record [a b]. *)
Lemma out_of_range_field_read_witness :
  AWKValue.to_string (@read_field x86_64 literal_engine 5
                        (@record_a_b x86_64 literal_engine)).1 = ""
  /\ fields_ (@read_field x86_64 literal_engine (-1)
                (@record_a_b x86_64 literal_engine)).2 = ["a"; "b"].
Proof.
  set (st := @record_a_b x86_64 literal_engine).
  assert (Hclean : record_dirty_ st = false) by (vm_compute; reflexivity).
  assert (Hvalid : valid_within_fields st) by (vm_compute; constructor).
  assert (Hlen : length (fields_ st) = 2%nat) by (vm_compute; reflexivity).
  split.
  - pose proof (@out_of_range_field_read x86_64 literal_engine 5 st Hclean Hvalid)
      as H5.
    destruct (@read_field x86_64 literal_engine 5 st) as [v st'].
    apply H5. right. rewrite Hlen. lia.
  - pose proof (@out_of_range_field_read x86_64 literal_engine (-1) st Hclean Hvalid)
      as Hm.
    destruct (@read_field x86_64 literal_engine (-1) st) as [v st'].
    destruct Hm as (_ & _ & _ & _ & Hf); [left; lia|].
    cbn [snd]. rewrite Hf by lia. vm_compute. reflexivity.
Defined.

End Runs_field_read.

(** ** Assigning to a field beyond the last *)

Section Claim_field_assign.
Context {host : Host} {engine : RegexLib} {library : Library}.

(** C7, as the code has it.  After every assignment [$i = v] with [i]
    greater than the number of fields the interpreter holds, in a state
    whose fields are parsed: the fields vector has [i] elements, NF
    equals [i], each field [$j] between the old last field and [i] is
    the empty string, [$i] is the string form of [v], and the old fields
    are kept. *)
Theorem set_field_beyond_fields (i : Z) (v : AWKValue.t) (st : Interp) :
  record_dirty_ st = false ->
  Z.of_nat (length (fields_ st)) < i ->
  let st' := set_field i v st in
  length (fields_ st') = Z.to_nat i
  /\ (env_get "NF" st').1 = AWKValue.NUMBER (to_double i)
  /\ (forall j, (length (fields_ st) < j < Z.to_nat i)%nat ->
       fields_ st' !! (j - 1)%nat = Some "")
  /\ fields_ st' !! (Z.to_nat i - 1)%nat = Some (AWKValue.to_string v)
  /\ (forall j, (j < length (fields_ st))%nat -> fields_ st' !! j = fields_ st !! j).
Proof.
  intros Hclean Hbig. cbv zeta.
  unfold set_field.
  destruct (i =? 0) eqn:Hz; [apply Z.eqb_eq in Hz; lia|].
  destruct (i <? 0) eqn:Hneg; [apply Z.ltb_lt in Hneg; lia|].
  rewrite parse_fields_clean by exact Hclean.
  cbv zeta. set (n := Z.to_nat i).
  assert (Hn : (length (fields_ st) < n)%nat) by (subst n; lia).
  rewrite set_NF_get, fields_set_NF, fields_invalidate.
  cbn [fields_ set_fields_dirty_ set_fields_ extend_fields].
  set (ext := (fields_ st ++ replicate (n - length (fields_ st)) "")%list).
  assert (Hext : length ext = n).
  { subst ext. rewrite length_app, length_replicate. lia. }
  rewrite length_insert, Hext.
  split; [reflexivity|]. split; [subst n; now rewrite Z2Nat.id by lia|].
  split; [|split].
  - intros j Hj. rewrite list_lookup_insert_ne by lia.
    subst ext. rewrite lookup_app_r by lia. apply lookup_replicate_2. lia.
  - apply list_lookup_insert_eq. lia.
  - intros j Hj. rewrite list_lookup_insert_ne by lia.
    subst ext. now rewrite lookup_app_l by lia.
Qed.

End Claim_field_assign.

Section Runs_field_assign.
#[local] Existing Instance x86_64.
#[local] Existing Instance literal_engine.
#[local] Existing Instance no_library.

(** The claim as the spec words it fails: on the record [a b], after the
    read of [$5], NF is 2; the assignment [$4 = "x"] has 4 > NF and
    leaves NF at 5, not at 4. *)
Lemma field_assign_beyond_NF_sets_other_NF :
  let st := (@read_field x86_64 literal_engine 5
               (@record_a_b x86_64 literal_engine)).2 in
  (env_get "NF" st).1 = AWKValue.NUMBER 2
  /\ (env_get "NF" (@set_field x86_64 literal_engine 4 (AWKValue.STRING "x") st)).1
     = AWKValue.NUMBER 5
  /\ AWKValue.NUMBER 5 <> AWKValue.NUMBER 4.
Proof.
  cbv zeta. split; [vm_compute; reflexivity|].
  split; [vm_compute; reflexivity | discriminate].
Qed.

(** The amended statement at [$5 = "x"] on the record [a b]. *)
Lemma set_field_beyond_fields_witness :
  fields_ (@set_field x86_64 literal_engine 5 (AWKValue.STRING "x")
             (@record_a_b x86_64 literal_engine)) !! 2%nat = Some ""
  /\ (env_get "NF" (@set_field x86_64 literal_engine 5 (AWKValue.STRING "x")
                      (@record_a_b x86_64 literal_engine))).1
     = AWKValue.NUMBER 5.
Proof.
  set (st := @record_a_b x86_64 literal_engine).
  assert (Hclean : record_dirty_ st = false) by (vm_compute; reflexivity).
  assert (Hlen : length (fields_ st) = 2%nat) by (vm_compute; reflexivity).
  assert (Hbig : Z.of_nat (length (fields_ st)) < 5) by (rewrite Hlen; lia).
  destruct (@set_field_beyond_fields x86_64 literal_engine 5 (AWKValue.STRING "x")
              st Hclean Hbig) as (_ & HNF & Hmid & _ & _).
  split.
  - apply (Hmid 3%nat). rewrite Hlen. lia.
  - exact HNF.
Defined.

End Runs_field_assign.

(** ** Range patterns *)

Section Claim_range.
Context {host : Host} {engine : RegexLib} {library : Library}.

(** C8.  For every rule with a range pattern, on every record: while
    the pattern is inactive the rule fires exactly when start matches,
    and it becomes active unless end matches the same record too (then
    it has fired once and stays inactive); while the pattern is active
    the rule fires, and it becomes inactive when end matches, after the
    record has still matched.  Only the state of that pattern changes. *)
Theorem range_pattern_state_machine (p : Pattern) (st : Interp) :
  type p = RANGE ->
  let '(fires, p', st') := pattern_matches p st in
  type p' = RANGE /\ expr p' = expr p /\ range_end p' = range_end p
  /\ if range_active p then
       fires = true
       /\ range_active p' = negb (eval_range_expr (range_end p) st).1
     else
       let '(start_matches, st1) := eval_range_expr (expr p) st in
       fires = start_matches
       /\ range_active p'
          = start_matches && negb (eval_range_expr (range_end p) st1).1.
Proof.
  intros Hty. unfold pattern_matches. rewrite Hty.
  destruct (range_active p) eqn:Hact.
  - destruct (eval_range_expr (range_end p) st) as [[] st']; cbn [fst negb];
      repeat split; auto.
  - destruct (eval_range_expr (expr p) st) as [[] st1].
    + destruct (eval_range_expr (range_end p) st1) as [[] st']; cbn [fst negb andb];
        repeat split; auto.
    + cbn [andb]. repeat split; auto.
Qed.

End Claim_range.

Section Runs_range.
#[local] Existing Instance x86_64.
#[local] Existing Instance literal_engine.
#[local] Existing Instance no_library.

(** The statement at the pattern [/BEGIN/,/END/] on the record [BEGIN]:
    the rule fires and the pattern becomes active. *)
Lemma range_pattern_state_machine_witness :
  (pattern_matches range_BEGIN_END (set_record "BEGIN" new_Interp)).1.1 = true
  /\ range_active
       (pattern_matches range_BEGIN_END (set_record "BEGIN" new_Interp)).1.2
     = true.
Proof.
  assert (Hr : eval_range_expr (expr range_BEGIN_END) (set_record "BEGIN" new_Interp)
               = (true, (eval_range_expr (expr range_BEGIN_END)
                           (set_record "BEGIN" new_Interp)).2))
    by (vm_compute; reflexivity).
  assert (Hq : (eval_range_expr (range_end range_BEGIN_END)
                  (eval_range_expr (expr range_BEGIN_END)
                     (set_record "BEGIN" new_Interp)).2).1 = false)
    by (vm_compute; reflexivity).
  revert Hr Hq.
  generalize ((eval_range_expr (expr range_BEGIN_END)
                 (set_record "BEGIN" new_Interp)).2).
  generalize (set_record "BEGIN" new_Interp).
  intros st st1 Hr Hq.
  pose proof (range_pattern_state_machine range_BEGIN_END st eq_refl) as H.
  destruct (pattern_matches range_BEGIN_END st) as [[fires p'] st'].
  destruct H as (_ & _ & _ & H).
  cbn [range_active range_BEGIN_END] in H.
  change (Some (RegexExpr "BEGIN")) with (expr range_BEGIN_END) in H.
  change (Some (RegexExpr "END")) with (range_end range_BEGIN_END) in H.
  rewrite Hr in H. rewrite Hq in H.
  exact H.
Defined.

(** The range scenario: [/BEGIN/,/END/ { print }] prints the records
    from BEGIN to END. *)
Example range_scenario :
  output_ (run range_input print_range [] new_Interp).2
  = "BEGIN" ++ newline ++ "x" ++ newline ++ "y" ++ newline ++ "END" ++ newline.
Proof. vm_compute. reflexivity. Qed.

End Runs_range.

(** ** The append path of an assignment *)

Section Claim_append_assignment.
Context {host : Host} {engine : RegexLib} {library : Library}.

(** C10, as the code has it.  For every assignment of the shape
    [x = x e1 e2 ...] the value of the assignment expression is the
    uninitialized value, with string form "" and numeric form 0, and
    the parts are appended to [x] in place, one after the other: with
    no part nothing is done but the lookup of [x]; a last part [e] is
    evaluated in the state the parts before it have left, so it sees
    what they appended, and its string form is put behind the text
    [x] then has (for parts that are string literals [x] ends as its
    old text followed by theirs).  Of the other assignments, one to a
    variable, plain or compound, yields the value it stored in the
    variable; one to a field [$i] yields the field read back: the
    assigned text as a strnum for [i] from 0 on, and the empty string
    for a negative [i], where nothing is stored. *)
Theorem append_assignment_yields_uninitialized (x : string) (es : list Expr)
    (e : Expr) (st : Interp) :
  let r := (Environment.get_variable x (env_ st)).1 in
  (evaluate (append_to x es) st).1 = AWKValue.UNINITIALIZED
  /\ AWKValue.to_string (evaluate (append_to x es) st).1 = ""
  /\ AWKValue.to_number (evaluate (append_to x es) st).1 = 0%Q
  /\ (evaluate (append_to x []) st).2
     = set_env_ (Environment.get_variable x (env_ st)).2 st
  /\ (let '(v, st2) := evaluate e (evaluate (append_to x es) st).2 in
      (evaluate (append_to x (es ++ [e])) st).2
      = write_ref (ref_var r)
          (AWKValue.STRING
             (AWKValue.to_string (read_ref (ref_var r) st2) ++ AWKValue.to_string v))
          st2)
  /\ (forall ss, es = map lit ss ->
       AWKValue.to_string
         (Environment.read r (env_ (evaluate (append_to x es) st).2))
       = AWKValue.to_string (Environment.read r (env_ st)) ++ String.concat "" ss)
  /\ (forall op e',
       is_append_shape (VariableExpr x) op e' = false ->
       let '(v, st1) := evaluate e' st in
       let r' := (Environment.get_variable x (env_ st1)).1 in
       let old := Environment.read r' (env_ st1) in
       (evaluate (AssignExpr (VariableExpr x) op e') st).1 = assign_op op old v
       /\ Environment.read r' (env_ (evaluate (AssignExpr (VariableExpr x) op e') st).2)
          = assign_op op old v)
  /\ (forall ie op e',
       is_assignment op = true ->
       let '(v, st1) := evaluate e' st in
       let '(iv, st2) := evaluate ie st1 in
       let i := static_cast T_int (AWKValue.to_number iv) in
       let assigned := assign_op op (read_field i st2).1 v in
       (0 <= i ->
        (evaluate (AssignExpr (FieldExpr ie) op e') st).1
        = AWKValue.STRNUM (AWKValue.to_string assigned))
       /\ (i < 0 ->
           (evaluate (AssignExpr (FieldExpr ie) op e') st).1 = AWKValue.STRING "")).
Proof.
  cbv zeta. unfold append_to. rewrite !evaluate_append_shape.
  pose proof (get_variable_holds_writes x (env_ st)) as Hh.
  pose proof (read_get_variable (Environment.get_variable x (env_ st)).1 x (env_ st))
    as Hsame.
  destruct (Environment.get_variable x (env_ st)) as [r env]. cbn [fst snd] in *.
  split; [reflexivity|]. split; [reflexivity|]. split; [reflexivity|].
  split; [reflexivity|]. split; [|split; [|split]].
  - rewrite append_parts_app. cbv zeta.
    now destruct (evaluate e (append_parts (ref_var r) es (set_env_ env st))).
  - intros ss ->. rewrite append_parts_literals by exact Hh.
    rewrite to_string_append_texts. cbn [env_ set_env_]. now rewrite Hsame.
  - intros op e' Hshape.
    destruct (evaluate e' st) as [v st1] eqn:He'. cbv zeta.
    rewrite evaluate_assign_variable by assumption. rewrite He'.
    pose proof (get_variable_holds_writes x (env_ st1)) as Hh1.
    pose proof (read_get_variable (Environment.get_variable x (env_ st1)).1 x
                  (env_ st1)) as Hs1.
    destruct (Environment.get_variable x (env_ st1)) as [r1 env1].
    cbn [fst snd read_ref write_ref env_ set_env_] in *.
    rewrite Hh1, Hs1. now split.
  - intros ie op e' Hop. rewrite evaluate_assign_field_op.
    destruct (evaluate e' st) as [v st1].
    destruct (evaluate ie st1) as [iv st2]. cbv zeta.
    set (i := static_cast T_int (AWKValue.to_number iv)).
    destruct op; try discriminate Hop; cbn [assign_op].
    + apply read_field_after_set_field.
    + destruct (read_field i st2) as [old s3]. apply read_field_after_set_field.
    + destruct (read_field i st2) as [old s3]. apply read_field_after_set_field.
    + destruct (read_field i st2) as [old s3]. apply read_field_after_set_field.
Qed.

End Claim_append_assignment.

Section Runs_append_assignment.
#[local] Existing Instance x86_64.
#[local] Existing Instance literal_engine.
#[local] Existing Instance no_library.

(** The claim as the spec words it fails: [$(-1) = "w"] is an
    assignment of another shape, it assigns the string [w], and its
    value is the empty string. *)
Lemma field_assignment_at_negative_index_yields_empty :
  is_append_shape (FieldExpr (num (-1))) ASSIGN (lit "w") = false
  /\ (evaluate (lit "w") record_a_b).1 = AWKValue.STRING "w"
  /\ (evaluate (AssignExpr (FieldExpr (num (-1))) ASSIGN (lit "w")) record_a_b).1
     = AWKValue.STRING ""
  /\ AWKValue.STRING "" <> AWKValue.STRING "w".
Proof.
  split; [reflexivity|]. split; [reflexivity|].
  split; [vm_compute; reflexivity|discriminate].
Qed.

(** The amended statement at [x = x "b" y] and at [x = x "b" x] with
    [x = "a"] and [y = "c"] (the second leaves [abab] in [x]: the last
    part reads [x] after [b] was appended), at [x = "v"] and at
    [$2 = "v"]. *)
Lemma append_assignment_yields_uninitialized_witness :
  let st := env_set "y" (AWKValue.STRING "c")
              (env_set "x" (AWKValue.STRING "a") new_Interp) in
  value_of "x" (env_ (evaluate (append_to "x" [lit "b"; VariableExpr "y"]) st).2)
  = AWKValue.STRING "abc"
  /\ value_of "x" (env_ (evaluate (append_to "x" [lit "b"; VariableExpr "x"]) st).2)
     = AWKValue.STRING "abab"
  /\ (evaluate (AssignExpr (VariableExpr "x") ASSIGN (lit "v")) st).1
     = AWKValue.STRING "v"
  /\ (evaluate (AssignExpr (FieldExpr (num 2)) ASSIGN (lit "v")) st).1
     = AWKValue.STRNUM "v".
Proof.
  cbv zeta.
  set (st := env_set "y" (AWKValue.STRING "c")
               (env_set "x" (AWKValue.STRING "a") new_Interp)).
  pose proof (append_assignment_yields_uninitialized "x" [lit "b"] (VariableExpr "y") st)
    as (_ & _ & _ & _ & Hy & _ & Hvar & Hfield).
  pose proof (append_assignment_yields_uninitialized "x" [lit "b"] (VariableExpr "x") st)
    as (_ & _ & _ & _ & Hx & _ & _ & _).
  change ([lit "b"] ++ [VariableExpr "y"])%list with [lit "b"; VariableExpr "y"] in Hy.
  change ([lit "b"] ++ [VariableExpr "x"])%list with [lit "b"; VariableExpr "x"] in Hx.
  split; [|split; [|split]].
  - destruct (evaluate (VariableExpr "y") (evaluate (append_to "x" [lit "b"]) st).2)
      as [v st2] eqn:E.
    rewrite Hy.
    assert (Hv : v = AWKValue.STRING "c")
      by (change v with (v, st2).1; rewrite <- E; vm_compute; reflexivity).
    assert (Hs : st2 = (evaluate (append_to "x" [lit "b"]) st).2)
      by (change st2 with (v, st2).2; rewrite <- E; vm_compute; reflexivity).
    rewrite Hv, Hs. vm_compute. reflexivity.
  - destruct (evaluate (VariableExpr "x") (evaluate (append_to "x" [lit "b"]) st).2)
      as [v st2] eqn:E.
    rewrite Hx.
    assert (Hv : v = AWKValue.STRING "ab")
      by (change v with (v, st2).1; rewrite <- E; vm_compute; reflexivity).
    assert (Hs : st2 = (evaluate (append_to "x" [lit "b"]) st).2)
      by (change st2 with (v, st2).2; rewrite <- E; vm_compute; reflexivity).
    rewrite Hv, Hs. vm_compute. reflexivity.
  - specialize (Hvar ASSIGN (lit "v") eq_refl).
    cbn [evaluate lit] in Hvar. apply Hvar.
  - specialize (Hfield (num 2) ASSIGN (lit "v") eq_refl).
    cbn [evaluate lit num] in Hfield. apply Hfield. vm_compute. discriminate.
Defined.

End Runs_append_assignment.

(** * Further properties of the code *)

(** ** Variables (environment.cpp) *)

(** X1.  Looking a variable up never changes a value: whatever name is
    passed to [get_variable], every variable, local or global, reads
    afterwards as it read before.  The entry that a lookup of an unknown
    name creates is uninitialized, as the unknown name read before. *)
Theorem get_variable_keeps_every_value (name : string) (env : Environment.t)
    (r : Environment.ref) :
  Environment.read r (Environment.get_variable name env).2 = Environment.read r env.
Proof.
  unfold Environment.get_variable.
  destruct (Environment.find_scope name _); [reflexivity|].
  destruct (str_find "::" name); [|apply read_global_entry].
  destruct (Environment.find_scope _ _); [reflexivity|].
  destruct (_ && _); [reflexivity|apply read_global_entry].
Qed.

(** X2.  For every name without a namespace qualifier: a variable
    looked up after [set_variable] stored a value under its name has
    that value, whether the name is held by a local scope or by the
    globals, and every other unqualified variable has the value it had
    before. *)
Theorem set_variable_then_get_variable (name : string) (v : AWKValue.t)
    (env : Environment.t) :
  str_find "::" name = None ->
  value_of name (Environment.set_variable name v env) = v
  /\ (forall other, other <> name -> str_find "::" other = None ->
       value_of other (Environment.set_variable name v env) = value_of other env).
Proof.
  intros Hsep. split.
  - rewrite value_of_unqualified by exact Hsep. unfold Environment.set_variable.
    destruct (Environment.find_scope name (Environment.scope_stack_ env)) as [i|] eqn:Hf.
    + destruct (find_scope_alter name v _ i Hf) as [Hf' Hl].
      cbn [Environment.write Environment.scope_stack_]. now rewrite Hf', Hl.
    + cbn [Environment.write Environment.scope_stack_ Environment.globals_].
      now rewrite Hf, lookup_insert_eq.
  - intros other Hne Hsep'. rewrite !value_of_unqualified by exact Hsep'.
    unfold Environment.set_variable.
    destruct (Environment.find_scope name (Environment.scope_stack_ env)) as [i|] eqn:Hf.
    + cbn [Environment.write Environment.scope_stack_ Environment.globals_].
      rewrite find_scope_alter_other by now left.
      destruct (Environment.find_scope other _) as [k|]; [|reflexivity].
      rewrite list_lookup_alter.
      destruct (decide (i = k)) as [->|Hik]; [|reflexivity].
      destruct (Environment.scope_stack_ env !! k) as [sc|]; [|reflexivity].
      cbn. now rewrite lookup_insert_ne by congruence.
    + cbn [Environment.write Environment.scope_stack_ Environment.globals_].
      destruct (Environment.find_scope other _); [reflexivity|].
      now rewrite lookup_insert_ne by congruence.
Qed.

Lemma set_variable_then_get_variable_witness :
  value_of "x" (Environment.set_variable "x" (AWKValue.NUMBER 5)
                  Environment.init_builtins)
  = AWKValue.NUMBER 5.
Proof.
  apply (set_variable_then_get_variable "x" (AWKValue.NUMBER 5)
           Environment.init_builtins).
  vm_compute. reflexivity.
Defined.

(** X3.  A value stored by [set_variable] under a qualified name
    [ns::V], where [V] is a special variable that the globals hold, is
    not what a lookup of [ns::V] finds: with no local scope open the
    lookup falls back to the special variable [V] and reads the value
    of [V], which the store has not changed. *)
Theorem set_variable_qualified_special (qname : string) (p : nat)
    (v : AWKValue.t) (env : Environment.t) :
  let name := str_drop (p + 2) qname in
  str_find "::" qname = Some p ->
  Environment.is_special_variable name = true ->
  is_Some (Environment.globals_ env !! name) ->
  Environment.scope_stack_ env = [] ->
  value_of qname (Environment.set_variable qname v env)
  = default AWKValue.UNINITIALIZED (Environment.globals_ env !! name).
Proof.
  intros name Hsep Hspecial Hsome Hstack.
  assert (Hne : name <> qname).
  { apply str_drop_shorter; [lia|]. intros ->. discriminate Hsep. }
  unfold value_of, Environment.set_variable, Environment.get_variable.
  rewrite Hstack. cbn [Environment.find_scope Environment.write
                       Environment.scope_stack_ Environment.globals_].
  rewrite Hstack, Hsep. cbn [Environment.find_scope]. fold name.
  rewrite lookup_insert_ne by congruence.
  rewrite bool_decide_eq_true_2 by exact Hsome. rewrite Hspecial. cbn [andb].
  cbn [Environment.read Environment.globals_].
  now rewrite lookup_insert_ne by congruence.
Qed.

Lemma set_variable_qualified_special_witness :
  value_of "awk::NR"
    (Environment.set_variable "awk::NR" (AWKValue.NUMBER 5) Environment.init_builtins)
  = AWKValue.NUMBER 0.
Proof.
  rewrite (set_variable_qualified_special "awk::NR" 3 (AWKValue.NUMBER 5)
             Environment.init_builtins);
    [vm_compute; reflexivity | vm_compute; reflexivity | vm_compute; reflexivity
    | vm_compute; eauto | reflexivity].
Defined.

(** X4.  For every name without a namespace qualifier, a lookup
    brings the variable into existence: after [get_variable] the name
    is known to [has_variable], also when it was unknown before and was
    only read. *)
Theorem get_variable_creates_the_variable (name : string) (env : Environment.t) :
  str_find "::" name = None ->
  Environment.has_variable name (Environment.get_variable name env).2 = true.
Proof.
  intros Hsep. unfold Environment.has_variable, Environment.get_variable.
  rewrite Hsep.
  destruct (Environment.find_scope name (Environment.scope_stack_ env)) eqn:Hf.
  - cbn [snd]. rewrite Hf. rewrite bool_decide_eq_true_2 by eauto. reflexivity.
  - unfold Environment.global_entry.
    cbn [snd Environment.scope_stack_ Environment.globals_].
    apply orb_true_iff. right. apply bool_decide_eq_true.
    destruct (Environment.globals_ env !! name) eqn:Hn; [rewrite Hn; eauto|].
    rewrite lookup_insert_eq. eauto.
Qed.

Lemma get_variable_creates_the_variable_witness :
  Environment.has_variable "x" Environment.init_builtins = false
  /\ Environment.has_variable "x"
       (Environment.get_variable "x" Environment.init_builtins).2 = true.
Proof.
  split; [vm_compute; reflexivity|].
  apply (get_variable_creates_the_variable "x" Environment.init_builtins).
  vm_compute. reflexivity.
Defined.

(** X5.  A local variable set in a newly pushed scope shadows the
    global of the same name and leaves no trace: a lookup of the name
    finds the local value, the globals are as they were, and after
    [pop_scope] the environment is the one before [push_scope]. *)
Theorem local_variable_shadows_and_is_dropped (name : string) (v : AWKValue.t)
    (env : Environment.t) :
  let env1 := Environment.set_local name v (Environment.push_scope env) in
  value_of name env1 = v
  /\ Environment.globals_ env1 = Environment.globals_ env
  /\ Environment.pop_scope env1 = env.
Proof.
  destruct env as [g stack]. cbv zeta.
  unfold Environment.set_local, Environment.push_scope.
  cbn [Environment.scope_stack_ Environment.globals_].
  destruct (stack ++ [∅])%list as [|s0 l0] eqn:Hst.
  { destruct stack; discriminate Hst. }
  rewrite <- Hst. clear s0 l0 Hst.
  rewrite length_app. cbn [length].
  replace (length stack + 1 - 1)%nat with (length stack + 0)%nat by lia.
  rewrite alter_app_r. cbn [alter list_alter].
  split; [|split].
  - unfold value_of, Environment.get_variable. cbn [Environment.scope_stack_].
    rewrite find_scope_app_last by (rewrite lookup_insert_eq; eauto).
    cbn [Environment.read Environment.scope_stack_].
    rewrite lookup_app_r by lia. rewrite Nat.sub_diag. cbn.
    now rewrite lookup_insert_eq.
  - reflexivity.
  - unfold Environment.pop_scope. cbn [Environment.scope_stack_ Environment.globals_].
    rewrite length_app. cbn [length].
    replace (length stack + 1 - 1)%nat with (length stack) by lia.
    now rewrite take_app_length.
Qed.

(** ** Fields (interpreter.cpp) *)

Section Extra_fields.
Context {host : Host} {engine : RegexLib} {library : Library}.

(** X6.  The cache of field values stays coherent with the fields
    vector.  In the interpreter as constructed the cache is coherent,
    and [get_field], [set_field] and [set_record] keep it so for every
    index, value and record: the two cache vectors have one length, a
    cached value marked valid is the strnum of the text that the fields
    vector holds at that place, and the place that [get_field] reads
    and writes for an index of 1 or more lies within both vectors. *)
Theorem field_cache_stays_coherent (index : Z) (v : AWKValue.t) (record : string)
    (st : Interp) :
  field_cache_coherent new_Interp
  /\ (field_cache_coherent st ->
      field_cache_coherent (get_field index st).2
      /\ field_cache_coherent (set_field index v st)
      /\ field_cache_coherent (set_record record st)
      /\ (0 < index ->
          (Z.to_nat index - 1 < length (field_values_ (get_field index st).2))%nat
          /\ (Z.to_nat index - 1
              < length (field_values_valid_ (get_field index st).2))%nat)).
Proof.
  split.
  - split; [reflexivity|]. intros j Hj. discriminate Hj.
  - intros Hco. split; [|split; [|split]].
    + now apply get_field_coherent.
    + now apply set_field_coherent.
    + now apply set_record_coherent.
    + now apply get_field_index_in_range.
Qed.

(** X7.  A field read is served from the fields vector: in every state
    whose cache is coherent, a read of [$i], [i] at least 1, yields the
    strnum of the text that the fields vector holds for field [i] after
    the read, never a value cached for an earlier text. *)
Theorem field_read_is_field_text (index : Z) (st : Interp) :
  field_cache_coherent st -> 0 < index ->
  (read_field index st).1
  = AWKValue.STRNUM
      (default "" (fields_ (read_field index st).2 !! (Z.to_nat index - 1)%nat)).
Proof. apply read_field_coherent. Qed.

(** X8.  After an assignment to a field [$i], [i] at least 1, in any
    state, [print] without arguments rebuilds the record before it
    writes it: the record becomes the fields, the assigned one among
    them, joined by the cached output field separator, and [print]
    appends this record and the cached output record separator to the
    output. *)
Theorem print_after_field_assignment (index : Z) (v : AWKValue.t) (st : Interp) :
  0 < index ->
  let st1 := set_field index v st in
  let '(o, st2) := execute (PrintStmt []) st1 in
  o = Normal
  /\ current_record_ st2 = join (cached_ofs_ (cached_ st2)) (fields_ st1)
  /\ output_ st2
     = output_ st ++ current_record_ st2 ++ cached_ors_ (cached_ st2).
Proof.
  intros Hpos. cbv zeta.
  destruct (set_field_flags index v st Hpos) as (Hrd & Hfd & Hcr & Hout).
  destruct (parse_fields_keeps st) as [_ Hout'].
  rewrite Hout' in Hout. clear Hcr Hout'.
  destruct (rebuild_record_dirty (set_field index v st) Hfd) as (Hc & Hf & Ho & Hsd).
  revert Hc Hf Ho Hsd Hout. generalize (fields_ (set_field index v st)).
  cbn [execute]. generalize (rebuild_record (set_field index v st)).
  intros sr fs Hc Hf Ho Hsd Hout.
  unfold get_cached_ors, get_cached, write_output.
  rewrite !refresh_clean by exact Hsd.
  cbn [current_record_ cached_ output_ set_output_].
  split; [reflexivity|]. split; [exact Hc|].
  rewrite Ho, Hout. now rewrite append_assoc.
Qed.


(** X10.  With the cached FPAT empty and the cached FS and OFS the same
    single character other than the space, assigning the first field to
    itself leaves the record as it was: [set_record] splits the record
    at that character, and after [$1 = $1] the fields are those of the
    split and [$0], rebuilt from them, is the strnum of the original
    text. *)
Theorem reassigning_a_field_keeps_the_record (sep : ascii) (s : string) (st : Interp) :
  field_cache_coherent st ->
  special_vars_dirty_ st = false ->
  cached_fpat_ (cached_ st) = "" ->
  cached_fs_ (cached_ st) = String sep "" ->
  cached_ofs_ (cached_ st) = String sep "" ->
  sep <> " "%char ->
  let st1 := set_record s st in
  let '(f1, st2) := read_field 1 st1 in
  let st3 := set_field 1 f1 st2 in
  fields_ st3 = split_char sep s ""
  /\ (read_field 0 st3).1 = AWKValue.STRNUM s
  /\ current_record_ (read_field 0 st3).2 = s.
Proof.
  intros Hco Hsd Hfpat Hfs Hofs Hsep. cbv zeta.
  destruct (set_record_single_char sep s st Hsd Hfpat Hfs Hsep)
    as (Hf1 & Hr1 & Hrd1 & Hfd1 & Hc1 & Hsd1 & _).
  apply (set_record_coherent s) in Hco.
  revert Hco Hf1 Hr1 Hrd1 Hfd1 Hc1 Hsd1. generalize (set_record s st).
  intros st1 Hco Hf1 Hr1 Hrd1 Hfd1 Hc1 Hsd1.
  pose proof (read_field_coherent 1 st1 Hco ltac:(lia)) as Hv.
  destruct (get_field_clean 1 st1 Hrd1 ltac:(lia))
    as (Hf2 & Hc2 & Hsd2 & Hrd2 & Hfd2 & Hr2 & _).
  unfold read_field in *. destruct (get_field 1 st1) as [r st2].
  cbn [fst snd] in *.
  destruct (split_char_cons sep s "") as (h & t & Hsplit).
  change (Z.to_nat 1) with 1%nat in *.
  rewrite Hf1, Hsplit in Hf2. cbn in Hf2.
  rewrite Nat.sub_0_l in Hf2. cbn [replicate] in Hf2. rewrite app_nil_r in Hf2.
  rewrite Hf2 in Hv. cbn in Hv. rewrite Hv.
  destruct (set_field_clean 1 (AWKValue.STRNUM h) st2 Hrd2 ltac:(lia))
    as (Hf3 & Hc3 & Hsd3 & Hrd3 & Hfd3 & Hr3 & _).
  change (Z.to_nat 1) with 1%nat in *.
  revert Hf3 Hc3 Hsd3 Hrd3 Hfd3 Hr3. generalize (set_field 1 (AWKValue.STRNUM h) st2).
  intros st3 Hf3 Hc3 Hsd3 Hrd3 Hfd3 Hr3.
  rewrite Hf2 in Hf3. cbn in Hf3.
  rewrite Nat.sub_0_l in Hf3. cbn [replicate] in Hf3. rewrite app_nil_r in Hf3.
  split; [now rewrite Hf3, Hsplit|].
  unfold get_field. rewrite parse_fields_clean by exact Hrd3.
  cbn [Z.eqb fst snd read_ref field0_ set_field0_ current_record_].
  destruct (rebuild_record_dirty st3 Hfd3) as (Hrec & _).
  assert (Hcached : cached_ (rebuild_record st3) = cached_ st).
  { unfold rebuild_record. rewrite Hfd3. cbn [negb].
    unfold get_cached_ofs, get_cached. rewrite refresh_clean by congruence.
    cbn. congruence. }
  rewrite Hrec, Hcached, Hofs, Hf3, <- Hsplit, join_split_char.
  now rewrite append_nil_l.
Qed.

(** X11.  With the cached FPAT empty and the cached FS a single space,
    [set_record] splits the record at white space: every field is not
    empty and holds no white space character, NF is the number of
    fields, and a record that is fields of that kind joined by single
    spaces is split into exactly those fields. *)
Theorem default_field_splitting (s : string) (st : Interp) :
  special_vars_dirty_ st = false ->
  cached_fpat_ (cached_ st) = "" ->
  cached_fs_ (cached_ st) = " " ->
  let st1 := set_record s st in
  Forall is_word (fields_ st1)
  /\ (env_get "NF" st1).1
     = AWKValue.NUMBER (to_double (Z.of_nat (length (fields_ st1))))
  /\ (forall l, Forall is_word l -> s = join " " l -> fields_ st1 = l).
Proof.
  intros Hd Hfpat Hfs. cbv zeta.
  rewrite set_record_NF. rewrite (set_record_whitespace s st Hd Hfpat Hfs).
  split; [now apply split_whitespace_words|]. split; [reflexivity|].
  intros l Hl ->. now apply split_whitespace_join.
Qed.

End Extra_fields.

Section Runs_extra_fields.
#[local] Existing Instance x86_64.
#[local] Existing Instance literal_engine.
#[local] Existing Instance no_library.

Lemma field_read_is_field_text_witness :
  (read_field 2 (set_field 2 (AWKValue.STRING "b") new_Interp)).1
  = AWKValue.STRNUM "b".
Proof.
  assert (Hco : field_cache_coherent new_Interp).
  { split; [reflexivity|]. intros j Hj. discriminate Hj. }
  apply (set_field_coherent 2 (AWKValue.STRING "b")) in Hco.
  assert (Hf : fields_ (read_field 2 (set_field 2 (AWKValue.STRING "b") new_Interp)).2
               = [""; "b"]) by (vm_compute; reflexivity).
  revert Hco Hf. generalize (set_field 2 (AWKValue.STRING "b") new_Interp).
  intros st Hco Hf.
  rewrite (field_read_is_field_text 2 st Hco ltac:(lia)). rewrite Hf. reflexivity.
Defined.

Lemma field_cache_stays_coherent_witness :
  field_cache_coherent (set_field 2 (AWKValue.STRING "b") new_Interp).
Proof.
  destruct (field_cache_stays_coherent 2 (AWKValue.STRING "b") "" new_Interp)
    as [H0 H].
  apply (H H0).
Defined.

Lemma print_after_field_assignment_witness :
  let st1 := set_field 2 (AWKValue.STRING "b") new_Interp in
  let '(o, st2) := execute (PrintStmt []) st1 in
  o = Normal
  /\ current_record_ st2 = join (cached_ofs_ (cached_ st2)) (fields_ st1)
  /\ output_ st2
     = output_ new_Interp ++ current_record_ st2 ++ cached_ors_ (cached_ st2).
Proof.
  apply (print_after_field_assignment 2 (AWKValue.STRING "b") new_Interp). lia.
Defined.


Lemma comma_separated_coherent : field_cache_coherent comma_separated.
Proof.
  assert (H0 : field_cache_coherent new_Interp).
  { split; [reflexivity|]. intros j Hj. discriminate Hj. }
  revert H0. apply field_cache_coherent_ext; vm_compute; reflexivity.
Qed.

Lemma reassigning_a_field_keeps_the_record_witness :
  let st1 := set_record "a,b" comma_separated in
  let '(f1, st2) := read_field 1 st1 in
  let st3 := set_field 1 f1 st2 in
  fields_ st3 = split_char "," "a,b" ""
  /\ (read_field 0 st3).1 = AWKValue.STRNUM "a,b"
  /\ current_record_ (read_field 0 st3).2 = "a,b".
Proof.
  apply (reassigning_a_field_keeps_the_record "," "a,b" comma_separated).
  - exact comma_separated_coherent.
  - vm_compute. reflexivity.
  - vm_compute. reflexivity.
  - vm_compute. reflexivity.
  - vm_compute. reflexivity.
  - discriminate.
Defined.

Lemma default_field_splitting_witness :
  let st1 := set_record "a b" separators_cached in
  Forall is_word (fields_ st1)
  /\ (env_get "NF" st1).1
     = AWKValue.NUMBER (to_double (Z.of_nat (length (fields_ st1))))
  /\ (forall l, Forall is_word l -> "a b" = join " " l -> fields_ st1 = l).
Proof.
  apply (default_field_splitting "a b" separators_cached).
  - vm_compute. reflexivity.
  - vm_compute. reflexivity.
  - vm_compute. reflexivity.
Defined.

End Runs_extra_fields.

(** ** Reading records (interpreter.cpp) *)

(** X12.  A read with a single-character record separator on a good
    stream loses nothing of the input.  When it succeeds, the input
    is the record, then the terminator RT, then what is left on the
    stream; the record does not hold the separator; and RT is the
    separator, or empty when the record was ended by the end of the
    input.  It fails only on an empty input. *)
Theorem single_char_record_and_terminator (input : istream) (delimiter : ascii) :
  good input = true ->
  let '(ok, input', record, rt) := read_record_single_char_mode input delimiter in
  if ok then
    buffer input = record ++ rt ++ buffer input'
    /\ has_char delimiter record = false
    /\ (rt = String delimiter "" \/ rt = "" /\ input' = at_eof)
  else buffer input = "" /\ input' = at_eof.
Proof.
  intros Hg. unfold read_record_single_char_mode. rewrite Hg. cbn [negb].
  destruct (take_line_split delimiter (buffer input)) as [Hc Hs].
  destruct (take_line delimiter (buffer input)) as [l [r|]]; cbn [fst snd] in *.
  - cbn [buffer]. split; [now rewrite append_cons, append_nil_l|]. split; auto.
  - destruct (str_empty l) eqn:E.
    + apply str_empty_true in E. subst l. now split.
    + cbn [buffer at_eof]. rewrite append_nil_l, append_nil_r. auto.
Qed.


Lemma single_char_record_and_terminator_witness :
  let '(ok, input', record, rt) :=
    read_record_single_char_mode (open_stream "a;b") ";" in
  if ok then
    buffer (open_stream "a;b") = record ++ rt ++ buffer input'
    /\ has_char ";" record = false
    /\ (rt = String ";" "" \/ rt = "" /\ input' = at_eof)
  else buffer (open_stream "a;b") = "" /\ input' = at_eof.
Proof.
  apply (single_char_record_and_terminator (open_stream "a;b") ";"). reflexivity.
Defined.

(** X13.  A read in line mode on a good stream.  When it succeeds the
    record holds no newline and RT is a newline; the input is the
    record, a newline and what is left on the stream, or else the
    input is the record alone and the stream is at its end: RT is a
    newline also for a last line that no newline ended.  It fails only
    on an empty input, with RT empty. *)
Theorem line_record_and_terminator (input : istream) (record0 : string) :
  good input = true ->
  let '(ok, input', record, rt) := read_record_line_mode input record0 in
  if ok then
    rt = newline
    /\ has_char "010" record = false
    /\ (buffer input = record ++ newline ++ buffer input'
        \/ buffer input = record /\ input' = at_eof)
  else buffer input = "" /\ input' = at_eof /\ rt = "".
Proof.
  intros Hg. unfold read_record_line_mode, getline. rewrite Hg. cbn [negb].
  destruct (buffer input) as [|c b] eqn:Hb; [now repeat split|].
  destruct (take_line_split "010" (String c b)) as [Hc Hs].
  destruct (take_line "010" (String c b)) as [l [r|]]; cbn [fst snd] in *.
  - split; [reflexivity|]. split; [exact Hc|]. left. cbn [buffer]. exact Hs.
  - split; [reflexivity|]. split; [exact Hc|]. right. now split.
Qed.

Lemma line_record_and_terminator_witness :
  let '(ok, input', record, rt) := read_record_line_mode (open_stream "a") "" in
  if ok then
    rt = newline
    /\ has_char "010" record = false
    /\ (buffer (open_stream "a") = record ++ newline ++ buffer input'
        \/ buffer (open_stream "a") = record /\ input' = at_eof)
  else buffer (open_stream "a") = "" /\ input' = at_eof /\ rt = "".
Proof.
  apply (line_record_and_terminator (open_stream "a") ""). reflexivity.
Defined.

Section Extra_record_loop.
Context {host : Host} {engine : RegexLib} {library : Library}.

(** X14.  The record loop ends with the input.  Every successful read
    leaves less on the stream than there was, so the loop of
    [process_stream] over an input of [n] characters has come to its
    end within [n + 2] reads, for every program and state: giving the
    loop more steps than that does not change its result. *)
Theorem record_loop_ends_with_the_input (fuel : nat) (input : istream)
    (program : Program) (st : Interp) :
  (S (S (String.length (buffer input))) <= fuel)%nat ->
  process_stream_loop fuel input program st = process_stream input program st.
Proof.
  intros Hf. unfold process_stream. apply process_stream_loop_fuel;
    unfold remaining; destruct (good input); lia.
Qed.


(** X15.  NR and FNR count the records.  In line mode (RS is a
    newline) and for a program without main rules, the record loop
    over any input completes normally, leaves the program and the
    output as they are, and adds to NR and to FNR the number of records
    of the input: the lines that a newline ends, and a last line
    without one.  This holds while the counters stay within the whole
    numbers that a double holds exactly, from -2^53 to 2^53; beyond
    2^53 adding 1 is rounded away. *)
Theorem NR_counts_the_records (input : istream) (program : Program)
    (st : Interp) (n m : Z) :
  only_special_rules program ->
  line_mode st ->
  value_of "NR" (env_ st) = AWKValue.NUMBER (inject_Z n) ->
  value_of "FNR" (env_ st) = AWKValue.NUMBER (inject_Z m) ->
  - 2 ^ 53 <= n -> n + Z.of_nat (records_left input) <= 2 ^ 53 ->
  - 2 ^ 53 <= m -> m + Z.of_nat (records_left input) <= 2 ^ 53 ->
  let '(o, program', st') := process_stream input program st in
  o = Normal /\ program' = program
  /\ value_of "NR" (env_ st')
     = AWKValue.NUMBER (inject_Z (n + Z.of_nat (records_left input)))
  /\ value_of "FNR" (env_ st')
     = AWKValue.NUMBER (inject_Z (m + Z.of_nat (records_left input)))
  /\ output_ st' = output_ st.
Proof.
  intros Hsp Hlm Hnr Hfnr Hn1 Hn2 Hm1 Hm2. unfold process_stream.
  destruct (process_stream_loop_counts (S (S (String.length (buffer input)))) input
              program st n m Hsp) as (st' & -> & H1 & H2 & H3); auto.
  unfold remaining. destruct (good input); lia.
Qed.

(** X16.  The record at the end of the input.  In line mode a read
    that finds no input fails, sets RT to the empty string and leaves
    NR, NF and the fields as the last record set them; the record text
    is erased when the stream was still good (the input ended with a
    newline) and kept when the stream was at its end already (the last
    line had no newline).  With no change pending, [$0] then reads as
    that text: empty in the first case, the last line in the second. *)
Theorem record_at_end_of_input (input : istream) (st : Interp) :
  line_mode st ->
  good input = false \/ buffer input = "" ->
  let '(ok, _, st') := read_record input st in
  ok = false
  /\ current_record_ st' = (if good input then "" else current_record_ st)
  /\ fields_ st' = fields_ st
  /\ value_of "NF" (env_ st') = value_of "NF" (env_ st)
  /\ value_of "NR" (env_ st') = value_of "NR" (env_ st)
  /\ value_of "RT" (env_ st') = AWKValue.STRING ""
  /\ (record_dirty_ st = false -> fields_dirty_ st = false ->
      (read_field 0 st').1
      = AWKValue.STRNUM (if good input then "" else current_record_ st)).
Proof.
  intros Hlm Hend.
  pose proof (read_record_line input st Hlm) as Hr.
  destruct (read_record input st) as [[ok input1] st1].
  assert (Hfail : (getline input "").1 = (false, if good input then at_eof else input)).
  { unfold getline. destruct Hend as [Hg|Hb].
    - now rewrite Hg.
    - rewrite Hb. now destruct (good input). }
  rewrite Hfail in Hr. destruct Hr as (Hok & _ & _ & Hnr & _ & Hrest).
  injection Hok as -> ->.
  destruct (Hrest eq_refl) as (Hrt & Hnf & Hf & Hrd & Hfd & Hcr).
  repeat (split; [assumption || reflexivity|]).
  intros Hrd0 Hfd0. unfold read_field, get_field.
  rewrite parse_fields_clean by congruence. cbn [Z.eqb].
  unfold rebuild_record. rewrite Hfd, Hfd0. cbn. now rewrite Hcr.
Qed.


End Extra_record_loop.

Section Runs_extra_record_loop.
#[local] Existing Instance x86_64.
#[local] Existing Instance literal_engine.
#[local] Existing Instance no_library.

Lemma record_loop_ends_with_the_input_witness :
  process_stream_loop 10 (open_stream ("a b" ++ newline)) print_all new_Interp
  = process_stream (open_stream ("a b" ++ newline)) print_all new_Interp.
Proof.
  apply (record_loop_ends_with_the_input 10 (open_stream ("a b" ++ newline))
           print_all new_Interp).
  vm_compute. lia.
Defined.

Lemma NR_counts_the_records_witness :
  let '(o, program', st') :=
    process_stream (open_stream ("a" ++ newline ++ "b")) print_NR_at_END new_Interp in
  o = Normal /\ program' = print_NR_at_END
  /\ value_of "NR" (env_ st')
     = AWKValue.NUMBER
         (inject_Z (0 + Z.of_nat (records_left (open_stream ("a" ++ newline ++ "b")))))
  /\ value_of "FNR" (env_ st')
     = AWKValue.NUMBER
         (inject_Z (0 + Z.of_nat (records_left (open_stream ("a" ++ newline ++ "b")))))
  /\ output_ st' = output_ new_Interp.
Proof.
  apply (NR_counts_the_records (open_stream ("a" ++ newline ++ "b")) print_NR_at_END
           new_Interp 0 0).
  - repeat constructor.
  - split; [vm_compute; reflexivity|]. intros H. discriminate H.
  - vm_compute. reflexivity.
  - vm_compute. reflexivity.
  - vm_compute. discriminate.
  - vm_compute. discriminate.
  - vm_compute. discriminate.
  - vm_compute. discriminate.
Defined.

Lemma record_at_end_of_input_witness :
  let '(ok, _, st') := read_record (open_stream "") record_a_b in
  ok = false
  /\ current_record_ st'
     = (if good (open_stream "") then "" else current_record_ record_a_b)
  /\ fields_ st' = fields_ record_a_b
  /\ value_of "NF" (env_ st') = value_of "NF" (env_ record_a_b)
  /\ value_of "NR" (env_ st') = value_of "NR" (env_ record_a_b)
  /\ value_of "RT" (env_ st') = AWKValue.STRING ""
  /\ (record_dirty_ record_a_b = false -> fields_dirty_ record_a_b = false ->
      (read_field 0 st').1
      = AWKValue.STRNUM
          (if good (open_stream "") then "" else current_record_ record_a_b)).
Proof.
  apply (record_at_end_of_input (open_stream "") record_a_b).
  - split; [vm_compute; reflexivity|]. intros _. vm_compute. reflexivity.
  - right. reflexivity.
Defined.

End Runs_extra_record_loop.

(** ** sub and gsub (interpreter.cpp, interpreter.hpp) *)

(** X17.  What a replacement text of sub and gsub stands for, after
    [convert_awk_replacement] and the formatting of the regex library.
    Around texts [r1] and [r2] that hold none of the characters
    backslash, ampersand and dollar: such text stands for itself, [&]
    for the matched text, [\&] for an ampersand and a doubled
    backslash for one backslash; the dollar is not taken literally: a
    doubled dollar gives one dollar, and a dollar followed by a
    backquote gives the text in front of the match. *)
Theorem replacement_text (m : match_results) (r1 r2 : string) :
  plain_text r1 = true -> plain_text r2 = true ->
  format m (convert_awk_replacement (r1 ++ r2) false) = r1 ++ r2
  /\ format m (convert_awk_replacement (r1 ++ "&" ++ r2) false)
     = r1 ++ matched m ++ r2
  /\ format m (convert_awk_replacement (r1 ++ "\&" ++ r2) false)
     = r1 ++ "&" ++ r2
  /\ format m (convert_awk_replacement (r1 ++ "\\" ++ r2) false)
     = r1 ++ "\" ++ r2
  /\ format m (convert_awk_replacement (r1 ++ "$$" ++ r2) false)
     = r1 ++ "$" ++ r2
  /\ format m (convert_awk_replacement (r1 ++ "$`" ++ r2) false)
     = r1 ++ prefix m ++ r2.
Proof.
  intros H1 H2.
  pose proof (format_convert_plain m r2 false H2) as Hr2.
  repeat split; rewrite convert_plain, format_plain by exact H1.
  - now rewrite Hr2.
  - change (format m (convert_awk_replacement ("&" ++ r2) false))
      with (matched m ++ format m (convert_awk_replacement r2 false)).
    now rewrite Hr2.
  - change (format m (convert_awk_replacement ("\&" ++ r2) false))
      with ("&" ++ format m (convert_awk_replacement r2 false)).
    now rewrite Hr2.
  - change (format m (convert_awk_replacement ("\\" ++ r2) false))
      with ("\" ++ format m (convert_awk_replacement r2 false)).
    now rewrite Hr2.
  - change (format m (convert_awk_replacement ("$$" ++ r2) false))
      with ("$" ++ format m (convert_awk_replacement r2 false)).
    now rewrite Hr2.
  - change (format m (convert_awk_replacement ("$`" ++ r2) false))
      with (prefix m ++ format m (convert_awk_replacement r2 false)).
    now rewrite Hr2.
Qed.


Lemma replacement_text_witness :
  let m := {| prefix := "b"; matched := "a"; suffix := "c"; groups := [] |} in
  format m (convert_awk_replacement ("<" ++ ">") false) = "<" ++ ">"
  /\ format m (convert_awk_replacement ("<" ++ "&" ++ ">") false)
     = "<" ++ matched m ++ ">"
  /\ format m (convert_awk_replacement ("<" ++ "\&" ++ ">") false)
     = "<" ++ "&" ++ ">"
  /\ format m (convert_awk_replacement ("<" ++ "\\" ++ ">") false)
     = "<" ++ "\" ++ ">"
  /\ format m (convert_awk_replacement ("<" ++ "$$" ++ ">") false)
     = "<" ++ "$" ++ ">"
  /\ format m (convert_awk_replacement ("<" ++ "$`" ++ ">") false)
     = "<" ++ prefix m ++ ">".
Proof.
  apply (replacement_text
           {| prefix := "b"; matched := "a"; suffix := "c"; groups := [] |}
           "<" ">"); reflexivity.
Defined.

Section Extra_substitution.
Context {host : Host} {engine : RegexLib} {library : Library}.

(** X18.  The counting loop of gsub ends with the target: every step
    of the loop goes on in a shorter rest of the target, so for a
    target of [n] characters the count is reached within [n + 1]
    searches, whatever the engine answers, and more steps do not change
    it; the count lies between 0 and [n + 1], and it is 0 exactly when
    the first search finds no match. *)
Theorem gsub_counting_loop_ends (fuel : nat) (re : regex) (target : string) :
  (S (String.length target) <= fuel)%nat ->
  count_loop fuel re "" target = count_matches re target
  /\ 0 <= count_matches re target <= Z.of_nat (String.length target) + 1
  /\ (count_matches re target = 0
      <-> regex_search re match_default "" target = None).
Proof.
  intros Hf. split; [|split].
  - unfold count_matches. apply count_loop_fuel; lia.
  - unfold count_matches.
    pose proof (count_loop_bounds (S (String.length target)) re "" target). lia.
  - unfold count_matches. cbn [count_loop].
    destruct (regex_search re match_default "" target) as [m|]; [|tauto].
    split; [|discriminate]. intros H. exfalso.
    destruct (str_empty (matched m)).
    + destruct (suffix m) as [|c r]; [discriminate|].
      match type of H with
      | context [count_loop ?f re ?b ?x] => pose proof (count_loop_bounds f re b x)
      end. lia.
    + match type of H with
      | context [count_loop ?f re ?b ?x] => pose proof (count_loop_bounds f re b x)
      end. lia.
Qed.


(** X19.  sub and gsub without a match.  When the pattern compiles and
    the regex finds no match in the text of the target variable, the
    call returns 0, the variable reads as before, and nothing is
    written to the output or the error stream. *)
Theorem sub_gsub_without_match (function_name : string) (re_expr a1 : Expr)
    (name : string) (st : Interp) (p : AWKValue.t) (st1 : Interp)
    (r : AWKValue.t) (st2 : Interp) (target_var : Environment.ref)
    (env : Environment.t) (re : regex) :
  function_name = "sub" \/ function_name = "gsub" ->
  evaluate re_expr st = (p, st1) ->
  evaluate a1 st1 = (r, st2) ->
  Environment.get_variable name (env_ st2) = (target_var, env) ->
  (get_cached_regex (AWKValue.to_string p) (set_env_ env st2)).1 = inl re ->
  regex_search re match_default ""
    (AWKValue.to_string (Environment.read target_var env)) = None ->
  let '(count, st') :=
    evaluate (CallExpr function_name [re_expr; a1; VariableExpr name]) st in
  count = AWKValue.NUMBER 0
  /\ Environment.read target_var (env_ st') = Environment.read target_var env
  /\ output_ st' = output_ st2 /\ error_ st' = error_ st2.
Proof.
  intros Hfn He1 He2 Hvar Hre Hno.
  rewrite evaluate_sub_gsub_var by (destruct Hfn as [-> | ->]; reflexivity).
  rewrite He1, He2, Hvar. cbv zeta.
  rewrite (substitute_no_match _ _ _ _ _ _ re Hre Hno).
  split; [reflexivity|]. split; [apply get_cached_regex_read|].
  unfold get_cached_regex, env_get. cbn [env_ set_env_].
  destruct (Environment.get_variable "IGNORECASE" env). cbn. auto.
Qed.

End Extra_substitution.

Section Runs_extra_substitution.
#[local] Existing Instance x86_64.
#[local] Existing Instance literal_engine.
#[local] Existing Instance no_library.

Lemma gsub_counting_loop_ends_witness :
  count_loop 10 (literal "a") "" "banana" = count_matches (literal "a") "banana"
  /\ 0 <= count_matches (literal "a") "banana" <= Z.of_nat (String.length "banana") + 1
  /\ (count_matches (literal "a") "banana" = 0
      <-> regex_search (literal "a") match_default "" "banana" = None).
Proof.
  apply (gsub_counting_loop_ends 10 (literal "a") "banana"). vm_compute. lia.
Defined.

Lemma sub_gsub_without_match_witness :
  let '(count, st') :=
    evaluate (CallExpr "sub" [lit "z"; lit "y"; VariableExpr "x"]) new_Interp in
  count = AWKValue.NUMBER 0
  /\ Environment.read (Environment.in_globals "x") (env_ st')
     = Environment.read (Environment.in_globals "x")
         (Environment.get_variable "x" (env_ new_Interp)).2
  /\ output_ st' = output_ new_Interp /\ error_ st' = error_ new_Interp.
Proof.
  apply (sub_gsub_without_match "sub" (lit "z") (lit "y") "x" new_Interp
           (AWKValue.STRING "z") new_Interp (AWKValue.STRING "y") new_Interp
           (Environment.in_globals "x")
           (Environment.get_variable "x" (env_ new_Interp)).2 (literal "z")).
  - now left.
  - reflexivity.
  - reflexivity.
  - vm_compute. reflexivity.
  - vm_compute. reflexivity.
  - vm_compute. reflexivity.
Defined.

End Runs_extra_substitution.

(** ** Comparison and conversion (value.cpp) *)

Section Extra_compare.
Context {host : Host}.

(** X20.  [compare] is antisymmetric: for all values, comparing [b]
    with [a] gives the negated result of comparing [a] with [b],
    whether the numbers or the string forms are compared; a value
    compares equal to itself, and [a < b] holds exactly when [b > a]
    does. *)
Theorem compare_is_antisymmetric (a b : AWKValue.t) :
  AWKValue.compare a b = - AWKValue.compare b a
  /\ AWKValue.compare a a = 0
  /\ (AWKValue.compare a b < 0 <-> AWKValue.compare b a > 0).
Proof.
  assert (H1 : AWKValue.compare a b = - AWKValue.compare b a).
  { unfold AWKValue.compare. rewrite (andb_comm (AWKValue.is_numeric b)).
    destruct (AWKValue.is_numeric a && AWKValue.is_numeric b).
    - rewrite <- (Qcompare_antisym (AWKValue.to_number a) (AWKValue.to_number b)).
      now destruct (AWKValue.to_number a ?= AWKValue.to_number b)%Q.
    - rewrite (String.compare_antisym (AWKValue.to_string a) (AWKValue.to_string b)).
      now destruct (AWKValue.to_string b ?= AWKValue.to_string a)%string. }
  split; [exact H1|]. split.
  - unfold AWKValue.compare. destruct (_ && _).
    + now rewrite (proj1 (Qeq_alt _ _) (Qeq_refl _)).
    + pose proof (String.compare_antisym (AWKValue.to_string a) (AWKValue.to_string a))
        as Hs.
      destruct (AWKValue.to_string a ?= AWKValue.to_string a)%string;
        [reflexivity|discriminate Hs|discriminate Hs].
  - rewrite H1. lia.
Qed.


(** X21.  A whole number prints as an integer: for every integer [n]
    that a double holds exactly, from -2^53 to 2^53, the number made
    from [n] is [n] and its string form is the decimal text of [n],
    whatever the conversion format (CONVFMT or OFMT) is.  Beyond that
    the number made from an integer is the nearest double: 2^53 + 1
    becomes 2^53 and prints as 9007199254740992. *)
Theorem whole_number_prints_as_integer (n : Z) (format : string) :
  - 2 ^ 53 <= n <= 2 ^ 53 ->
  to_double n = inject_Z n
  /\ AWKValue.to_string_fmt (AWKValue.NUMBER (to_double n)) format = std_to_string n
  /\ AWKValue.to_string (AWKValue.NUMBER (to_double n)) = std_to_string n
  /\ AWKValue.to_string_fmt (AWKValue.NUMBER (to_double (2 ^ 53 + 1))) format
     = std_to_string (2 ^ 53).
Proof.
  intros Hn.
  assert (H : forall k fmt, - 2 ^ 53 <= k <= 2 ^ 53 ->
            AWKValue.number_to_string (inject_Z k) fmt = std_to_string k).
  { intros k fmt Hk. unfold AWKValue.number_to_string.
    rewrite Qfloor_Z.
    replace (Qeq_bool (inject_Z k) (inject_Z k)) with true
      by (symmetry; apply Qeq_bool_iff; reflexivity).
    replace (Qle_bool (inject_Z (- 2 ^ 63)) (inject_Z k)) with true
      by (symmetry; apply Qle_bool_iff; rewrite <- Zle_Qle; lia).
    replace (Qle_bool (inject_Z k) (inject_Z (2 ^ 63))) with true
      by (symmetry; apply Qle_bool_iff; rewrite <- Zle_Qle; lia).
    cbn [andb]. unfold static_cast. rewrite trunc_inject_Z.
    replace ((int_lo T_long_long <=? k) && (k <=? int_hi T_long_long)) with true;
      [reflexivity|].
    symmetry. apply andb_true_iff. unfold int_lo, int_hi.
    split; apply Z.leb_le; lia. }
  assert (Hbig : to_double (2 ^ 53 + 1) = inject_Z (2 ^ 53))
    by (vm_compute; reflexivity).
  rewrite Hbig, (to_double_exact n Hn).
  unfold AWKValue.to_string. cbn [AWKValue.to_string_fmt].
  split; [reflexivity|]. split; [apply H; lia|]. split; apply H; lia.
Qed.


End Extra_compare.

Section Runs_extra_compare.
#[local] Existing Instance x86_64.

Lemma whole_number_prints_as_integer_witness :
  to_double 42 = inject_Z 42
  /\ AWKValue.to_string_fmt (AWKValue.NUMBER (to_double 42)) "%.2f" = std_to_string 42
  /\ AWKValue.to_string (AWKValue.NUMBER (to_double 42)) = std_to_string 42
  /\ AWKValue.to_string_fmt (AWKValue.NUMBER (to_double (2 ^ 53 + 1))) "%.2f"
     = std_to_string (2 ^ 53).
Proof. apply (whole_number_prints_as_integer 42 "%.2f"). lia. Defined.

End Runs_extra_compare.

(** ** The run protocol (interpreter.cpp, interpreter_exec.cpp, main.cpp) *)

Section Extra_run.
Context {host : Host} {engine : RegexLib} {library : Library}.

(** X22.  A program without functions of its own whose actions hold
    no break, continue, next, nextfile or return statement is never
    left by a control flow exception: for every input and state no such exception leaves
    [run], so the process does not end in [std::terminate].  When
    [run] returns, the last thing it did was to close the streams, and
    [main] returns 0.  (An exit statement is caught by [run]; the
    other jumps are caught only by a loop, by the record loop or by
    the loop over the files.  What can still leave [run] is an
    exception derived from [std::exception], after which [main]
    returns 1.) *)
Theorem jump_free_program_is_not_terminated (w : World) (program : Program)
    (input_files : list string) (st : Interp) :
  program_jump_free program = true ->
  let '(o, _, st') := run w program input_files st in
  (forall e, o <> Throw e)
  /\ (main w program input_files st).1 <> terminated
  /\ (o = Normal ->
      last (history_ st') = Some EvCleanup
      /\ main w program input_files st = (returned 0, st')).
Proof.
  intros Hj. unfold main, run.
  match goal with
  | |- context [run_rules w program input_files ?s] =>
      pose proof (run_rules_jump_free w program input_files s Hj) as Hr;
      destruct (run_rules w program input_files s) as [[o p1] s1]
  end. cbn [fst] in Hr.
  assert (Hlast : last (history_ (cleanup_io s1)) = Some EvCleanup).
  { unfold cleanup_io, log. cbn [history_ set_history_]. apply last_snoc. }
  destruct Hr as [->|[n ->]]; cbv beta iota;
    (split; [discriminate|]); (split; [discriminate|]);
    intros _; (split; [exact Hlast|reflexivity]).
Qed.


(** X23.  Input files that cannot be opened are skipped with a
    message each: when none of the files can be opened, the loop over
    the files completes normally, leaves the program as it is and
    changes nothing of the state but the error stream, which gets the
    messages in the order of the files; no rule is entered, FILENAME
    and FNR are not set. *)
Theorem unreadable_files_are_skipped (w : World) (input_files : list string)
    (program : Program) (st : Interp) :
  Forall (fun f => files w !! f = None) input_files ->
  process_files w input_files program st
  = (Normal, program,
     set_error_ (error_ st ++ String.concat "" (map cannot_open input_files)) st).
Proof.
  intros Hall. revert st. induction Hall as [|f more Hf _ IH]; intros st;
    cbn [process_files].
  - cbn. rewrite append_nil_r. now destruct st.
  - unfold process_file. rewrite Hf. rewrite IH. f_equal.
    unfold write_error. cbn [error_ set_error_]. rewrite set_error_twice.
    f_equal. rewrite append_assoc. f_equal. fold (cannot_open f).
    destruct more; cbn [map String.concat]; [now rewrite append_nil_r|reflexivity].
Qed.


(** X24.  Of the control exceptions [run] catches the exit only.  When
    the rules end by any other exception (a next in a BEGIN rule, a
    nextfile while the standard input is read, a break outside a loop),
    it leaves [run] with the state as it was thrown (the streams are
    not closed), and [main], which catches [std::exception] only, does
    not return: the process is terminated. *)
Theorem only_exit_is_caught (w : World) (program : Program)
    (input_files : list string) (st : Interp) (e : Exception) (program' : Program)
    (st' : Interp) :
  run_rules w program input_files (with_ARGC input_files st)
  = (Throw e, program', st') ->
  (forall status, e <> ExitException status) ->
  run w program input_files st = (Throw e, program', st')
  /\ main w program input_files st = (terminated, st').
Proof.
  intros Hr Hne. unfold main, run. fold (with_ARGC input_files st). rewrite Hr.
  destruct e; try (split; reflexivity). now contradiction (Hne status).
Qed.


End Extra_run.

Section Runs_extra_run.
#[local] Existing Instance x86_64.
#[local] Existing Instance literal_engine.
#[local] Existing Instance no_library.

Lemma jump_free_program_is_not_terminated_witness :
  let '(o, _, st') := run one_file print_all ["f"] new_Interp in
  (forall e, o <> Throw e)
  /\ (main one_file print_all ["f"] new_Interp).1 <> terminated
  /\ (o = Normal ->
      last (history_ st') = Some EvCleanup
      /\ main one_file print_all ["f"] new_Interp = (returned 0, st')).
Proof.
  apply (jump_free_program_is_not_terminated one_file print_all ["f"] new_Interp).
  reflexivity.
Defined.

Lemma unreadable_files_are_skipped_witness :
  process_files no_input ["a"; "b"] print_all new_Interp
  = (Normal, print_all,
     set_error_ (error_ new_Interp
                 ++ String.concat "" (map cannot_open ["a"; "b"])) new_Interp).
Proof.
  apply (unreadable_files_are_skipped no_input ["a"; "b"] print_all new_Interp).
  repeat constructor.
Defined.

Lemma only_exit_is_caught_witness :
  run no_input next_in_BEGIN [] new_Interp
  = (Throw NextException, next_in_BEGIN,
     log (EvRule BEGIN 0) (with_ARGC [] new_Interp))
  /\ main no_input next_in_BEGIN [] new_Interp
     = (terminated, log (EvRule BEGIN 0) (with_ARGC [] new_Interp)).
Proof.
  apply (only_exit_is_caught no_input next_in_BEGIN [] new_Interp NextException
           next_in_BEGIN (log (EvRule BEGIN 0) (with_ARGC [] new_Interp))).
  - reflexivity.
  - intros status H. discriminate H.
Defined.

End Runs_extra_run.

(** ** NF and the cached separators (interpreter.cpp, interpreter_exec.cpp) *)

Section Extra_more_fields.
Context {host : Host} {engine : RegexLib} {library : Library}.

(** X25.  NF is the number of fields whenever a record is set or read
    or a field is assigned: after [set_record], after [set_field] for
    an index that is not negative, and after a successful
    [read_record], in any state and whatever the splitting mode is, the
    variable NF holds the length of the fields vector. *)
Theorem NF_is_the_number_of_fields (record : string) (index : Z) (v : AWKValue.t)
    (input : istream) (st : Interp) :
  let NF_is_length st' :=
    value_of "NF" (env_ st')
    = AWKValue.NUMBER (to_double (Z.of_nat (length (fields_ st')))) in
  NF_is_length (set_record record st)
  /\ (0 <= index -> NF_is_length (set_field index v st))
  /\ (let '(ok, _, st') := read_record input st in ok = true -> NF_is_length st').
Proof.
  cbv zeta. split; [|split].
  - rewrite <- env_get_value. apply set_record_NF.
  - intros Hi. rewrite <- env_get_value. now apply set_field_NF_is_length.
  - unfold read_record. destruct (get_cached_rs st) as [rs s1].
    destruct (match rs with "" => _ | _ => _ end) as [[[ok i1] rec] rt].
    destruct ok; cbn [negb]; [|intros H; discriminate H].
    destruct (env_get "NR" _) as [nr s4]. destruct (env_get "FNR" s4) as [fnr s5].
    intros _.
    match goal with
    | |- context [parse_fields ?s] =>
        destruct (parse_fields_dirty s eq_refl) as [st' ->]
    end.
    rewrite <- env_get_value. apply finish_parse_NF.
Qed.

(** X26.  A separator assigned in an action waits for the next
    record.  In a state whose cache of the special variables is up to
    date, after [OFS = s] the variable OFS holds [s], but a print that
    follows still joins its arguments by the cached output field
    separator and ends with the cached output record separator: the
    cache is marked out of date only when a record is read. *)
Theorem assigned_separator_waits_for_the_next_record (s a b : string) (st : Interp) :
  special_vars_dirty_ st = false ->
  let '(o, st') :=
    execute (BlockStmt [ExprStmt (AssignExpr (VariableExpr "OFS") ASSIGN (lit s));
                        PrintStmt [lit a; lit b]]) st in
  o = Normal
  /\ value_of "OFS" (env_ st') = AWKValue.STRING s
  /\ output_ st'
     = output_ st ++ a ++ cached_ofs_ (cached_ st) ++ b ++ cached_ors_ (cached_ st).
Proof.
  intros Hd. cbn [execute].
  rewrite evaluate_assign_variable by reflexivity.
  cbn [evaluate lit assign_op].
  pose proof (get_variable_holds_writes "OFS" (env_ st)) as Hh.
  pose proof (value_of_env_set_same "OFS" (AWKValue.STRING s) st eq_refl) as Hv.
  unfold env_set in Hv.
  destruct (Environment.get_variable "OFS" (env_ st)) as [r env]. cbn [fst snd] in Hh.
  cbn [write_ref read_ref env_ set_env_].
  unfold get_cached_ofs, get_cached_ofmt, get_cached_ors, get_cached.
  rewrite !(refresh_clean
              (set_env_ (Environment.write r (AWKValue.STRING s) env) (set_env_ env st))
              Hd).
  cbn [print_arguments evaluate lit cached_ set_env_ AWKValue.to_string_fmt].
  unfold write_output. cbn [output_ set_output_ cached_ env_].
  rewrite refresh_clean by exact Hd.
  cbn [output_ set_output_ cached_ env_ set_env_].
  split; [reflexivity|]. split; [exact Hv|].
  now rewrite !append_assoc.
Qed.

(** X27.  length(), sub and gsub on the record do not see a field
    assignment.  After an assignment to a field [$i], [i] at least 1,
    [length()] is the length of the record text as it was before the
    assignment; and [sub] or [gsub] without a target, when their
    pattern compiles and the substitution changes the text, replace in
    that old text and make the result the record: [$0] then reads as
    the old record with the substitution made, the assigned field is
    not part of it, and no rebuild is pending. *)
Theorem record_functions_miss_a_field_assignment (index : Z) (v : AWKValue.t)
    (function_name p r : string) (re : regex) (st : Interp) :
  0 < index ->
  function_name = "sub" \/ function_name = "gsub" ->
  let st1 := set_field index v st in
  let result := regex_replace (current_record_ st) re (convert_awk_replacement r false)
                  (String.eqb function_name "sub") in
  (evaluate (CallExpr "length" []) st1).1
  = AWKValue.NUMBER (to_double (Z.of_nat (String.length (current_record_ st))))
  /\ ((get_cached_regex p st1).1 = inl re ->
      result <> current_record_ st ->
      let st' := (evaluate (CallExpr function_name [lit p; lit r]) st1).2 in
      current_record_ st' = result
      /\ fields_dirty_ st' = false
      /\ (read_field 0 st').1 = AWKValue.STRNUM result).
Proof.
  intros Hpos Hfn. cbv zeta.
  destruct (set_field_flags index v st Hpos) as (_ & _ & Hcr & _).
  destruct (parse_fields_keeps st) as [Hcr' _]. rewrite Hcr' in Hcr. clear Hcr'.
  revert Hcr. generalize (set_field index v st). intros st1 Hcr.
  split.
  - cbn. now rewrite Hcr.
  - intros Hre Hne.
    assert (Hev : evaluate (CallExpr function_name [lit p; lit r]) st1
                  = substitute function_name p r (current_record_ st1) set_record st1).
    { destruct Hfn as [-> | ->]; reflexivity. }
    rewrite Hev. clear Hev. unfold substitute.
    pose proof (frame_get_cached_regex current_record_ env_frame_current_record_ p st1)
      as Hc2.
    destruct (get_cached_regex p st1) as [re' s2]. cbn [fst snd] in *. subst re'.
    rewrite Hcr.
    assert (Hres : forall result count,
              result <> current_record_ st ->
              let st' := (AWKValue.NUMBER (to_double count),
                          if negb (String.eqb result (current_record_ st))
                          then set_record result s2 else s2).2 in
              current_record_ st' = result /\ fields_dirty_ st' = false
              /\ (read_field 0 st').1 = AWKValue.STRNUM result).
    { intros result count Hr. cbv zeta. cbn [snd].
      replace (String.eqb result (current_record_ st)) with false
        by (symmetry; now apply String.eqb_neq).
      cbn [negb]. destruct (set_record_record result s2) as (H1 & H2 & H3).
      revert H1 H2 H3. generalize (set_record result s2). intros s3 H1 H2 H3.
      split; [exact H1|]. split; [exact H2|].
      unfold read_field, get_field. rewrite parse_fields_clean by exact H3.
      cbn [Z.eqb]. unfold rebuild_record. rewrite H2. cbn. now rewrite H1. }
    destruct Hfn as [-> | ->]; cbn [String.eqb Ascii.eqb Bool.eqb] in *;
      now apply Hres.
Qed.

End Extra_more_fields.

Section Runs_extra_more_fields.
#[local] Existing Instance x86_64.
#[local] Existing Instance literal_engine.
#[local] Existing Instance no_library.

Lemma NF_is_the_number_of_fields_witness :
  value_of "NF" (env_ (set_field 3 (AWKValue.STRING "c") new_Interp))
  = AWKValue.NUMBER
      (to_double
         (Z.of_nat (length (fields_ (set_field 3 (AWKValue.STRING "c") new_Interp))))).
Proof.
  destruct (NF_is_the_number_of_fields "a b" 3 (AWKValue.STRING "c") (open_stream "")
              new_Interp) as (_ & H & _).
  apply H. lia.
Defined.

Lemma assigned_separator_waits_for_the_next_record_witness :
  let '(o, st') :=
    execute (BlockStmt [ExprStmt (AssignExpr (VariableExpr "OFS") ASSIGN (lit "-"));
                        PrintStmt [lit "a"; lit "b"]]) separators_cached in
  o = Normal
  /\ value_of "OFS" (env_ st') = AWKValue.STRING "-"
  /\ output_ st'
     = output_ separators_cached ++ "a" ++ cached_ofs_ (cached_ separators_cached)
       ++ "b" ++ cached_ors_ (cached_ separators_cached).
Proof.
  apply (assigned_separator_waits_for_the_next_record "-" "a" "b" separators_cached).
  vm_compute. reflexivity.
Defined.

Lemma record_functions_miss_a_field_assignment_witness :
  current_record_
    (evaluate (CallExpr "sub" [lit "b"; lit "Y"])
       (set_field 1 (AWKValue.STRING "X") record_a_b)).2
  = regex_replace (current_record_ record_a_b) (literal "b")
      (convert_awk_replacement "Y" false) (String.eqb "sub" "sub").
Proof.
  destruct (record_functions_miss_a_field_assignment 1 (AWKValue.STRING "X") "sub"
              "b" "Y" (literal "b") record_a_b ltac:(lia) (or_introl eq_refl))
    as [_ H].
  apply H.
  - vm_compute. reflexivity.
  - vm_compute. discriminate.
Defined.

End Runs_extra_more_fields.

(** ** Expressions (interpreter_eval.cpp, interpreter.cpp) *)

Section Extra_expressions.
Context {host : Host} {engine : RegexLib} {library : Library}.

(** X28.  An expression built from literals, variables, the operators
    [+], [-] and [*] (binary and unary), the comparisons, [&&], [||],
    [!], the conditional operator, concatenation and matches (no
    field, no assignment, no increment or decrement, no call) is
    evaluated without effect on what the program can observe: every
    variable reads afterwards as before, and the state is the same but
    for variables created uninitialized by the lookups and for messages
    on invalid regexes on the error stream; the output, the record and
    the fields are untouched.  So a rule whose pattern is such an
    expression leaves these as they are when the pattern is
    evaluated, and the pattern itself is not changed. *)
Theorem pure_expression_has_no_effect (e : Expr) (p : Pattern) (st : Interp) :
  pure e = true ->
  (let st' := (evaluate e st).2 in
   only_looked_up st st'
   /\ output_ st' = output_ st
   /\ fields_ st' = fields_ st
   /\ current_record_ st' = current_record_ st)
  /\ (type p = EXPRESSION -> expr p = Some e ->
      let '(_, p', st') := pattern_matches p st in
      p' = p /\ only_looked_up st st').
Proof.
  intros Hp. pose proof (pure_expression_only_looks_up e st Hp) as H.
  split.
  - cbv zeta. split; [exact H|]. destruct H as [_ H].
    split; [|split].
    + now apply (f_equal output_) in H.
    + now apply (f_equal fields_) in H.
    + now apply (f_equal current_record_) in H.
  - intros Hty He. unfold pattern_matches. rewrite Hty, He.
    destruct (evaluate e st) as [v st']. now split.
Qed.

End Extra_expressions.

Section Runs_extra_expressions.
#[local] Existing Instance x86_64.
#[local] Existing Instance literal_engine.
#[local] Existing Instance no_library.

Lemma pure_expression_has_no_effect_witness :
  output_ (evaluate (BinaryExpr (VariableExpr "x") EQ (num 1)) record_a_b).2
  = output_ record_a_b
  /\ fields_ (evaluate (BinaryExpr (VariableExpr "x") EQ (num 1)) record_a_b).2
     = fields_ record_a_b.
Proof.
  destruct (pure_expression_has_no_effect (BinaryExpr (VariableExpr "x") EQ (num 1))
              (special EMPTY) record_a_b eq_refl) as [(_ & Ho & Hf & _) _].
  split; [exact Ho|exact Hf].
Defined.

End Runs_extra_expressions.

(** ** gsub with the matched text as the replacement (interpreter.cpp) *)

Section Extra_gsub_ampersand.
Context {host : Host} {engine : RegexLib} {library : Library}.

(** X29.  gsub with the replacement text [&] changes nothing: every
    match is replaced by itself, so the result equals the target and
    is not written back.  For every regex expression, with a variable
    as the target the variable reads after the call as it read when
    the call reached it, and with the record as the target the record
    and the fields are left as they were; nothing is printed.  For
    the engine: replacing every match by [$&] gives the text back. *)
Theorem gsub_ampersand_changes_nothing (re_expr : Expr) (name : string)
    (st : Interp) :
  (let '(p, st1) := evaluate re_expr st in
   let '(target_var, env) := Environment.get_variable name (env_ st1) in
   let st' :=
     (evaluate (CallExpr "gsub" [re_expr; lit "&"; VariableExpr name]) st).2 in
   Environment.read target_var (env_ st') = Environment.read target_var env
   /\ output_ st' = output_ st1)
  /\ (let st1 := (evaluate re_expr st).2 in
      let st' := (evaluate (CallExpr "gsub" [re_expr; lit "&"]) st).2 in
      current_record_ st' = current_record_ st1
      /\ fields_ st' = fields_ st1
      /\ output_ st' = output_ st1)
  /\ (forall (re : regex) (s : string), regex_replace s re "$&" false = s)
  /\ convert_awk_replacement "&" false = "$&".
Proof.
  assert (Hsub : forall {A} (f : Interp -> A), env_frame f ->
            forall pattern target write_back s,
            f (substitute "gsub" pattern "&" target write_back s).2 = f s).
  { intros A f Hf pattern target write_back s. rewrite substitute_gsub_self.
    pose proof (frame_get_cached_regex f Hf pattern s) as H.
    destruct (get_cached_regex pattern s) as [[re|what] s']; cbn [snd] in *;
      [exact H|].
    now rewrite (frame_write_error f Hf). }
  split; [|split; [|split; [apply regex_replace_self|reflexivity]]].
  - rewrite evaluate_sub_gsub_var by reflexivity.
    destruct (evaluate re_expr st) as [p st1].
    cbn [evaluate lit AWKValue.to_string AWKValue.to_string_fmt].
    destruct (Environment.get_variable name (env_ st1)) as [target_var env].
    cbv zeta. split.
    + rewrite substitute_gsub_self.
      pose proof (get_cached_regex_read target_var (AWKValue.to_string p)
                    (set_env_ env st1)) as Hread.
      destruct (get_cached_regex (AWKValue.to_string p) (set_env_ env st1))
        as [[re|what] st']; cbn [fst snd] in *; exact Hread.
    + now rewrite (Hsub _ output_ env_frame_output_).
  - cbv zeta.
    change (evaluate (CallExpr "gsub" [re_expr; lit "&"]) st)
      with (let '(p, st) := evaluate re_expr st in
            let '(r, st) := evaluate (lit "&") st in
            substitute "gsub" (AWKValue.to_string p) (AWKValue.to_string r)
              (current_record_ st) set_record st).
    destruct (evaluate re_expr st) as [p st1].
    cbn [evaluate lit AWKValue.to_string AWKValue.to_string_fmt snd].
    rewrite (Hsub _ current_record_ env_frame_current_record_).
    rewrite (Hsub _ fields_ env_frame_fields_).
    now rewrite (Hsub _ output_ env_frame_output_).
Qed.

End Extra_gsub_ampersand.

(** ** Increment and decrement (interpreter_eval.cpp, value.cpp) *)

Section Extra_increment.
Context {host : Host} {engine : RegexLib} {library : Library}.

(** X30.  The operators [++] and [--].  On a variable: the variable
    becomes the number it held plus or minus 1, the prefix form
    yields that number and the postfix form the value the variable
    had, as it was (for a variable never assigned, the uninitialized
    value); no other variable, nor the output, the fields or the
    record change.  On a field [$i], [i] at least 1, in a state with
    a coherent field cache: the operator works on the cached value of
    the field only.  The state after it is the state after a read of
    the field with the cached value replaced, so a later read of [$i]
    gives the new number, while the text of the field, the record and
    the pending rebuild are as the read left them, and print without
    arguments prints what it would have printed without the operator.
    On whole numbers within -2^53 and 2^53 the step is exact; at 2^53
    [++] leaves the number as it is. *)
Theorem increment_and_decrement (op : TokenType) (pre : bool) (x : string)
    (ie : Expr) (st : Interp) :
  op = INCREMENT \/ op = DECREMENT ->
  (str_find "::" x = None ->
   let old := value_of x (env_ st) in
   let '(v, st') := evaluate (UnaryExpr op (VariableExpr x) pre) st in
   v = (if pre then incremented op old else old)
   /\ value_of x (env_ st') = incremented op old
   /\ (forall other, str_find "::" other = None -> other <> x ->
        value_of other (env_ st') = value_of other (env_ st))
   /\ output_ st' = output_ st
   /\ fields_ st' = fields_ st
   /\ current_record_ st' = current_record_ st)
  /\ (let '(iv, st1) := evaluate ie st in
      let i := static_cast T_int (AWKValue.to_number iv) in
      field_cache_coherent st1 -> 0 < i ->
      let '(old, st2) := read_field i st1 in
      let '(v, st') := evaluate (UnaryExpr op (FieldExpr ie) pre) st in
      v = (if pre then incremented op old else old)
      /\ st' = set_field_values_
                 (<[(Z.to_nat i - 1)%nat := incremented op old]> (field_values_ st2))
                 st2
      /\ read_field i st' = (incremented op old, st')
      /\ fields_ st' = fields_ st2
      /\ current_record_ st' = current_record_ st2
      /\ fields_dirty_ st' = fields_dirty_ st2
      /\ output_ (execute (PrintStmt []) st').2
         = output_ (execute (PrintStmt []) st2).2)
  /\ (forall n,
        - 2 ^ 53 <= n <= 2 ^ 53 ->
        - 2 ^ 53 <= n + increment_step op <= 2 ^ 53 ->
        incremented op (AWKValue.NUMBER (inject_Z n))
        = AWKValue.NUMBER (inject_Z (n + increment_step op)))
  /\ incremented INCREMENT (AWKValue.NUMBER (inject_Z (2 ^ 53)))
     = AWKValue.NUMBER (inject_Z (2 ^ 53)).
Proof.
  intros Hop. split; [|split; [|split]].
  - intros Hsep. cbv zeta. rewrite evaluate_increment_variable by exact Hop.
    cbv zeta. rewrite env_get_value.
    split; [reflexivity|]. split; [now apply value_of_env_set_same|].
    split; [intros other Ho Hne; now apply value_of_env_set_other|].
    rewrite (frame_env_set output_ env_frame_output_).
    rewrite (frame_env_set fields_ env_frame_fields_).
    now rewrite (frame_env_set current_record_ env_frame_current_record_).
  - rewrite evaluate_increment_field by exact Hop.
    destruct (evaluate ie st) as [iv st1]. cbv zeta.
    set (i := static_cast T_int (AWKValue.to_number iv)).
    intros Hco Hpos. unfold read_field.
    destruct (get_field_after i st1 Hco Hpos) as (Hr & Hd & Hn & Hge & Hflag).
    destruct (get_field i st1) as [r st2]. cbn [fst snd] in *. subst r.
    cbn [read_ref write_ref].
    set (old := default AWKValue.UNINITIALIZED
                  (field_values_ st2 !! (Z.to_nat i - 1)%nat)).
    pose proof (read_field_overwritten i (incremented op old) st2 Hpos Hd Hn Hge Hflag)
      as Hread. cbv zeta in Hread.
    split.
    { destruct pre; [|reflexivity]. cbn [field_values_ set_field_values_].
      rewrite list_lookup_insert_eq by lia. reflexivity. }
    split; [reflexivity|]. split; [exact Hread|].
    split; [reflexivity|]. split; [reflexivity|]. split; [reflexivity|].
    now rewrite print_record_ignores_cache.
  - intros n Hn Hn'. unfold incremented. cbn [AWKValue.to_number].
    rewrite <- inject_Z_plus. now rewrite round_double_inject_Z.
  - vm_compute. reflexivity.
Qed.

End Extra_increment.

Section Runs_extra_increment.
#[local] Existing Instance x86_64.
#[local] Existing Instance literal_engine.
#[local] Existing Instance no_library.

(** The statement at [x++] for a variable never assigned, and at
    [$1++] on the record [a x]. *)
Lemma increment_and_decrement_witness :
  let st := set_record "a x" new_Interp in
  (evaluate (UnaryExpr INCREMENT (VariableExpr "x") false) st).1
  = AWKValue.UNINITIALIZED
  /\ value_of "x" (env_ (evaluate (UnaryExpr INCREMENT (VariableExpr "x") false) st).2)
     = AWKValue.NUMBER 1
  /\ (let st' := (evaluate (UnaryExpr INCREMENT (FieldExpr (num 1)) false) st).2 in
      (read_field 1 st').1 = AWKValue.NUMBER 1
      /\ output_ (execute (PrintStmt []) st').2 = "a x" ++ newline).
Proof.
  cbv zeta.
  assert (Hco : field_cache_coherent (set_record "a x" new_Interp)).
  { apply set_record_coherent. split; [reflexivity|]. intros j Hj. discriminate Hj. }
  assert (Hx : value_of "x" (env_ (set_record "a x" new_Interp))
               = AWKValue.UNINITIALIZED) by (vm_compute; reflexivity).
  assert (Hf : (read_field 1 (set_record "a x" new_Interp)).1 = AWKValue.STRNUM "a")
    by (vm_compute; reflexivity).
  assert (Hp : output_ (execute (PrintStmt [])
                          (read_field 1 (set_record "a x" new_Interp)).2).2
               = "a x" ++ newline) by (vm_compute; reflexivity).
  revert Hco Hx Hf Hp. generalize (set_record "a x" new_Interp). intros st Hco Hx Hf Hp.
  destruct (increment_and_decrement INCREMENT false "x" (num 1) st (or_introl eq_refl))
    as (Hvar & Hfield & _ & _).
  specialize (Hvar eq_refl). cbv zeta in Hvar. rewrite Hx in Hvar.
  change (evaluate (num 1) st) with (AWKValue.NUMBER (inject_Z 1), st) in Hfield.
  cbv beta iota zeta in Hfield.
  change (static_cast T_int (AWKValue.to_number (AWKValue.NUMBER (inject_Z 1))))
    with 1 in Hfield.
  specialize (Hfield Hco ltac:(lia)).
  destruct (read_field 1 st) as [old st2]. cbn [fst snd] in Hf, Hp. subst old.
  destruct (evaluate (UnaryExpr INCREMENT (VariableExpr "x") false) st) as [v s1].
  destruct (evaluate (UnaryExpr INCREMENT (FieldExpr (num 1)) false) st) as [v2 s2].
  destruct Hvar as (Hv & Hnew & _). destruct Hfield as (_ & _ & Hread & _ & _ & _ & Hout).
  cbn [fst snd]. split; [exact Hv|]. split; [rewrite Hnew; vm_compute; reflexivity|].
  split; [rewrite Hread; vm_compute; reflexivity|].
  rewrite Hout. exact Hp.
Defined.

End Runs_extra_increment.
